(** * cmed-server: the hierarchical storage core

    A shallow embedding of the folder and file controllers
    ([src/controllers/folderController.ts], [src/controllers/fileController.ts]),
    the blob store ([src/services/fileStorage.ts]), the cache middleware
    ([src/config/redis.ts]), the relational schema ([src/config/database.ts])
    and the folder-name validator ([src/utils/fileValidator.ts]), followed by
    the properties of the specification that were checked against them.

    Conventions.
    - A JavaScript [number] used as an id is a [Z]; [number | null] is
      [option Z]; the truthiness test [if (folderId)] is [truthy].
    - A JavaScript string is a [string]; characters are code units below 256.
    - Timestamps ([created_at], [updated_at], [last_modified]) are left out of
      rows and payloads: no wall clock is modelled.
    - [await] is sequencing: one controller call runs to completion before
      the next one starts. *)

From Stdlib Require Import ZArith String Ascii List Lia Permutation.
From stdpp Require Import gmap strings list fin_maps pretty sorting.

Open Scope string_scope.
Open Scope Z_scope.

(** ** JavaScript values *)

(** [if (x)] for [x : number | null]: [null] and [0] are falsy. *)
Definition truthy (x : option Z) : bool :=
  match x with
  | Some n => negb (n =? 0)
  | None => false
  end.

(** Template-literal rendering of an integer: [`${n}`]. *)
Definition show (n : Z) : string := pretty n.

Module Js.

(** [s.includes(sub)] *)
Definition includes (s sub : string) : bool :=
  match String.index 0 sub s with
  | Some _ => true
  | None => false
  end.

(** White space removed by [String.prototype.trim], restricted to code
    units below 256: TAB, LF, VT, FF, CR, SPACE and NBSP. *)
Definition is_space (c : ascii) : bool :=
  let n := nat_of_ascii c in
  ((9 <=? n) && (n <=? 13) || (n =? 32) || (n =? 160))%nat.

Fixpoint trim_start (s : string) : string :=
  match s with
  | String c s' => if is_space c then trim_start s' else s
  | EmptyString => EmptyString
  end.

Definition trim (s : string) : string :=
  String.rev (trim_start (String.rev (trim_start s))).

(** [s.substring(a, b)] for [0 <= a <= b]. *)
Definition substring (a b : nat) (s : string) : string :=
  String.substring a (b - a) s.

(** [s.replace(pat, by)] with a string pattern: only the first occurrence
    is replaced. *)
Definition replace (s pat by_ : string) : string :=
  match String.index 0 pat s with
  | Some i =>
      String.substring 0 i s +:+ by_ +:+
      String.substring (i + String.length pat) (String.length s) s
  | None => s
  end.

(** [s.toLowerCase()] on code units below 256: [A]-[Z] and the Latin-1
    capitals (U+00C0 to U+00DE, but not the sign U+00D7) move up by 32. *)
Definition lower_char (c : ascii) : ascii :=
  let n := nat_of_ascii c in
  if ((65 <=? n) && (n <=? 90) ||
      (192 <=? n) && (n <=? 222) && negb (n =? 215))%nat
  then ascii_of_nat (n + 32) else c.

Fixpoint toLowerCase (s : string) : string :=
  match s with
  | String c s' => String (lower_char c) (toLowerCase s')
  | EmptyString => EmptyString
  end.

(** [s.split(sep)] for a separator of one character: the pieces between
    the separators, empty pieces included; never the empty array. [cur] is
    the piece being read, reversed. *)
Fixpoint split_go (sep : ascii) (s cur : string) : list string :=
  match s with
  | EmptyString => [String.rev cur]
  | String c s' =>
      if Ascii.eqb c sep then String.rev cur :: split_go sep s' EmptyString
      else split_go sep s' (String c cur)
  end.

Definition split (sep : ascii) (s : string) : list string :=
  split_go sep s EmptyString.

(** [s.startsWith(p)] *)
Definition startsWith (s p : string) : bool := String.prefix p s.

(** [l.join(sep)] *)
Fixpoint join (sep : string) (l : list string) : string :=
  match l with
  | [] => ""
  | [x] => x
  | x :: rest => x +:+ sep +:+ join sep rest
  end.

End Js.

(** ** src/utils/fileValidator.ts *)

Record validation := { isValid : bool; error : option string }.

Definition invalidChars : list string :=
  ["/"; "\"; ":"; "*"; "?"; String (ascii_of_nat 34) ""; "<"; ">"; "|"].

(** The [for (const char of invalidChars)] loop of [validateFolderName]. *)
Fixpoint first_invalid_char (name : string) (chars : list string) : option string :=
  match chars with
  | [] => None
  | char :: rest =>
      if Js.includes name char then Some char else first_invalid_char name rest
  end.

Definition validateFolderName (name : string) : validation :=
  if (String.eqb name "" || String.eqb (Js.trim name) "")%bool then
    {| isValid := false; error := Some "Folder name cannot be empty" |}
  else if (255 <? String.length name)%nat then
    {| isValid := false; error := Some "Folder name cannot exceed 255 characters" |}
  else
    match first_invalid_char name invalidChars with
    | Some char =>
        {| isValid := false;
           error := Some ("Folder name contains invalid character: " +:+ char) |}
    | None => {| isValid := true; error := None |}
    end.

(** ** node:path (POSIX) as used by the blob store *)

Module Path.

(** Split at every [/]; empty segments are kept. *)
Fixpoint split_go (s : string) (cur : string) : list string :=
  match s with
  | EmptyString => [String.rev cur]
  | String c s' =>
      if Ascii.eqb c "/" then String.rev cur :: split_go s' EmptyString
      else split_go s' (String c cur)
  end.

Definition split (s : string) : list string := split_go s EmptyString.

Definition starts_with_slash (s : string) : bool :=
  match s with
  | String c _ => Ascii.eqb c "/"
  | EmptyString => false
  end.

Definition ends_with_slash (s : string) : bool :=
  starts_with_slash (String.rev s).

(** The segment stack of [normalizeString]; [acc] is kept reversed. *)
Fixpoint resolve (allowAboveRoot : bool) (segs acc : list string) : list string :=
  match segs with
  | [] => List.rev acc
  | seg :: rest =>
      if String.eqb seg "" then resolve allowAboveRoot rest acc
      else if String.eqb seg "." then resolve allowAboveRoot rest acc
      else if String.eqb seg ".." then
        match acc with
        | top :: acc' =>
            if String.eqb top ".." then resolve allowAboveRoot rest (seg :: acc)
            else resolve allowAboveRoot rest acc'
        | [] =>
            if allowAboveRoot then resolve allowAboveRoot rest [seg]
            else resolve allowAboveRoot rest []
        end
      else resolve allowAboveRoot rest (seg :: acc)
  end.

Fixpoint concat_with (sep : string) (l : list string) : string :=
  match l with
  | [] => ""
  | [x] => x
  | x :: rest => x +:+ sep +:+ concat_with sep rest
  end.

Definition normalize (path : string) : string :=
  if String.eqb path "" then "."
  else
    let isAbsolute := starts_with_slash path in
    let trailingSeparator := ends_with_slash path in
    let body := concat_with "/" (resolve (negb isAbsolute) (split path) []) in
    if String.eqb body "" then
      if isAbsolute then "/" else if trailingSeparator then "./" else "."
    else
      let body := if trailingSeparator then body +:+ "/" else body in
      if isAbsolute then "/" +:+ body else body.

(** [join(...parts)]: the non-empty parts glued with [/], normalised. *)
Definition join (parts : list string) : string :=
  match List.filter (fun p => negb (String.eqb p "")) parts with
  | [] => "."
  | nonempty => normalize (concat_with "/" nonempty)
  end.

Fixpoint drop_trailing_slashes (rev_s : string) : string :=
  match rev_s with
  | String c s' => if Ascii.eqb c "/" then drop_trailing_slashes s' else rev_s
  | EmptyString => EmptyString
  end.

Fixpoint take_until_slash (s : string) : string :=
  match s with
  | String c s' => if Ascii.eqb c "/" then EmptyString else String c (take_until_slash s')
  | EmptyString => EmptyString
  end.

Fixpoint drop_until_slash (s : string) : string :=
  match s with
  | String c s' => if Ascii.eqb c "/" then s else drop_until_slash s'
  | EmptyString => EmptyString
  end.

(** [basename(path)]: the last segment, trailing slashes ignored. *)
Definition basename (path : string) : string :=
  String.rev (take_until_slash (drop_trailing_slashes (String.rev path))).

(** [dirname(path)], for the normalised paths [join] produces. *)
Definition dirname (path : string) : string :=
  let r := drop_trailing_slashes (String.rev path) in
  let up := drop_trailing_slashes (drop_until_slash r) in
  if String.eqb up "" then
    if starts_with_slash path then "/"
    else if starts_with_slash (drop_until_slash r) then "/" else "."
  else String.rev up.

(** [path], [dirname(path)], [dirname(dirname(path))], ... up to the
    directory that is its own [dirname] ([/] or [.]). *)
Fixpoint lineage (fuel : nat) (path : string) : list string :=
  match fuel with
  | O => []
  | S n =>
      let up := dirname path in
      if String.eqb up path then [path] else path :: lineage n up
  end.

Definition self_and_ancestors (path : string) : list string :=
  lineage (S (String.length path)) path.

(** The reversed suffix of a reversed name up to and including its
    first dot, i.e. the extension candidate of the name. *)
Fixpoint take_through_dot (rev_s : string) : option string :=
  match rev_s with
  | String c s' =>
      if Ascii.eqb c "." then Some (String c EmptyString)
      else match take_through_dot s' with
           | Some r => Some (String c r)
           | None => None
           end
  | EmptyString => None
  end.

(** [extname(path)]: the suffix of the base name from its last dot; empty
    when there is no dot, when the last dot is the first character of the
    base name, or when the base name is [..]. *)
Definition extname (path : string) : string :=
  let base := basename path in
  match take_through_dot (String.rev base) with
  | None => ""
  | Some r =>
      let ext := String.rev r in
      if (String.length ext =? String.length base)%nat then ""
      else if String.eqb base ".." then ""
      else ext
  end.

End Path.

(** ** src/config/database.ts: the relational schema

    [folders(folder_id, user_id, parent_folder_id, name)] and
    [files(file_id, user_id, folder_id, name, file_path, mime_type, size)],
    with their primary keys, [AUTO_INCREMENT] counters, foreign keys
    ([ON DELETE CASCADE]) and unique keys. Column widths and collations are
    not modelled: names compare by equality. The counters are part of the
    transactional state here. *)

Record folder_row := mkFolder {
  folder_id : Z;
  folder_user_id : Z;
  parent_folder_id : option Z;
  folder_name : string
}.

Record file_row := mkFile {
  file_id : Z;
  file_user_id : Z;
  file_folder_id : option Z;
  file_name : string;
  file_path : string;
  mime_type : string;
  size : Z
}.

Record database := mkDatabase {
  users : list Z;
  folders : list folder_row;
  files : list file_row;
  folders_auto_increment : Z;
  files_auto_increment : Z
}.

#[global] Instance folder_row_eq_dec : EqDecision folder_row.
Proof. solve_decision. Defined.
#[global] Instance file_row_eq_dec : EqDecision file_row.
Proof. solve_decision. Defined.

Module Sql.

(** A nullable foreign key [fk] points into [ids]. *)
Definition references (ids : list Z) (fk : option Z) : Prop :=
  match fk with
  | Some p => p ∈ ids
  | None => False
  end.

#[global] Instance references_dec ids fk : Decision (references ids fk).
Proof. destruct fk; simpl; apply _. Defined.

(** A nullable foreign key is satisfied: [NULL], or the key of a row. *)
Definition fk_ok (ids : list Z) (fk : option Z) : Prop :=
  match fk with
  | Some p => p ∈ ids
  | None => True
  end.

#[global] Instance fk_ok_dec ids fk : Decision (fk_ok ids fk).
Proof. destruct fk; simpl; apply _. Defined.

Definition folder_ids (d : database) : list Z := folder_id <$> folders d.

(** [UNIQUE KEY unique_folder (user_id, parent_folder_id, name)]: a row
    other than [self] with the same user, the same non-NULL parent and the
    same name. A NULL parent never collides. *)
Definition folder_collision (d : database) (self : option Z)
    (uid : Z) (parent : option Z) (name : string) : Prop :=
  ∃ r, r ∈ folders d ∧ Some (folder_id r) ≠ self ∧ folder_user_id r = uid ∧
       parent ≠ None ∧ parent_folder_id r = parent ∧ folder_name r = name.

#[global] Instance folder_collision_dec d self uid parent name :
  Decision (folder_collision d self uid parent name).
Proof.
  refine (cast_if (decide (Exists (λ r, Some (folder_id r) ≠ self ∧
    folder_user_id r = uid ∧ parent ≠ None ∧ parent_folder_id r = parent ∧
    folder_name r = name) (folders d))));
    unfold folder_collision; rewrite Exists_exists in *; naive_solver.
Defined.

(** [UNIQUE KEY unique_file (folder_id, name, user_id)] *)
Definition file_collision (d : database)
    (uid : Z) (folder : option Z) (name : string) : Prop :=
  ∃ r, r ∈ files d ∧ file_user_id r = uid ∧
       folder ≠ None ∧ file_folder_id r = folder ∧ file_name r = name.

#[global] Instance file_collision_dec d uid folder name :
  Decision (file_collision d uid folder name).
Proof.
  refine (cast_if (decide (Exists (λ r, file_user_id r = uid ∧
    folder ≠ None ∧ file_folder_id r = folder ∧ file_name r = name) (files d))));
    unfold file_collision; rewrite Exists_exists in *; naive_solver.
Defined.

(** [INSERT INTO folders (user_id, parent_folder_id, name) VALUES (?, ?, ?)];
    the result carries [insertId]. *)
Definition insert_folder (uid : Z) (parent : option Z) (name : string)
    (d : database) : option (Z * database) :=
  if decide (uid ∈ users d ∧ fk_ok (folder_ids d) parent ∧
             ¬ folder_collision d None uid parent name) then
    let id := folders_auto_increment d in
    Some (id, mkDatabase (users d)
                (folders d ++ [mkFolder id uid parent name])%list (files d)
                (id + 1) (files_auto_increment d))
  else None.

(** [INSERT INTO files (user_id, folder_id, name, file_path, mime_type, size)
     VALUES (?, ?, ?, ?, ?, ?)] *)
Definition insert_file (uid : Z) (folder : option Z) (name path mime : string)
    (sz : Z) (d : database) : option (Z * database) :=
  if decide (uid ∈ users d ∧ fk_ok (folder_ids d) folder ∧
             ¬ file_collision d uid folder name) then
    let id := files_auto_increment d in
    Some (id, mkDatabase (users d) (folders d)
                (files d ++ [mkFile id uid folder name path mime sz])%list
                (folders_auto_increment d) (id + 1))
  else None.

(** [DELETE FROM files WHERE file_id = ?] *)
Definition delete_file (id : Z) (d : database) : option (unit * database) :=
  Some (tt, mkDatabase (users d) (folders d)
              (filter (λ f, file_id f ≠ id) (files d))
              (folders_auto_increment d) (files_auto_increment d)).

(** One level of a folder deletion: the rows of [ids] go, and with them
    the files whose [folder_id] references one of them. *)
Definition delete_level (ids : list Z) (d : database) : database :=
  mkDatabase (users d)
    (filter (λ r, folder_id r ∉ ids) (folders d))
    (filter (λ f, ¬ references ids (file_folder_id f)) (files d))
    (folders_auto_increment d) (files_auto_increment d).

(** [ON DELETE CASCADE] on [folders.parent_folder_id] and
    [files.folder_id]: deleting [ids] deletes the rows that reference
    them, level by level. *)
Fixpoint cascade (fuel : nat) (ids : list Z) (d : database) : database :=
  match fuel with
  | O => d
  | S n =>
      match ids with
      | [] => d
      | _ =>
          let d' := delete_level ids d in
          let children :=
            folder_id <$> filter (λ r, references ids (parent_folder_id r)) (folders d') in
          cascade n children d'
      end
  end.

(** [DELETE FROM folders WHERE folder_id IN (?)] and
    [DELETE FROM folders WHERE folder_id = ?]. Every level after the first
    removes at least one row, so the fuel covers the deepest cascade. *)
Definition delete_folders (ids : list Z) (d : database) : option (unit * database) :=
  Some (tt, cascade (S (S (length (folders d)))) ids d).

Definition rename_row (id : Z) (name : string) (r : folder_row) : folder_row :=
  if decide (folder_id r = id)
  then mkFolder (folder_id r) (folder_user_id r) (parent_folder_id r) name
  else r.

Definition reparent_row (id : Z) (parent : option Z) (r : folder_row) : folder_row :=
  if decide (folder_id r = id)
  then mkFolder (folder_id r) (folder_user_id r) parent (folder_name r)
  else r.

(** The unique key is violated by applying [change] to the row [id]. *)
Definition update_collides (d : database) (id : Z) (change : folder_row → folder_row) : Prop :=
  ∃ r, r ∈ folders d ∧ folder_id r = id ∧
       folder_collision d (Some id) (folder_user_id r)
         (parent_folder_id (change r)) (folder_name (change r)).

#[global] Instance update_collides_dec d id change : Decision (update_collides d id change).
Proof.
  refine (cast_if (decide (Exists (λ r, folder_id r = id ∧
    folder_collision d (Some id) (folder_user_id r)
      (parent_folder_id (change r)) (folder_name (change r))) (folders d))));
    unfold update_collides; rewrite Exists_exists in *; naive_solver.
Defined.

(** [UPDATE folders SET name = ? WHERE folder_id = ?] *)
Definition update_folder_name (name : string) (id : Z) (d : database)
    : option (unit * database) :=
  if decide (update_collides d id (rename_row id name)) then None
  else Some (tt, mkDatabase (users d) (rename_row id name <$> folders d) (files d)
                   (folders_auto_increment d) (files_auto_increment d)).

(** [UPDATE folders SET parent_folder_id = ? WHERE folder_id = ?] *)
Definition update_folder_parent (parent : option Z) (id : Z) (d : database)
    : option (unit * database) :=
  if decide ((id ∈ folder_ids d → fk_ok (folder_ids d) parent) ∧
             ¬ update_collides d id (reparent_row id parent)) then
    Some (tt, mkDatabase (users d) (reparent_row id parent <$> folders d) (files d)
                (folders_auto_increment d) (files_auto_increment d))
  else None.

(** [SELECT * FROM folders WHERE ...] and [SELECT * FROM files WHERE ...] *)
Definition select_folders (P : folder_row → Prop) `{∀ r, Decision (P r)}
    (d : database) : list folder_row :=
  filter P (folders d).

Definition select_files (P : file_row → Prop) `{∀ r, Decision (P r)}
    (d : database) : list file_row :=
  filter P (files d).

(** [ORDER BY name ASC] *)
Definition name_le (a b : string) : Prop := String.leb a b = true.

#[global] Instance name_le_dec a b : Decision (name_le a b).
Proof. unfold name_le. apply _. Defined.

Definition order_folders_by_name (rows : list folder_row) : list folder_row :=
  merge_sort (λ a b, name_le (folder_name a) (folder_name b)) rows.

Definition order_files_by_name (rows : list file_row) : list file_row :=
  merge_sort (λ a b, name_le (file_name a) (file_name b)) rows.

End Sql.

(** ** Payloads, cache entries and the world *)

(** A node of the sidebar tree built by [getFolderTree]. *)
#[warnings="-register-all"] Inductive tree_node := TreeNode {
  node_id : Z;
  node_name : string;
  node_level : Z;
  nodeId : string;
  sub_classifications : list tree_node
}.

Record file_item := mkFileItem {
  item_id : Z;
  item_name : string;
  item_size : Z;
  item_mime_type : string;
  item_folder_id : option Z
}.

Record folder_item := mkFolderItem {
  sub_id : Z;
  sub_name : string;
  sub_parent_folder_id : option Z
}.

(** The objects the controllers return and the cache stores (as JSON). All
    of them are objects or arrays, hence truthy. *)
Inductive value :=
  | NoPayload
  | FileInfo (id : Z) (name_size_mime : option (string * Z * string))
  | FileDetails (f : file_item)
  | FileList (l : list file_item)
  | FolderInfo (id : Z) (name_parent : option (string * option Z))
  | FolderDetails (f : folder_item) (parent_folder_name : option string)
  | FolderList (l : list folder_item)
  | Tree (t : list tree_node).

(** [{ success: true, ... }] and [{ success: false, error }] *)
Inductive response :=
  | Success (payload : value)
  | Failure (error : string).

(** What [downloadFile] answers: [{ success: true, file: { data, name,
    mime_type, size } }] or [{ success: false, error }]. *)
Inductive download :=
  | Downloaded (data : list Byte.byte) (name mime_type : string) (size : Z)
  | NotDownloaded (error : string).


Record filesystem := mkFs {
  blobs : gmap string (list Byte.byte);
  dirs : gset string;
  io_error : bool          (* the disk rejects every change *)
}.

Inductive statement :=
  | InsertFolder | UpdateFolder | DeleteFolders | InsertFile | DeleteFile.

Inductive event :=
  | BeginTransaction
  | Commit
  | Rollback
  | Executed (s : statement)
  | CacheSet (key : string)
  | CacheDelete (key : string)
  | CacheDeleteByPattern (pattern : string)
  | WriteFile (path : string)
  | Unlink (path : string).

(** Everything a controller call can read or change: the committed
    metadata, the Redis content, the disk, the storage root, the point at
    which the metadata store fails next ([Some n]: the statement after [n]
    successful ones raises), and the history of effects, oldest first. *)
Record world := mkWorld {
  store : database;
  cache : gmap string value;
  disk : filesystem;
  UPLOAD_DIR : string;
  store_failure : option nat;
  log : list event
}.

Definition with_store (d : database) (w : world) : world :=
  mkWorld d (cache w) (disk w) (UPLOAD_DIR w) (store_failure w) (log w).
Definition with_cache (c : gmap string value) (w : world) : world :=
  mkWorld (store w) c (disk w) (UPLOAD_DIR w) (store_failure w) (log w).
Definition with_disk (f : filesystem) (w : world) : world :=
  mkWorld (store w) (cache w) f (UPLOAD_DIR w) (store_failure w) (log w).
Definition with_store_failure (n : option nat) (w : world) : world :=
  mkWorld (store w) (cache w) (disk w) (UPLOAD_DIR w) n (log w).
Definition record (e : event) (w : world) : world :=
  mkWorld (store w) (cache w) (disk w) (UPLOAD_DIR w) (store_failure w) (log w ++ [e])%list.

(** [const UPLOAD_DIR = process.env.UPLOAD_DIR || join(process.cwd(), 'uploads')] *)
Definition configured_UPLOAD_DIR (env_UPLOAD_DIR : option string) (cwd : string) : string :=
  match env_UPLOAD_DIR with
  | Some dir => if String.eqb dir "" then Path.join [cwd; "uploads"] else dir
  | None => Path.join [cwd; "uploads"]
  end.

(** ** Computations: state, exceptions, and recursion on fuel *)

Inductive outcome (A : Type) :=
  | Ok (a : A)
  | Thrown                (* a rejected promise / raised exception *)
  | OutOfFuel.            (* the recursion did not come back *)
Arguments Ok {A} a.
Arguments Thrown {A}.
Arguments OutOfFuel {A}.

Definition M (S A : Type) : Type := S → outcome A * S.

Definition ret {S A} (a : A) : M S A := λ s, (Ok a, s).

Definition bind {S A B} (m : M S A) (k : A → M S B) : M S B :=
  λ s, match m s with
       | (Ok a, s') => k a s'
       | (Thrown, s') => (Thrown, s')
       | (OutOfFuel, s') => (OutOfFuel, s')
       end.

Definition throw {S A} : M S A := λ s, (Thrown, s).
Definition diverge {S A} : M S A := λ s, (OutOfFuel, s).

(** [try { body } catch (error) { handler }] *)
Definition try_catch {S A} (body handler : M S A) : M S A :=
  λ s, match body s with
       | (Thrown, s') => handler s'
       | r => r
       end.

Definition gets {S A} (f : S → A) : M S A := λ s, (Ok (f s), s).
Definition modify {S} (f : S → S) : M S unit := λ s, (Ok tt, f s).

Notation "x <- m ;; k" := (bind m (λ x, k))
  (at level 100, m at next level, right associativity).
Notation "m ;; k" := (bind m (λ _, k))
  (at level 100, right associativity).

(** [for (const x of xs) { await body(x) }] *)
Fixpoint for_each {S A} (xs : list A) (body : A → M S unit) : M S unit :=
  match xs with
  | [] => ret tt
  | x :: rest => body x ;; for_each rest body
  end.

(** [let acc = init; for (const x of xs) { acc = await body(acc, x) }] *)
Fixpoint fold_each {S A B} (xs : list A) (acc : B) (body : B → A → M S B) : M S B :=
  match xs with
  | [] => ret acc
  | x :: rest => acc' <- body acc x ;; fold_each rest acc' body
  end.

(** [for (const x of xs) { if (await test(x)) return true } return false] *)
Fixpoint find_first {S A} (xs : list A) (test : A → M S bool) : M S bool :=
  match xs with
  | [] => ret false
  | x :: rest => found <- test x ;; if found : bool then ret true else find_first rest test
  end.

(** ** src/config/redis.ts: [cacheMiddleware]

    Redis is taken to be reachable; expiry is not modelled. *)

Module cacheMiddleware.

Definition set (key : string) (data : value) : M world bool :=
  modify (λ w, record (CacheSet key) (with_cache (<[key := data]> (cache w)) w)) ;;
  ret true.

Definition get (key : string) : M world (option value) :=
  gets (λ w, cache w !! key).

Definition delete (key : string) : M world bool :=
  modify (λ w, record (CacheDelete key) (with_cache (base.delete key (cache w)) w)) ;;
  ret true.

(** [deleteByPattern(`${prefix}*`)]: every call site passes a literal
    prefix followed by one [*]; [KEYS] then selects the keys that start
    with the prefix. *)
Definition deleteByPattern (prefix : string) : M world bool :=
  modify (λ w, record (CacheDeleteByPattern (prefix +:+ "*"))
                 (with_cache (filter (λ kv, String.prefix prefix kv.1 = false) (cache w)) w)) ;;
  ret true.

End cacheMiddleware.

(** ** node:fs/promises on the modelled disk *)

Module Fs.

Definition on_disk {A} (f : filesystem → option (A * filesystem)) : M world A :=
  λ w, match f (disk w) with
       | Some (a, fs') => (Ok a, with_disk fs' w)
       | None => (Thrown, w)
       end.

(** [mkdir(dir, { recursive: true })]: creates [dir] and the missing
    directories above it; an existing directory is not an error. *)
Definition mkdir_recursive (dir : string) : M world unit :=
  on_disk (λ fs,
    if io_error fs then None
    else if decide (Exists (λ p, is_Some (blobs fs !! p)) (Path.self_and_ancestors dir))
    then None
    else Some (tt, mkFs (blobs fs)
                     (dirs fs ∪ list_to_set (Path.self_and_ancestors dir))
                     (io_error fs))).

Definition writeFile (path : string) (data : list Byte.byte) : M world unit :=
  on_disk (λ fs,
    if io_error fs then None
    else if decide (path ∈ dirs fs ∨ Path.dirname path ∉ dirs fs) then None
    else Some (tt, mkFs (<[path := data]> (blobs fs)) (dirs fs) (io_error fs))) ;;
  modify (record (WriteFile path)).

Definition readFile (path : string) : M world (list Byte.byte) :=
  on_disk (λ fs, match blobs fs !! path with
                 | Some data => Some (data, fs)
                 | None => None
                 end).

Definition unlink (path : string) : M world unit :=
  on_disk (λ fs,
    if io_error fs then None
    else match blobs fs !! path with
         | Some _ => Some (tt, mkFs (delete path (blobs fs)) (dirs fs) (io_error fs))
         | None => None
         end) ;;
  modify (record (Unlink path)).

(** [readdir(dir)]: the entries directly inside [dir]. *)
Definition readdir (dir : string) : M world (list string) :=
  on_disk (λ fs,
    if decide (dir ∈ dirs fs) then
      Some (filter (λ p, Path.dirname p = dir ∧ p ≠ dir)
              (elements (dom (blobs fs)) ++ elements (dirs fs))%list, fs)
    else None).

(** [rm(dir, { recursive: true })] on a directory found empty; the
    directory that is its own parent cannot be removed. *)
Definition rm (dir : string) : M world unit :=
  on_disk (λ fs,
    if io_error fs then None
    else if decide (dir ∈ dirs fs ∧ Path.dirname dir ≠ dir) then
      Some (tt, mkFs (blobs fs) (dirs fs ∖ {[dir]}) (io_error fs))
    else None).

(** [stat(path)], reduced to the size it reports. *)
Definition stat (path : string) : M world Z :=
  on_disk (λ fs, match blobs fs !! path with
                 | Some data => Some (Z.of_nat (length data), fs)
                 | None => if decide (path ∈ dirs fs) then Some (0, fs) else None
                 end).

End Fs.

(** ** src/services/fileStorage.ts *)

Module fileStorage.

Definition getUserStorageDir (w : world) (userId : Z) : string :=
  Path.join [UPLOAD_DIR w; "user_" +:+ show userId].

(** [saveFile]; [fileId] is the value [randomUUID()] returns in this call.
    The result is [{ filePath: relativePath, fileId }]. *)
Definition saveFile (fileId : string) (userId : Z) (fileData : list Byte.byte)
    (originalFilename : string) : M world (string * string) :=
  let fileExtension := Path.extname originalFilename in
  let filename := fileId +:+ fileExtension in
  let firstDir := Js.substring 0 3 fileId in
  let secondDir := Js.substring 3 6 fileId in
  userDir <- gets (λ w, getUserStorageDir w userId) ;;
  let fileDir := Path.join [userDir; firstDir; secondDir] in
  let filePath := Path.join [fileDir; filename] in
  Fs.mkdir_recursive fileDir ;;
  Fs.writeFile filePath fileData ;;
  root <- gets UPLOAD_DIR ;;
  let relativePath := Js.replace filePath root "" in
  ret (relativePath, fileId).

Definition getFile (filePath : string) : M world (list Byte.byte) :=
  root <- gets UPLOAD_DIR ;;
  Fs.readFile (Path.join [root; filePath]).

(** The [while (dirPath !== UPLOAD_DIR)] loop of [deleteFile], run over
    the chain [dirname(fullPath)], [dirname(dirname(fullPath))], ...; the
    chain ends at the directory [rm] refuses. *)
Fixpoint prune (chain : list string) : M world unit :=
  match chain with
  | [] => ret tt
  | dirPath :: above =>
      root <- gets UPLOAD_DIR ;;
      if String.eqb dirPath root then ret tt
      else
        dirContents <- Fs.readdir dirPath ;;
        if (0 <? length dirContents)%nat then ret tt
        else Fs.rm dirPath ;; prune above
  end.

Definition deleteFile (filePath : string) : M world bool :=
  try_catch
    (root <- gets UPLOAD_DIR ;;
     let fullPath := Path.join [root; filePath] in
     Fs.unlink fullPath ;;
     try_catch (prune (tail (Path.self_and_ancestors fullPath))) (ret tt) ;;
     ret true)
    (ret false).

(** [getFileMetadata], reduced to the size: [null] when [stat] fails. *)
Definition getFileMetadata (filePath : string) : M world (option Z) :=
  try_catch
    (root <- gets UPLOAD_DIR ;;
     sz <- Fs.stat (Path.join [root; filePath]) ;;
     ret (Some sz))
    (ret None).

End fileStorage.

(** ** A pooled connection to the metadata store

    A transaction's writes stay private to its connection until [commit];
    every read sees the committed rows plus the connection's own writes. *)

Inductive connection :=
  | Idle
  | InTransaction (pending : option database).

Definition session : Type := connection * world.

(** Run [m] on the world, leaving the connection as it is. *)
Definition lift {A} (m : M world A) : M session A :=
  λ '(c, w), let '(r, w') := m w in (r, (c, w')).

Module Connection.

Definition view (s : session) : database :=
  match s with
  | (InTransaction (Some d), _) => d
  | (_, w) => store w
  end.

(** The store accepts the next statement, or raises. *)
Definition accept : M session unit :=
  λ '(c, w), match store_failure w with
             | None => (Ok tt, (c, w))
             | Some O => (Thrown, (c, with_store_failure None w))
             | Some (S n) => (Ok tt, (c, with_store_failure (Some n) w))
             end.

Definition beginTransaction : M session unit :=
  λ '(_, w), (Ok tt, (InTransaction None, record BeginTransaction w)).

(** [connection.query] with a [SELECT] *)
Definition select {A} (q : database → A) : M session A :=
  accept ;; gets (λ s, q (view s)).

(** [connection.query] with an [INSERT], [UPDATE] or [DELETE] *)
Definition execute {A} (kind : statement) (stmt : database → option (A * database))
    : M session A :=
  accept ;;
  λ '(c, w), match stmt (view (c, w)) with
             | Some (a, d') =>
                 (Ok a,
                  match c with
                  | Idle => (Idle, record (Executed kind) (with_store d' w))
                  | InTransaction _ => (InTransaction (Some d'), record (Executed kind) w)
                  end)
             | None => (Thrown, (c, w))
             end.

Definition commit : M session unit :=
  accept ;;
  λ '(c, w), (Ok tt, (Idle, record Commit (with_store (view (c, w)) w))).

Definition rollback : M session unit :=
  λ '(_, w), (Ok tt, (Idle, record Rollback w)).

(** [const connection = await pool.getConnection(); try { ... } finally
    { connection.release(); }] *)
Definition with_connection {A} (body : M session A) : M world A :=
  λ w, let '(r, (_, w')) := body (Idle, w) in (r, w').

End Connection.

(** ** Shared pieces of the controllers *)

(** The number held by a truthy [number | null]. *)
Definition number (x : option Z) : Z := default 0 x.

(** The SQL fragment [col ${x ? '= ?' : 'IS NULL'}] with parameter [x]. *)
Definition eq_or_is_null (x : option Z) (col : option Z) : Prop :=
  if truthy x then col = x else col = None.

#[global] Instance eq_or_is_null_dec x col : Decision (eq_or_is_null x col).
Proof. unfold eq_or_is_null. destruct (truthy x); apply _. Defined.

(** [rows.length === 0] *)
Definition is_empty {A} (rows : list A) : bool :=
  match rows with [] => true | _ => false end.

(** [await connection.rollback(); return { success: false, error }] *)
Definition reject (error : string) : M session response :=
  Connection.rollback ;; ret (Failure error).

(** [if (c) { await body }] *)
Definition when {S} (c : bool) (body : M S bool) : M S unit :=
  if c then body ;; ret tt else ret tt.

Record UploadedFile := mkUpload {
  upload_name : string;
  upload_type : string;
  upload_size : Z;
  arrayBuffer : list Byte.byte
}.

Definition file_item_of (file : file_row) : file_item :=
  mkFileItem (file_id file) (file_name file) (size file) (mime_type file)
             (file_folder_id file).

Definition folder_item_of (folder : folder_row) : folder_item :=
  mkFolderItem (folder_id folder) (folder_name folder) (parent_folder_id folder).

(** ** src/controllers/fileController.ts *)

Module fileController.

(** [uploadFile]; [uuid] is what [randomUUID()] yields inside [saveFile]. *)
Definition uploadFile (uuid : string) (userId : Z) (file : UploadedFile)
    (folderId : option Z) : M world response :=
  Connection.with_connection (
    try_catch
      (Connection.beginTransaction ;;
       let fileBuffer := arrayBuffer file in
       saved <- lift (fileStorage.saveFile uuid userId fileBuffer (upload_name file)) ;;
       let filePath := saved.1 in
       fileDbId <- Connection.execute InsertFile
         (Sql.insert_file userId folderId (upload_name file) filePath
            (upload_type file) (upload_size file)) ;;
       when (truthy folderId)
         (lift (cacheMiddleware.delete ("folder:" +:+ show (number folderId) +:+ ":contents"))) ;;
       lift (cacheMiddleware.delete ("user:" +:+ show userId +:+ ":folders")) ;;
       Connection.commit ;;
       files <- Connection.select (λ d, Sql.select_files (λ f, file_id f = fileDbId) d) ;;
       match files with
       | f :: _ =>
           ret (Success (FileInfo (file_id f) (Some (file_name f, size f, mime_type f))))
       | [] => ret (Success (FileInfo fileDbId None))
       end)
      (Connection.rollback ;; ret (Failure "Failed to upload file"))).

Definition deleteFile (userId fileId : Z) : M world response :=
  Connection.with_connection (
    try_catch
      (Connection.beginTransaction ;;
       files <- Connection.select
         (λ d, Sql.select_files (λ f, file_id f = fileId ∧ file_user_id f = userId) d) ;;
       match files with
       | [] => reject "File not found"
       | file :: _ =>
           lift (fileStorage.deleteFile (file_path file)) ;;
           Connection.execute DeleteFile (Sql.delete_file fileId) ;;
           lift (cacheMiddleware.delete ("file:" +:+ show fileId)) ;;
           when (truthy (file_folder_id file))
             (lift (cacheMiddleware.delete
                ("folder:" +:+ show (number (file_folder_id file)) +:+ ":contents"))) ;;
           lift (cacheMiddleware.delete ("user:" +:+ show userId +:+ ":folders")) ;;
           Connection.commit ;;
           ret (Success NoPayload)
       end)
      (Connection.rollback ;; ret (Failure "Failed to delete file"))).

Definition getFileDetails (userId fileId : Z) : M world response :=
  Connection.with_connection (
    try_catch
      (cachedFile <- lift (cacheMiddleware.get ("file:" +:+ show fileId)) ;;
       match cachedFile with
       | Some cached => ret (Success cached)
       | None =>
           files <- Connection.select
             (λ d, Sql.select_files (λ f, file_id f = fileId ∧ file_user_id f = userId) d) ;;
           match files with
           | [] => ret (Failure "File not found")
           | file :: _ =>
               lift (fileStorage.getFileMetadata (file_path file)) ;;
               let fileDetails := FileDetails (file_item_of file) in
               lift (cacheMiddleware.set ("file:" +:+ show fileId) fileDetails) ;;
               ret (Success fileDetails)
           end
       end)
      (ret (Failure "Failed to get file details"))).

Definition getFilesInFolder (userId : Z) (folderId : option Z) : M world response :=
  Connection.with_connection (
    try_catch
      (let cacheKey :=
         if truthy folderId
         then "folder:" +:+ show (number folderId) +:+ ":files"
         else "user:" +:+ show userId +:+ ":root:files" in
       cachedFiles <- lift (cacheMiddleware.get cacheKey) ;;
       match cachedFiles with
       | Some cached => ret (Success cached)
       | None =>
           files <- Connection.select
             (λ d, Sql.order_files_by_name
                (Sql.select_files (λ f, file_user_id f = userId ∧
                              eq_or_is_null folderId (file_folder_id f)) d)) ;;
           let fileList := file_item_of <$> files in
           lift (cacheMiddleware.set cacheKey (FileList fileList)) ;;
           ret (Success (FileList fileList))
       end)
      (ret (Failure "Failed to get files in folder"))).



Definition downloadFile (userId fileId : Z) : M world download :=
  Connection.with_connection (
    try_catch
      (files <- Connection.select
         (λ d, Sql.select_files (λ f, file_id f = fileId ∧ file_user_id f = userId) d) ;;
       match files with
       | [] => ret (NotDownloaded "File not found")
       | file :: _ =>
           fileData <- lift (fileStorage.getFile (file_path file)) ;;
           ret (Downloaded fileData (file_name file) (mime_type file) (size file))
       end)
      (ret (NotDownloaded "Failed to download file"))).

(** [searchFiles]; [like name pattern] is the [LIKE] of the metadata store
    under the collation of the [name] column, which the source leaves to
    the server. The rows are returned as in [getFilesInFolder]; the constant
    tag [type: 'file'] is left out. *)
Definition searchFiles (like : string → string → bool) (userId : Z)
    (searchTerm : string) : M world response :=
  Connection.with_connection (
    try_catch
      (files <- Connection.select
         (λ d, Sql.order_files_by_name
            (Sql.select_files
               (λ f, file_user_id f = userId ∧
                     like (file_name f) ("%" +:+ searchTerm +:+ "%") = true) d)) ;;
       ret (Success (FileList (file_item_of <$> files))))
      (ret (Failure "Failed to search files"))).

End fileController.

(** ** src/controllers/folderController.ts *)

Module folderController.

(** The cache keys every structural change drops. *)
Definition clear_parent_caches (parent : option Z) : M session unit :=
  if truthy parent then
    lift (cacheMiddleware.delete ("folder:" +:+ show (number parent) +:+ ":subfolders")) ;;
    lift (cacheMiddleware.delete ("folder:" +:+ show (number parent) +:+ ":contents")) ;;
    ret tt
  else ret tt.

Definition clear_user_caches (userId : Z) : M session unit :=
  lift (cacheMiddleware.delete ("user:" +:+ show userId +:+ ":folders")) ;;
  lift (cacheMiddleware.deleteByPattern ("user:" +:+ show userId +:+ ":folder_tree")) ;;
  ret tt.

Definition createFolder (userId : Z) (name : string) (parentFolderId : option Z)
    : M world response :=
  Connection.with_connection (
    try_catch
      (Connection.beginTransaction ;;
       parentFolders <-
         (if truthy parentFolderId then
            Connection.select (λ d, Sql.select_folders
              (λ r, Some (folder_id r) = parentFolderId ∧ folder_user_id r = userId) d)
          else ret []) ;;
       if truthy parentFolderId && is_empty parentFolders
       then reject "Parent folder not found"
       else
         existingFolders <- Connection.select (λ d, Sql.select_folders
           (λ r, folder_user_id r = userId ∧ folder_name r = name ∧
                 eq_or_is_null parentFolderId (parent_folder_id r)) d) ;;
         if negb (is_empty existingFolders)
         then reject "Folder already exists"
         else
           folderId <- Connection.execute InsertFolder
             (Sql.insert_folder userId parentFolderId name) ;;
           clear_parent_caches parentFolderId ;;
           clear_user_caches userId ;;
           Connection.commit ;;
           folders <- Connection.select
             (λ d, Sql.select_folders (λ r, folder_id r = folderId) d) ;;
           match folders with
           | folder :: _ =>
               ret (Success (FolderInfo (folder_id folder)
                      (Some (folder_name folder, parent_folder_id folder))))
           | [] => ret (Success (FolderInfo folderId None))
           end)
      (Connection.rollback ;; ret (Failure "Failed to create folder"))).

(** The closure [getSubfolders] inside [deleteFolder]: the ids below
    [parentId], each followed by the ids below it. *)
Fixpoint deleteFolder_getSubfolders (fuel : nat) (parentId : Z) : M session (list Z) :=
  match fuel with
  | O => diverge
  | S fuel' =>
      subfolders <- Connection.select (λ d,
        folder_id <$> Sql.select_folders (λ r, parent_folder_id r = Some parentId) d) ;;
      fold_each subfolders [] (λ folderIds subfolder,
        childIds <- deleteFolder_getSubfolders fuel' subfolder ;;
        ret ((folderIds ++ [subfolder]) ++ childIds)%list)
  end.

Definition deleteFolder (fuel : nat) (userId folderId : Z) : M world response :=
  Connection.with_connection (
    try_catch
      (Connection.beginTransaction ;;
       folders <- Connection.select (λ d, Sql.select_folders
         (λ r, folder_id r = folderId ∧ folder_user_id r = userId) d) ;;
       match folders with
       | [] => reject "Folder not found"
       | folder :: _ =>
           files <- Connection.select (λ d, Sql.select_files
             (λ f, file_folder_id f = Some folderId) d) ;;
           for_each files (λ file,
             lift (fileController.deleteFile userId (file_id file)) ;; ret tt) ;;
           subfolderIds <- deleteFolder_getSubfolders fuel folderId ;;
           (if (0 <? length subfolderIds)%nat
            then Connection.execute DeleteFolders (Sql.delete_folders subfolderIds)
            else ret tt) ;;
           Connection.execute DeleteFolders (Sql.delete_folders [folderId]) ;;
           lift (cacheMiddleware.delete ("folder:" +:+ show folderId)) ;;
           lift (cacheMiddleware.delete ("folder:" +:+ show folderId +:+ ":contents")) ;;
           lift (cacheMiddleware.delete ("folder:" +:+ show folderId +:+ ":subfolders")) ;;
           clear_parent_caches (parent_folder_id folder) ;;
           clear_user_caches userId ;;
           Connection.commit ;;
           ret (Success NoPayload)
       end)
      (Connection.rollback ;; ret (Failure "Failed to delete folder"))).

Definition renameFolder (userId folderId : Z) (newName : string) : M world response :=
  Connection.with_connection (
    try_catch
      (Connection.beginTransaction ;;
       folders <- Connection.select (λ d, Sql.select_folders
         (λ r, folder_id r = folderId ∧ folder_user_id r = userId) d) ;;
       match folders with
       | [] => reject "Folder not found"
       | folder :: _ =>
           existingFolders <- Connection.select (λ d, Sql.select_folders
             (λ r, folder_user_id r = userId ∧ folder_name r = newName ∧
                   folder_id r ≠ folderId ∧
                   eq_or_is_null (parent_folder_id folder) (parent_folder_id r)) d) ;;
           if negb (is_empty existingFolders)
           then reject "A folder with this name already exists"
           else
             Connection.execute UpdateFolder (Sql.update_folder_name newName folderId) ;;
             lift (cacheMiddleware.delete ("folder:" +:+ show folderId)) ;;
             clear_parent_caches (parent_folder_id folder) ;;
             clear_user_caches userId ;;
             Connection.commit ;;
             ret (Success (FolderInfo folderId (Some (newName, parent_folder_id folder))))
       end)
      (Connection.rollback ;; ret (Failure "Failed to rename folder"))).


Definition getSubfolders (userId : Z) (folderId : option Z) : M world response :=
  Connection.with_connection (
    try_catch
      (let cacheKey :=
         if truthy folderId
         then "folder:" +:+ show (number folderId) +:+ ":subfolders"
         else "user:" +:+ show userId +:+ ":root:subfolders" in
       cachedSubfolders <- lift (cacheMiddleware.get cacheKey) ;;
       match cachedSubfolders with
       | Some cached => ret (Success cached)
       | None =>
           subfolders <- Connection.select
             (λ d, Sql.order_folders_by_name
                (Sql.select_folders (λ r, folder_user_id r = userId ∧
                              eq_or_is_null folderId (parent_folder_id r)) d)) ;;
           let subfolderList := folder_item_of <$> subfolders in
           lift (cacheMiddleware.set cacheKey (FolderList subfolderList)) ;;
           ret (Success (FolderList subfolderList))
       end)
      (ret (Failure "Failed to get subfolders"))).

(** The closure [isDescendant] inside [moveFolder]: a depth-first descent
    from [checkId] along parent-to-children edges, looking for [targetId]. *)
Fixpoint isDescendant (fuel : nat) (checkId targetId : Z) : M session bool :=
  match fuel with
  | O => diverge
  | S fuel' =>
      if decide (checkId = targetId) then ret true
      else
        childFolders <- Connection.select (λ d,
          folder_id <$> Sql.select_folders (λ r, parent_folder_id r = Some checkId) d) ;;
        find_first childFolders (λ child, isDescendant fuel' child targetId)
  end.

Definition moveFolder (fuel : nat) (userId folderId : Z) (newParentId : option Z)
    : M world response :=
  Connection.with_connection (
    try_catch
      (Connection.beginTransaction ;;
       folders <- Connection.select (λ d, Sql.select_folders
         (λ r, folder_id r = folderId ∧ folder_user_id r = userId) d) ;;
       match folders with
       | [] => reject "Folder not found"
       | folder :: _ =>
           let move :=
             Connection.execute UpdateFolder (Sql.update_folder_parent newParentId folderId) ;;
             lift (cacheMiddleware.delete ("folder:" +:+ show folderId)) ;;
             clear_parent_caches (parent_folder_id folder) ;;
             clear_parent_caches newParentId ;;
             clear_user_caches userId ;;
             Connection.commit ;;
             ret (Success (FolderInfo folderId (Some (folder_name folder, newParentId)))) in
           if decide (Some folderId = newParentId)
           then reject "Cannot move a folder to itself"
           else if truthy newParentId then
             newParentFolders <- Connection.select (λ d, Sql.select_folders
               (λ r, Some (folder_id r) = newParentId ∧ folder_user_id r = userId) d) ;;
             if is_empty newParentFolders
             then reject "New parent folder not found"
             else
               inside <- isDescendant fuel folderId (number newParentId) ;;
               if inside : bool
               then reject "Cannot move a folder to its own subfolder"
               else
                 existingFolders <- Connection.select (λ d, Sql.select_folders
                   (λ r, folder_user_id r = userId ∧ folder_name r = folder_name folder ∧
                         parent_folder_id r = newParentId) d) ;;
                 if negb (is_empty existingFolders)
                 then reject "A folder with this name already exists in the destination"
                 else move
           else
             existingFolders <- Connection.select (λ d, Sql.select_folders
               (λ r, folder_user_id r = userId ∧ folder_name r = folder_name folder ∧
                     parent_folder_id r = None) d) ;;
             if negb (is_empty existingFolders)
             then reject "A folder with this name already exists in the destination"
             else move
       end)
      (Connection.rollback ;; ret (Failure "Failed to move folder"))).



(** [searchFolders]; [like] as in [fileController.searchFiles]. The rows are
    returned as in [getSubfolders]; the constant tag [type: 'folder'] is
    left out. *)
Definition searchFolders (like : string → string → bool) (userId : Z)
    (searchTerm : string) : M world response :=
  Connection.with_connection (
    try_catch
      (folders <- Connection.select
         (λ d, Sql.order_folders_by_name
            (Sql.select_folders
               (λ r, folder_user_id r = userId ∧
                     like (folder_name r) ("%" +:+ searchTerm +:+ "%") = true) d)) ;;
       ret (Success (FolderList (folder_item_of <$> folders))))
      (ret (Failure "Failed to search folders"))).

End folderController.

(** ** src/types/fileTypes.ts and the upload validators of
       src/utils/fileValidator.ts *)

Definition ALLOWED_FILE_EXTENSIONS : list string :=
  ["txt"; "pdf"; "doc"; "docx"; "rtf";
   "xls"; "xlsx"; "csv";
   "ppt"; "pptx";
   "jpg"; "jpeg"; "png"; "gif"; "svg"; "bmp"; "webp";
   "zip"; "rar"; "7z";
   "md"; "json"; "xml"; "html"; "css"; "js"; "ts"].

Definition DISALLOWED_MIME_TYPES : list string := ["video/"; "audio/"].

Definition MAX_FILE_SIZE : Z := 100 * 1024 * 1024.

(** [file.name.split('.').pop()?.toLowerCase()] *)
Definition extension_of (name : string) : string :=
  Js.toLowerCase (default "" (last (Js.split "." name))).

(** The three checks [validateFile] and [validateFileUpload] share, in the
    order the source makes them. The [for] loop over
    [DISALLOWED_MIME_TYPES] returns the same answer at its first hit. *)
Definition validateFile (file : UploadedFile) : validation :=
  if MAX_FILE_SIZE <? upload_size file then
    {| isValid := false;
       error := Some ("File too large. Maximum size is " +:+
                      show (MAX_FILE_SIZE / (1024 * 1024)) +:+ "MB.") |}
  else
    let extension := extension_of (upload_name file) in
    if (String.eqb extension "" ||
        negb (bool_decide (extension ∈ ALLOWED_FILE_EXTENSIONS)))%bool then
      {| isValid := false;
         error := Some ("File type not allowed. Allowed extensions: " +:+
                        Js.join ", " ALLOWED_FILE_EXTENSIONS +:+ ".") |}
    else if existsb (Js.startsWith (upload_type file)) DISALLOWED_MIME_TYPES then
      {| isValid := false; error := Some "File content type not allowed." |}
    else {| isValid := true; error := None |}.

(** [validateFileUpload]; [None] is a missing file ([!file]). *)
Definition validateFileUpload (file : option UploadedFile) : validation :=
  match file with
  | None => {| isValid := false; error := Some "No file provided" |}
  | Some file =>
      if MAX_FILE_SIZE <? upload_size file then
        {| isValid := false;
           error := Some ("File too large. Maximum size is " +:+
                          show (MAX_FILE_SIZE / (1024 * 1024)) +:+ "MB.") |}
      else
        let extension := extension_of (upload_name file) in
        if (String.eqb extension "" ||
            negb (bool_decide (extension ∈ ALLOWED_FILE_EXTENSIONS)))%bool then
          {| isValid := false;
             error := Some ("File type not allowed. Allowed extensions: " +:+
                            Js.join ", " ALLOWED_FILE_EXTENSIONS +:+ ".") |}
        else if existsb (Js.startsWith (upload_type file)) DISALLOWED_MIME_TYPES then
          {| isValid := false; error := Some "File content type not allowed." |}
        else {| isValid := true; error := None |}
  end.

(** [result.error || 'Invalid file'] *)
Definition error_or (fallback : string) (error : option string) : string :=
  match error with
  | Some e => if String.eqb e "" then fallback else e
  | None => fallback
  end.

(** The loop of [validateFiles], with its two arrays. *)
Fixpoint validateFiles_from (files validFiles : list UploadedFile)
    (invalidFiles : list (UploadedFile * string))
    : list UploadedFile * list (UploadedFile * string) :=
  match files with
  | [] => (validFiles, invalidFiles)
  | file :: rest =>
      let result := validateFileUpload (Some file) in
      if isValid result
      then validateFiles_from rest (validFiles ++ [file]) invalidFiles
      else validateFiles_from rest validFiles
             (invalidFiles ++ [(file, error_or "Invalid file" (error result))])
  end.

Definition validateFiles (files : list UploadedFile)
    : list UploadedFile * list (UploadedFile * string) :=
  validateFiles_from files [] [].


(** ** Worlds to run the controllers in *)

(** The rows [initDatabase] leaves in an empty schema: the user [admin]
    and its folder [Root]. *)
Definition initDatabase : database :=
  mkDatabase [1] [mkFolder 1 1 None "Root"] [] 2 1.

(** The same schema with a second user. *)
Definition two_owners : database :=
  mkDatabase [1; 2] [mkFolder 1 1 None "Root"] [] 2 1.

(** A freshly started server: empty cache, empty disk, healthy store. *)
Definition boot (root : string) (d : database) : world :=
  mkWorld d ∅ (mkFs ∅ ∅ false) root None [].

Definition a_txt : UploadedFile :=
  mkUpload "a.txt" "text/plain" 10
    (replicate 10 Byte.x61).

Definition uuid1 : string := "0f8fad5b-d9cb-469f-a165-70867728950e".

(** The events a call adds to the history. *)
(** Owner 1 has [Docs] (id 2) with [Sub] (id 3) inside it, and [a.txt]
    (file id 1) in [Sub]. *)
Definition docs_sub_file : world :=
  let w1 := (folderController.createFolder 1 "Docs" None
               (boot "/srv/uploads" initDatabase)).2 in
  let w2 := (folderController.createFolder 1 "Sub" (Some 2) w1).2 in
  (fileController.uploadFile uuid1 1 a_txt (Some 3) w2).2.

(** The state before the failing deletion: user 1 has the folder [Docs]
    (id 2) holding [a.txt] (file id 1); the store is about to fail at the
    seventh statement it receives. *)
Definition docs_with_file_then_failure : world :=
  with_store_failure (Some 6%nat)
    (fileController.uploadFile uuid1 1 a_txt (Some 2)
       (folderController.createFolder 1 "Docs" None
          (boot "/srv/cmed/uploads" initDatabase)).2).2.

Definition effects {A} (m : M world A) (w : world) : list event :=
  drop (length (log w)) (log (m w).2).

(** * Specification vocabulary *)

(** ** The folder hierarchy *)

(** [below rows p x]: the folder [x] is reached from [p] by following
    parent-to-children edges; [p = None] is the root level. *)
Inductive below (rows : list folder_row) : option Z → Z → Prop :=
  | below_child p r :
      r ∈ rows → parent_folder_id r = p → below rows p (folder_id r)
  | below_step p r x :
      r ∈ rows → parent_folder_id r = p →
      below rows (Some (folder_id r)) x → below rows p x.

(** [x] is a descendant of the folder [a]. *)
Definition descendant (rows : list folder_row) (a x : Z) : Prop :=
  below rows (Some a) x.

(** [x] is [a] or one of its descendants. *)
Definition in_subtree (rows : list folder_row) (a x : Z) : Prop :=
  x = a ∨ descendant rows a x.


(** The folders met on the way down to [a], [a] included: distinct rows,
    each of them [a] or an ancestor of [a]. *)
Definition trail (rows : list folder_row) (a : Z) (path : list Z) : Prop :=
  NoDup path ∧ a ∈ path ∧
  ∀ y, y ∈ path → y ∈ folder_id <$> rows ∧ in_subtree rows y a.

(** No folder is its own ancestor. *)
Definition acyclic (rows : list folder_row) : Prop :=
  ∀ x, ¬ descendant rows x x.

(** Every parent pointer is NULL or the key of a row. *)
Definition closed (rows : list folder_row) : Prop :=
  ∀ r p, r ∈ rows → parent_folder_id r = Some p → p ∈ folder_id <$> rows.

(** Rows left dangling by a deletion level are scheduled for the next one. *)
Definition pending_only (ids : list Z) (d : database) : Prop :=
  ∀ r p, r ∈ folders d → parent_folder_id r = Some p →
    p ∈ Sql.folder_ids d ∨ folder_id r ∈ ids.

(** The folder table is a forest: keys are unique, positive and below the
    counter; parents exist and belong to the owner of the child; there is
    no cycle. *)
Record forest (d : database) : Prop := mkForest {
  forest_keys : NoDup (folder_id <$> folders d);
  forest_counter : 0 < folders_auto_increment d;
  forest_ids : ∀ r, r ∈ folders d → 0 < folder_id r < folders_auto_increment d;
  forest_closed : closed (folders d);
  forest_owner : ∀ r rp, r ∈ folders d → rp ∈ folders d →
    parent_folder_id r = Some (folder_id rp) → folder_user_id r = folder_user_id rp;
  forest_acyclic : acyclic (folders d)
}.


(** The calls that change the folder table. *)
Inductive folder_call :=
  | CreateFolder (userId : Z) (name : string) (parentFolderId : option Z)
  | RenameFolder (userId folderId : Z) (newName : string)
  | MoveFolder (fuel : nat) (userId folderId : Z) (newParentId : option Z)
  | DeleteFolder (fuel : nat) (userId folderId : Z).

Definition perform (call : folder_call) : M world response :=
  match call with
  | CreateFolder userId name parentFolderId =>
      folderController.createFolder userId name parentFolderId
  | RenameFolder userId folderId newName =>
      folderController.renameFolder userId folderId newName
  | MoveFolder fuel userId folderId newParentId =>
      folderController.moveFolder fuel userId folderId newParentId
  | DeleteFolder fuel userId folderId =>
      folderController.deleteFolder fuel userId folderId
  end.

(** The world after a sequence of calls, whatever each of them answered. *)
Fixpoint after_calls (calls : list folder_call) (w : world) : world :=
  match calls with
  | [] => w
  | call :: rest => after_calls rest (perform call w).2
  end.

(** Owner 1 has [Root] (id 1) and [B] (id 2) without parent, and [A]
    (id 3) and [C] (id 4) inside [B]. *)
Definition b_with_a_and_c : world :=
  after_calls [CreateFolder 1 "B" None; CreateFolder 1 "A" (Some 2);
               CreateFolder 1 "C" (Some 2)]
    (boot "/srv/uploads" initDatabase).

(** The error kind [InvalidOperation] of a move: the two messages
    [moveFolder] gives for a move onto the folder itself or into its own
    subtree. *)
Definition InvalidOperation (error : string) : Prop :=
  error = "Cannot move a folder to itself" ∨
  error = "Cannot move a folder to its own subfolder".

(** ** The sidebar tree *)





(** ** Histories *)

(** The six mutating operations of the two controllers. *)
Inductive mutation :=
  | OnFolder (call : folder_call)
  | Upload (uuid : string) (userId : Z) (file : UploadedFile) (folderId : option Z)
  | FileDeletion (userId fileId : Z).

Definition mutate (m : mutation) : M world response :=
  match m with
  | OnFolder call => perform call
  | Upload uuid userId file folderId =>
      fileController.uploadFile uuid userId file folderId
  | FileDeletion userId fileId => fileController.deleteFile userId fileId
  end.

Definition is_invalidation (e : event) : Prop :=
  match e with
  | CacheDelete _ | CacheDeleteByPattern _ => True
  | _ => False
  end.

#[global] Instance is_invalidation_dec e : Decision (is_invalidation e).
Proof. destruct e; simpl; apply _. Defined.

(** Every invalidation in the history comes after a commit. *)
Definition invalidates_after_commit (history : list event) : Prop :=
  ∀ before e later, history = (before ++ e :: later)%list →
    is_invalidation e → Commit ∈ before.

(** [later] is [earlier] followed by further events, one of them an
    invalidation. *)
Definition invalidated_since (earlier later : list event) : Prop :=
  ∃ evs, later = (earlier ++ evs)%list ∧ Exists is_invalidation evs.

(** The history ends with a commit, and invalidations precede it. *)
Definition invalidates_before_commit (history : list event) : Prop :=
  ∃ before, history = (before ++ [Commit])%list ∧ Exists is_invalidation before.

(** ** Blobs *)

(** The place [saveFile] writes to: [filePath] in its body. *)
Definition blob_path (root : string) (userId : Z) (fileId originalFilename : string)
    : string :=
  Path.join [Path.join [Path.join [root; "user_" +:+ show userId];
                        Js.substring 0 3 fileId; Js.substring 3 6 fileId];
             fileId +:+ Path.extname originalFilename].

(** ** Reasoning about computations *)

(** [wp m Q s]: running [m] from [s] ends in an outcome and a state that
    satisfy [Q]. *)
Definition wp {S A} (m : M S A) (Q : outcome A → S → Prop) (s : S) : Prop :=
  Q (m s).1 (m s).2.

(** [m] only sends [SELECT]s: it leaves the session as it is, up to the
    failure countdown of the store, and what it returns satisfies [P] on the
    rows the connection sees. *)
Definition reads {A} (m : M session A) (P : database → A → Prop) : Prop :=
  ∀ c w, ∃ f r,
    m (c, w) = (r, (c, with_store_failure f w)) ∧
    ∀ a, r = Ok a → P (Connection.view (c, w)) a.

(** [w'] differs from [w] by disk content and disk events only. *)
Record disk_changed (w w' : world) : Prop := mkDiskChanged {
  dc_store : store w' = store w;
  dc_cache : cache w' = cache w;
  dc_root : UPLOAD_DIR w' = UPLOAD_DIR w;
  dc_failure : store_failure w' = store_failure w;
  dc_log : ∃ evs, log w' = (log w ++ evs)%list ∧
                  Forall (λ e, ¬ is_invalidation e ∧ e ≠ Commit) evs
}.

(** [m] changes the world by disk content and disk events only. *)
Definition touches_disk {A} (m : M world A) : Prop :=
  ∀ w, disk_changed w (m w).2.

(** What a call to [fileController.deleteFile] may have changed. *)
Record files_deleted (w w' : world) : Prop := mkFilesDeleted {
  fd_users : users (store w') = users (store w);
  fd_folders : folders (store w') = folders (store w);
  fd_counter : folders_auto_increment (store w') = folders_auto_increment (store w);
  fd_files : files (store w') ⊆ files (store w);
  fd_log : ∃ evs, log w' = (log w ++ evs)%list
}.


(** * Vocabulary of the further properties *)

(** ** Names *)

(** The character [c] occurs in [s]. *)
Definition occurs (c : ascii) (s : string) : Prop := c ∈ list_ascii_of_string s.

(** [name] is [ext], or ends with a dot followed by [ext]. *)
Definition ends_with_extension (name ext : string) : Prop :=
  name = ext ∨ ∃ stem, name = stem +:+ "." +:+ ext.

(** The nine characters of [invalidChars]. *)
Definition forbidden_chars : list ascii :=
  ["/"; "\"; ":"; "*"; "?"; ascii_of_nat 34; "<"; ">"; "|"]%char.

(** ** Listings and their cache keys *)

(** The key under which [getFilesInFolder] caches its answer. *)
Definition files_key (userId : Z) (folderId : option Z) : string :=
  if truthy folderId
  then "folder:" +:+ show (number folderId) +:+ ":files"
  else "user:" +:+ show userId +:+ ":root:files".

(** The key under which [getSubfolders] caches its answer. *)
Definition subfolders_key (userId : Z) (folderId : option Z) : string :=
  if truthy folderId
  then "folder:" +:+ show (number folderId) +:+ ":subfolders"
  else "user:" +:+ show userId +:+ ":root:subfolders".

(** The keys of the file listings and of the root-level folder listings. *)
Definition listing_key (key : string) : Prop :=
  (∃ n, key = "folder:" +:+ show n +:+ ":files") ∨
  (∃ u, key = "user:" +:+ show u +:+ ":root:files") ∨
  (∃ u, key = "user:" +:+ show u +:+ ":root:subfolders").

(** Owner 1 has listed the files of the empty folder [Docs] (id 2). *)
Definition docs_listed : world :=
  (fileController.getFilesInFolder 1 (Some 2)
     (folderController.createFolder 1 "Docs" None
        (boot "/srv/uploads" initDatabase)).2).2.

(** Owner 1 has listed the folders of the root level: [Root] alone. *)
Definition root_listed : world :=
  (folderController.getSubfolders 1 None (boot "/srv/uploads" initDatabase)).2.

(** ** Invariants of the metadata *)

(** No two folders of one owner under the same parent (or both under no
    parent) have the same name. *)
Definition names_unique (d : database) : Prop :=
  ∀ r1 r2, r1 ∈ folders d → r2 ∈ folders d →
    folder_user_id r1 = folder_user_id r2 →
    parent_folder_id r1 = parent_folder_id r2 →
    folder_name r1 = folder_name r2 →
    r1 = r2.

(** The user on whose behalf a call runs. *)
Definition caller (call : folder_call) : Z :=
  match call with
  | CreateFolder userId _ _ => userId
  | RenameFolder userId _ _ => userId
  | MoveFolder _ userId _ _ => userId
  | DeleteFolder _ userId _ => userId
  end.

(** The folder rows of owners other than [uid]: [d'] has them exactly as
    [d] has. *)
Definition others_kept (uid : Z) (d d' : database) : Prop :=
  ∀ r, folder_user_id r ≠ uid → r ∈ folders d' ↔ r ∈ folders d.

(** The folder table [rows] a call leaves behind when it answers with
    success, against the table [d] it found. *)
Definition edited (call : folder_call) (d : database) (rows : list folder_row) : Prop :=
  match call with
  | CreateFolder userId name parentFolderId =>
      rows = (folders d ++
              [mkFolder (folders_auto_increment d) userId parentFolderId name])%list
  | RenameFolder _ folderId newName =>
      rows = Sql.rename_row folderId newName <$> folders d
  | MoveFolder _ _ folderId newParentId =>
      rows = Sql.reparent_row folderId newParentId <$> folders d
  | DeleteFolder _ _ _ => rows `sublist_of` folders d
  end.

(** What a call did to the folder table, by its answer. [createFolder]
    runs its last query after the commit, so that it may have appended the
    row and still not answer with success. *)
Definition table_by_answer (call : folder_call) (w : world)
    (r : outcome response) (w' : world) : Prop :=
  match r, call with
  | Ok (Success _), _ => edited call (store w) (folders (store w'))
  | _, CreateFolder _ _ _ =>
      folders (store w') = folders (store w) ∨
      edited call (store w) (folders (store w'))
  | _, _ => folders (store w') = folders (store w)
  end.
(** * Proofs *)

(** ** The folder hierarchy *)

Section Hierarchy.

Variable rows : list folder_row.


Lemma below_has_child p x :
  below rows p x → ∃ r, r ∈ rows ∧ parent_folder_id r = p.
Proof. inversion 1; eauto. Qed.

Lemma below_trans p a x :
  below rows p a → below rows (Some a) x → below rows p x.
Proof.
  induction 1 as [p r Hr Hp | p r y Hr Hp _ IH]; intros Hx;
    eapply below_step; eauto.
Qed.

Lemma below_snoc p y r :
  below rows p y → r ∈ rows → parent_folder_id r = Some y →
  below rows p (folder_id r).
Proof. intros Hy Hr Hp. eapply below_trans; [exact Hy|]. by apply below_child. Qed.




Lemma in_subtree_trans a b x :
  in_subtree rows a b → in_subtree rows b x → in_subtree rows a x.
Proof.
  intros [->|Hab] [->|Hbx]; [by left|by right|by right|].
  right. eapply below_trans; eauto.
Qed.

Lemma in_subtree_child a r :
  r ∈ rows → parent_folder_id r = Some a → in_subtree rows a (folder_id r).
Proof. intros. right. by apply below_child. Qed.

(** A descendant of [a] is a child of [a] or lies in the subtree of one. *)
Lemma descendant_first_step a x :
  descendant rows a x →
  ∃ r, r ∈ rows ∧ parent_folder_id r = Some a ∧ in_subtree rows (folder_id r) x.
Proof.
  unfold descendant. inversion 1; subst; eexists; split_and!; eauto.
  - by left.
  - by right.
Qed.

Hypothesis keys : NoDup (folder_id <$> rows).

Lemma row_of_key r1 r2 :
  r1 ∈ rows → r2 ∈ rows → folder_id r1 = folder_id r2 → r1 = r2.
Proof.
  clear -keys. induction rows as [|r l IH]; [by intros ?%elem_of_nil|].
  rewrite fmap_cons in keys. apply NoDup_cons in keys as [Hr Hl].
  intros [->|H1]%elem_of_cons [->|H2]%elem_of_cons E; auto.
  - exfalso. apply Hr. rewrite E. apply list_elem_of_fmap. eauto.
  - exfalso. apply Hr. rewrite <- E. apply list_elem_of_fmap. eauto.
Qed.



Hypothesis no_cycle : acyclic rows.


(** Going down never meets a folder twice, so a trail is no longer than
    the table. *)
Lemma trail_length a path : trail rows a path → (length path ≤ length rows)%nat.
Proof.
  intros (Hnd & _ & Hin).
  rewrite <- (length_fmap folder_id rows).
  apply submseteq_length, NoDup_submseteq; [done|]. intros y Hy. by apply Hin.
Qed.

Lemma trail_start a : a ∈ folder_id <$> rows → trail rows a [a].
Proof.
  intros Ha. split_and!.
  - apply NoDup_singleton.
  - apply list_elem_of_singleton. done.
  - intros y ->%list_elem_of_singleton. split; [done|by left].
Qed.

Lemma trail_extend a path r :
  trail rows a path → r ∈ rows → parent_folder_id r = Some a →
  trail rows (folder_id r) (folder_id r :: path).
Proof.
  intros (Hnd & Ha & Hin) Hr Hp. split_and!.
  - apply NoDup_cons. split; [|done]. intros Hy.
    destruct (Hin _ Hy) as [_ Hsub].
    apply (no_cycle (folder_id r)).
    destruct Hsub as [E|Hd].
    + rewrite <- E at 1. by apply below_child.
    + eapply below_snoc; eauto.
  - apply elem_of_cons. by left.
  - intros y [->|Hy]%elem_of_cons.
    + split; [|by left]. apply list_elem_of_fmap. eauto.
    + destruct (Hin _ Hy) as [? ?]. split; [done|].
      eapply in_subtree_trans; [done|]. by apply in_subtree_child.
Qed.



End Hierarchy.

Lemma below_mono rows rows' p x :
  rows ⊆ rows' → below rows p x → below rows' p x.
Proof.
  intros Hsub. induction 1 as [p r Hr Hp | p r x Hr Hp _ IH].
  - apply below_child; auto.
  - eapply below_step; eauto.
Qed.

(** ** Statements and the forest *)

Lemma forest_shrink d d' :
  forest d →
  folders d' `sublist_of` folders d →
  closed (folders d') →
  folders_auto_increment d' = folders_auto_increment d →
  forest d'.
Proof.
  intros [Hk Hn0 Hi Hc Ho Ha] Hsub Hcl Hn.
  assert (folders d' ⊆ folders d) as Hin by by apply sublist_subseteq.
  split.
  - eapply sublist_NoDup; [exact Hk|by apply fmap_sublist].
  - by rewrite Hn.
  - intros r Hr. rewrite Hn. auto.
  - done.
  - intros r rp Hr Hrp. auto.
  - intros x Hx. apply (Ha x). eapply below_mono; eauto.
Qed.

Lemma delete_level_sublist ids d :
  folders (Sql.delete_level ids d) `sublist_of` folders d.
Proof. apply sublist_filter. Qed.

Lemma cascade_sublist n ids d :
  folders (Sql.cascade n ids d) `sublist_of` folders d.
Proof.
  revert ids d. induction n as [|n IH]; intros ids d; simpl; [done|].
  destruct ids as [|i ids]; [done|].
  etrans; [apply IH|]. apply delete_level_sublist.
Qed.

Lemma cascade_files n ids d : files (Sql.cascade n ids d) ⊆ files d.
Proof.
  revert ids d. induction n as [|n IH]; intros ids d; simpl; [done|].
  destruct ids as [|i ids]; [done|].
  etrans; [apply IH|]. intros f Hf. simpl in Hf.
  by apply list_elem_of_filter in Hf as [_ ?].
Qed.

Lemma cascade_counter n ids d :
  folders_auto_increment (Sql.cascade n ids d) = folders_auto_increment d ∧
  users (Sql.cascade n ids d) = users d.
Proof.
  revert ids d. induction n as [|n IH]; intros ids d; [done|].
  destruct ids as [|i ids]; [done|].
  change (Sql.cascade (S n) (i :: ids) d) with
    (Sql.cascade n
       (folder_id <$> filter (λ r, Sql.references (i :: ids) (parent_folder_id r))
          (folders (Sql.delete_level (i :: ids) d)))
       (Sql.delete_level (i :: ids) d)).
  destruct (IH (folder_id <$> filter
                  (λ r, Sql.references (i :: ids) (parent_folder_id r))
                  (folders (Sql.delete_level (i :: ids) d)))
               (Sql.delete_level (i :: ids) d)) as [-> ->]. done.
Qed.

Lemma cascade_level n i ids d :
  Sql.cascade (S n) (i :: ids) d =
  Sql.cascade n
    (folder_id <$> filter (λ r, Sql.references (i :: ids) (parent_folder_id r))
       (folders (Sql.delete_level (i :: ids) d)))
    (Sql.delete_level (i :: ids) d).
Proof. reflexivity. Qed.

(** After a cascading deletion of [ids] nothing refers to them any more. *)
Lemma cascade_unreferenced n ids d :
  let d' := Sql.cascade (S (S n)) ids d in
  (∀ r, r ∈ folders d' →
     (folder_id r ∉ ids) ∧ ¬ Sql.references ids (parent_folder_id r)) ∧
  (∀ f, f ∈ files d' → ¬ Sql.references ids (file_folder_id f)).
Proof.
  destruct ids as [|i ids].
  { simpl. split; [intros r _; split|intros f _].
    - apply not_elem_of_nil.
    - destruct (parent_folder_id r); simpl; [apply not_elem_of_nil|tauto].
    - destruct (file_folder_id f); simpl; [apply not_elem_of_nil|tauto]. }
  intros d'. subst d'. rewrite cascade_level.
  set (d1 := Sql.delete_level (i :: ids) d).
  split.
  - intros r Hr.
    assert (r ∈ folders d1) as Hr1.
    { eapply elem_of_sublist; [exact Hr|apply cascade_sublist]. }
    split.
    + apply list_elem_of_filter in Hr1. tauto.
    + intros Href.
      assert (folder_id r ∈ folder_id <$>
                filter (λ r, Sql.references (i :: ids) (parent_folder_id r)) (folders d1))
        as Hch.
      { apply list_elem_of_fmap_2, list_elem_of_filter. done. }
      destruct (folder_id <$> filter _ (folders d1)) as [|c cs] eqn:E;
        [by apply elem_of_nil in Hch|].
      rewrite cascade_level in Hr.
      eapply elem_of_sublist in Hr; [|apply cascade_sublist].
      apply list_elem_of_filter in Hr. tauto.
  - intros f Hf. apply cascade_files in Hf.
    apply list_elem_of_filter in Hf. tauto.
Qed.

Lemma delete_level_pending ids d :
  pending_only ids d →
  pending_only
    (folder_id <$> filter (λ r, Sql.references ids (parent_folder_id r))
       (folders (Sql.delete_level ids d)))
    (Sql.delete_level ids d).
Proof.
  intros Hpend r p Hr Hp.
  destruct (decide (p ∈ ids)) as [Hin|Hout].
  - right. apply list_elem_of_fmap_2, list_elem_of_filter. split; [|done].
    rewrite Hp. done.
  - left. pose proof Hr as [Hid Hr0]%list_elem_of_filter.
    destruct (Hpend r p Hr0 Hp) as [(rp & -> & Hrp)%list_elem_of_fmap|?]; [|done].
    apply list_elem_of_fmap_2, list_elem_of_filter. done.
Qed.

Lemma cascade_closed_within n ids d :
  pending_only ids d →
  (length (folders d) < n)%nat →
  ids ⊆ Sql.folder_ids d →
  closed (folders (Sql.cascade n ids d)).
Proof.
  revert ids d. induction n as [|n IH]; intros ids d Hpend Hlen Hsub; [lia|].
  destruct ids as [|i ids].
  { simpl. intros r p Hr Hp. destruct (Hpend r p Hr Hp) as [?|H]; [done|].
    by apply elem_of_nil in H. }
  rewrite cascade_level. apply IH.
  - by apply delete_level_pending.
  - assert (i ∈ Sql.folder_ids d) as (ri & Hi & Hri)%list_elem_of_fmap
      by (apply Hsub, elem_of_cons; by left).
    assert (length (folders (Sql.delete_level (i :: ids) d)) < length (folders d))%nat;
      [|lia].
    apply (length_filter_lt _ _ ri); [done|].
    intros Hn. apply Hn. rewrite <- Hi. apply elem_of_cons. by left.
  - intros x (r & -> & Hr)%list_elem_of_fmap.
    apply list_elem_of_filter in Hr as [_ Hr]. by apply list_elem_of_fmap_2.
Qed.

Lemma delete_folders_eq ids d (u : unit) d' :
  Sql.delete_folders ids d = Some (u, d') →
  d' = Sql.cascade (S (S (length (folders d)))) ids d.
Proof. unfold Sql.delete_folders. congruence. Qed.

Lemma delete_folders_closed ids d (u : unit) d' :
  closed (folders d) → Sql.delete_folders ids d = Some (u, d') → closed (folders d').
Proof.
  intros Hc ->%delete_folders_eq. destruct ids as [|i ids]; [done|].
  rewrite cascade_level. apply cascade_closed_within.
  - apply delete_level_pending. intros r p Hr Hp. left. by apply (Hc r).
  - pose proof (length_filter (λ r, folder_id r ∉ i :: ids) (folders d)).
    simpl. lia.
  - intros x (r & -> & Hr)%list_elem_of_fmap.
    apply list_elem_of_filter in Hr as [_ Hr]. by apply list_elem_of_fmap_2.
Qed.

Lemma delete_folders_forest ids d (u : unit) d' :
  forest d → Sql.delete_folders ids d = Some (u, d') → forest d'.
Proof.
  intros Hf Hd. eapply forest_shrink; [done| | |].
  - apply delete_folders_eq in Hd as ->. apply cascade_sublist.
  - eapply delete_folders_closed; [apply Hf|done].
  - apply delete_folders_eq in Hd as ->. apply cascade_counter.
Qed.

Lemma delete_file_folders id d (u : unit) d' :
  Sql.delete_file id d = Some (u, d') →
  users d' = users d ∧ folders d' = folders d ∧
  folders_auto_increment d' = folders_auto_increment d ∧ files d' ⊆ files d.
Proof.
  unfold Sql.delete_file. intros [= _ <-]. simpl. split_and!; try done.
  intros f Hf. by apply list_elem_of_filter in Hf as [_ ?].
Qed.

(** A new folder is a leaf: nothing hangs below it yet. *)
Lemma below_new_leaf rows new p x :
  (∀ r, r ∈ rows → parent_folder_id r ≠ Some (folder_id new)) →
  parent_folder_id new ≠ Some (folder_id new) →
  below (rows ++ [new]) p x → below rows p x ∨ x = folder_id new.
Proof.
  intros Hleaf Hself. induction 1 as [p r Hr Hp | p r x Hr Hp Hx IH].
  - apply elem_of_app in Hr as [Hr| ->%list_elem_of_singleton]; [|by right].
    left. by apply below_child.
  - apply elem_of_app in Hr as [Hr| ->%list_elem_of_singleton].
    + destruct IH as [IH| ->]; [|by right]. left. eapply below_step; eauto.
    + exfalso. apply below_has_child in Hx as (r' & Hr' & Hp').
      apply elem_of_app in Hr' as [Hr'| ->%list_elem_of_singleton];
        [by apply (Hleaf r')|done].
Qed.

Lemma insert_folder_forest uid parent name d id d' :
  forest d →
  Sql.insert_folder uid parent name d = Some (id, d') →
  (∀ p, parent = Some p →
     ∃ row, row ∈ folders d ∧ folder_id row = p ∧ folder_user_id row = uid) →
  forest d'.
Proof.
  intros [Hk Hn Hi Hc Ho Ha] Hins Hparent. unfold Sql.insert_folder in Hins.
  case_decide as Hok; [|done]. destruct Hok as (_ & Hfk & _).
  injection Hins as <- <-.
  set (new := mkFolder (folders_auto_increment d) uid parent name).
  assert (∀ r, r ∈ folders d → parent_folder_id r ≠ Some (folder_id new)) as Hleaf.
  { intros r Hr Hp. apply Hc in Hp as (rp & E & Hrp)%list_elem_of_fmap; [|done].
    apply Hi in Hrp. simpl in E. lia. }
  assert (parent_folder_id new ≠ Some (folder_id new)) as Hself.
  { simpl. intros ->. simpl in Hfk.
    apply list_elem_of_fmap in Hfk as (rp & E & Hrp). apply Hi in Hrp. lia. }
  split; simpl.
  - rewrite fmap_app. apply NoDup_app. split_and!; [done| |apply NoDup_singleton].
    intros x Hx Hx'. apply list_elem_of_singleton in Hx'.
    apply list_elem_of_fmap in Hx as (r & E & Hr). apply Hi in Hr. simpl in *. lia.
  - lia.
  - intros r [Hr|Hr]%elem_of_app.
    + apply Hi in Hr. lia.
    + apply list_elem_of_singleton in Hr as ->. simpl. lia.
  - intros r p [Hr|Hr]%elem_of_app Hp; rewrite fmap_app; apply elem_of_app; left.
    + by apply (Hc r).
    + apply list_elem_of_singleton in Hr as ->. simpl in Hp. subst parent. exact Hfk.
  - intros r rp [Hr|Hr]%elem_of_app [Hrp|Hrp]%elem_of_app Hp;
      try apply list_elem_of_singleton in Hr as ->;
      try apply list_elem_of_singleton in Hrp as ->.
    + by apply Ho.
    + exfalso. by apply (Hleaf r).
    + simpl in *. destruct (Hparent _ Hp) as (row & Hrow & E & <-).
      f_equal. by apply (row_of_key (folders d)).
    + done.
  - intros x Hx. destruct (below_new_leaf _ _ _ _ Hleaf Hself Hx) as [Hx'| ->].
    + by apply (Ha x).
    + apply below_has_child in Hx as (r' & Hr' & Hp').
      apply elem_of_app in Hr' as [Hr'| ->%list_elem_of_singleton];
        [by apply (Hleaf r')|done].
Qed.

(** Updates keep keys and owners; a rename keeps parents too. *)
Lemma rename_row_same id name r :
  folder_id (Sql.rename_row id name r) = folder_id r ∧
  folder_user_id (Sql.rename_row id name r) = folder_user_id r ∧
  parent_folder_id (Sql.rename_row id name r) = parent_folder_id r.
Proof. unfold Sql.rename_row. by case_decide. Qed.

Lemma reparent_row_same id parent r :
  folder_id (Sql.reparent_row id parent r) = folder_id r ∧
  folder_user_id (Sql.reparent_row id parent r) = folder_user_id r ∧
  parent_folder_id (Sql.reparent_row id parent r) =
    (if decide (folder_id r = id) then parent else parent_folder_id r).
Proof. unfold Sql.reparent_row. by case_decide. Qed.

Lemma updated_keys (g : folder_row → folder_row) (rows : list folder_row) :
  (∀ r, folder_id (g r) = folder_id r) →
  folder_id <$> (g <$> rows) = folder_id <$> rows.
Proof.
  intros Hg. induction rows as [|r l IH]; [done|].
  rewrite !fmap_cons, IH, Hg. done.
Qed.

Lemma below_renamed (g : folder_row → folder_row) (rows : list folder_row) p x :
  (∀ r, folder_id (g r) = folder_id r ∧ parent_folder_id (g r) = parent_folder_id r) →
  below (g <$> rows) p x → below rows p x.
Proof.
  intros Hg. induction 1 as [p r' Hr Hp | p r' x Hr Hp _ IH];
    apply list_elem_of_fmap in Hr as (r & -> & Hr); destruct (Hg r) as [Ei Ep].
  - rewrite Ei. apply below_child; [done|congruence].
  - rewrite Ei in IH. eapply below_step; [done| |exact IH]. congruence.
Qed.

Lemma update_folder_name_forest name id d (u : unit) d' :
  forest d → Sql.update_folder_name name id d = Some (u, d') → forest d'.
Proof.
  intros [Hk Hn Hi Hc Ho Ha] Hupd. unfold Sql.update_folder_name in Hupd.
  case_decide; [done|]. injection Hupd as _ <-.
  pose proof (rename_row_same id name) as Hg.
  split; simpl.
  - rewrite updated_keys; [done|]. intros r. apply Hg.
  - done.
  - intros r' (r & -> & Hr)%list_elem_of_fmap. rewrite (proj1 (Hg r)). auto.
  - intros r' p (r & -> & Hr)%list_elem_of_fmap Hp.
    rewrite updated_keys by (intros r0; apply Hg).
    apply (Hc r); [done|]. by rewrite <- (proj2 (proj2 (Hg r))).
  - intros r' rp' (r & -> & Hr)%list_elem_of_fmap (rp & -> & Hrp)%list_elem_of_fmap Hp.
    destruct (Hg r) as (_ & -> & Ep), (Hg rp) as (Ei & -> & _).
    apply Ho; [done..|]. congruence.
  - intros x Hx. apply (Ha x). eapply below_renamed; [|exact Hx].
    intros r. destruct (Hg r) as (? & _ & ?). done.
Qed.

(** Paths after moving [id] under [parent]: old paths, or paths that pass
    through the moved folder. *)
Lemma below_reparented rows id parent p x :
  below (Sql.reparent_row id parent <$> rows) p x →
  below rows p x ∨
  ((p = parent ∨ ∃ a, parent = Some a ∧ below rows p a) ∧ in_subtree rows id x).
Proof.
  induction 1 as [p r' Hr Hp | p r' x Hr Hp _ IH];
    apply list_elem_of_fmap in Hr as (r & -> & Hr);
    destruct (reparent_row_same id parent r) as (Ei & _ & Ep);
    rewrite Ei in *; rewrite Ep in Hp; case_decide as Hid.
  - right. split; [by left|]. left. done.
  - left. by apply below_child.
  - right. split; [by left|]. rewrite <- Hid.
    destruct IH as [IH|[_ IH]]; [by right|]. by rewrite Hid.
  - destruct IH as [IH|[[E|(a & -> & Hb)] IH]].
    + left. eapply below_step; eauto.
    + right. split; [|done]. right. exists (folder_id r). split; [done|].
      by apply below_child.
    + right. split; [|done]. right. exists a. split; [done|].
      eapply below_step; eauto.
Qed.

Lemma update_folder_parent_forest parent id uid d (u : unit) d' :
  forest d →
  Sql.update_folder_parent parent id d = Some (u, d') →
  (∃ folder, folder ∈ folders d ∧ folder_id folder = id ∧ folder_user_id folder = uid) →
  (∀ p, parent = Some p →
     (∃ row, row ∈ folders d ∧ folder_id row = p ∧ folder_user_id row = uid) ∧
     ¬ in_subtree (folders d) id p) →
  forest d'.
Proof.
  intros [Hk Hn Hi Hc Ho Ha] Hupd (folder & Hfolder & Hfid & Hfu) Hparent.
  unfold Sql.update_folder_parent in Hupd.
  case_decide as Hok; [|done]. destruct Hok as [Hfk _]. injection Hupd as _ <-.
  pose proof (reparent_row_same id parent) as Hg.
  assert (Sql.fk_ok (Sql.folder_ids d) parent) as Hfk'.
  { apply Hfk. rewrite <- Hfid. by apply list_elem_of_fmap_2. }
  split; simpl.
  - rewrite updated_keys; [done|]. intros r. apply Hg.
  - done.
  - intros r' (r & -> & Hr)%list_elem_of_fmap. rewrite (proj1 (Hg r)). auto.
  - intros r' p (r & -> & Hr)%list_elem_of_fmap Hp.
    rewrite updated_keys by (intros r0; apply Hg).
    destruct (Hg r) as (_ & _ & Ep). rewrite Ep in Hp. case_decide.
    + subst parent. exact Hfk'.
    + by apply (Hc r).
  - intros r' rp' (r & -> & Hr)%list_elem_of_fmap (rp & -> & Hrp)%list_elem_of_fmap Hp.
    destruct (Hg r) as (_ & -> & Ep), (Hg rp) as (Ei & -> & _).
    rewrite Ep, Ei in Hp. case_decide as Hid.
    + destruct (Hparent _ Hp) as [(row & Hrow & Erow & Hu) _].
      assert (row = rp) as -> by by apply (row_of_key (folders d)).
      assert (folder = r) as -> by (apply (row_of_key (folders d)); auto; congruence).
      congruence.
    + by apply Ho.
  - intros x Hx. apply below_reparented in Hx as [Hx|[[E|(a & -> & Hb)] Hsub]].
    + by apply (Ha x).
    + destruct (Hparent x) as [_ Hno]; [done|]. by apply Hno.
    + destruct (Hparent a) as [_ Hno]; [done|]. apply Hno.
      eapply in_subtree_trans; [exact Hsub|]. by right.
Qed.

(** ** Rules for computations *)

Lemma wp_elim {S A} (m : M S A) Q s r s' : wp m Q s → m s = (r, s') → Q r s'.
Proof. unfold wp. intros H E. rewrite E in H. exact H. Qed.

Lemma wp_result {S A} (m : M S A) Q s : wp m Q s → ∃ r s', m s = (r, s') ∧ Q r s'.
Proof. unfold wp. destruct (m s) as [r s']. eauto. Qed.

Lemma wp_bind {S A B} (m : M S A) (k : A → M S B) Q s :
  wp m (λ r s', match r with
                | Ok a => wp (k a) Q s'
                | Thrown => Q Thrown s'
                | OutOfFuel => Q OutOfFuel s'
                end) s →
  wp (bind m k) Q s.
Proof. unfold wp, bind. destruct (m s) as [[a| |] s']; simpl; auto. Qed.

Lemma wp_try_catch {S A} (body handler : M S A) Q s :
  wp body (λ r s', match r with
                   | Thrown => wp handler Q s'
                   | _ => Q r s'
                   end) s →
  wp (try_catch body handler) Q s.
Proof. unfold wp, try_catch. destruct (body s) as [[a| |] s']; simpl; auto. Qed.

Lemma wp_ret {S A} (a : A) (Q : outcome A → S → Prop) s : Q (Ok a) s → wp (ret a) Q s.
Proof. auto. Qed.

Lemma wp_compute {S A} (m : M S A) Q s r s' : m s = (r, s') → Q r s' → wp m Q s.
Proof. unfold wp. intros ->. auto. Qed.

Lemma wp_with_connection {A} (body : M session A) Q w :
  wp body (λ r s, Q r s.2) (Idle, w) → wp (Connection.with_connection body) Q w.
Proof.
  unfold wp, Connection.with_connection. destruct (body (Idle, w)) as [r [c w']]. auto.
Qed.

Lemma wp_lift {A} (m : M world A) Q c w :
  wp m (λ r w', Q r (c, w')) w → wp (lift m) Q (c, w).
Proof. unfold wp, lift. destruct (m w) as [r w']. auto. Qed.

Lemma view_with_store_failure c f w :
  Connection.view (c, with_store_failure f w) = Connection.view (c, w).
Proof. by destruct c as [|[]]. Qed.

Lemma with_store_failure_same w : with_store_failure (store_failure w) w = w.
Proof. by destruct w. Qed.

Lemma wp_accept Q c w :
  (∀ f, Q (Ok tt) (c, with_store_failure f w) ∧ Q Thrown (c, with_store_failure f w)) →
  wp Connection.accept Q (c, w).
Proof.
  intros H. unfold wp, Connection.accept.
  destruct w as [d ca di u [[|n]|] l]; simpl; apply H || apply (H None).
Qed.

Lemma wp_select {A} (q : database → A) Q c w :
  (∀ f, Q (Ok (q (Connection.view (c, w)))) (c, with_store_failure f w) ∧
        Q Thrown (c, with_store_failure f w)) →
  wp (Connection.select q) Q (c, w).
Proof.
  intros H. unfold Connection.select. apply wp_bind, wp_accept. intros f.
  destruct (H f) as [H1 H2]. split; [|done].
  unfold wp, gets. cbn [fst snd]. by rewrite view_with_store_failure.
Qed.

Lemma wp_execute {A} kind (stmt : database → option (A * database)) Q c w :
  (∀ f, Q Thrown (c, with_store_failure f w) ∧
        ∀ a d', stmt (Connection.view (c, w)) = Some (a, d') →
          Q (Ok a) match c with
                   | Idle =>
                       (Idle, record (Executed kind) (with_store d' (with_store_failure f w)))
                   | InTransaction _ =>
                       (InTransaction (Some d'), record (Executed kind) (with_store_failure f w))
                   end) →
  wp (Connection.execute kind stmt) Q (c, w).
Proof.
  intros H. unfold Connection.execute. apply wp_bind, wp_accept. intros f.
  destruct (H f) as [H1 H2]. split; [|done].
  unfold wp. destruct c as [|[d0|]]; simpl in *;
    destruct (stmt _) as [[a d']|] eqn:E; simpl; eauto.
Qed.

Lemma wp_commit Q c w :
  (∀ f, Q Thrown (c, with_store_failure f w) ∧
        Q (Ok tt) (Idle, record Commit
                           (with_store (Connection.view (c, w)) (with_store_failure f w)))) →
  wp Connection.commit Q (c, w).
Proof.
  intros H. unfold Connection.commit. apply wp_bind, wp_accept. intros f.
  destruct (H f) as [H1 H2]. split; [|done].
  unfold wp. cbn [fst snd]. by rewrite view_with_store_failure.
Qed.

(** The same statements on a store that does not fail. *)
Lemma wp_select_healthy {A} (q : database → A) Q c w :
  store_failure w = None →
  Q (Ok (q (Connection.view (c, w)))) (c, w) →
  wp (Connection.select q) Q (c, w).
Proof.
  intros Hf H. unfold wp, Connection.select, Connection.accept, bind, gets.
  simpl. rewrite Hf. exact H.
Qed.

Lemma wp_for_each {S A} (I : S → Prop) (xs : list A) (body : A → M S unit) Q s :
  I s →
  (∀ x s, x ∈ xs → I s →
     wp (body x) (λ r s', match r with Ok _ => I s' | _ => Q r s' end) s) →
  (∀ s', I s' → Q (Ok tt) s') →
  wp (for_each xs body) Q s.
Proof.
  intros Hs Hbody Hdone. revert s Hs.
  induction xs as [|x xs IH]; intros s Hs; simpl.
  - by apply wp_ret, Hdone.
  - apply wp_bind. pose proof (Hbody x s (list_elem_of_here _ _) Hs) as Hx.
    unfold wp in *. destruct (body x s) as [[[]| |] s']; simpl in *; auto.
    apply IH; [|done]. intros y s0 Hy. apply Hbody. by apply list_elem_of_further.
Qed.

(** *** Computations that only read *)

Lemma reads_ret {A} (a : A) (P : database → A → Prop) :
  (∀ d, P d a) → reads (ret a) P.
Proof.
  intros H c w. exists (store_failure w), (Ok a).
  rewrite with_store_failure_same. split; [done|]. by intros ? [= <-].
Qed.

Lemma reads_diverge {A} (P : database → A → Prop) : reads diverge P.
Proof.
  intros c w. exists (store_failure w), OutOfFuel.
  rewrite with_store_failure_same. split; [done|]. by intros ? [=].
Qed.

Lemma reads_select {A} (q : database → A) : reads (Connection.select q) (λ d a, a = q d).
Proof.
  intros c w. unfold Connection.select, Connection.accept, bind, gets.
  destruct w as [d ca di u [[|n]|] l]; cbn [store_failure].
  - exists None, Thrown. split; [done|]. by intros ? [=].
  - exists (Some n), (Ok (q (Connection.view (c, mkWorld d ca di u (Some (S n)) l)))).
    split; [by destruct c as [|[]]|]. by intros ? [= <-].
  - exists None, (Ok (q (Connection.view (c, mkWorld d ca di u None l)))).
    split; [by destruct c as [|[]]|]. by intros ? [= <-].
Qed.

Lemma reads_bind {A B} (m : M session A) (k : A → M session B) P R T :
  reads m P → (∀ a, reads (k a) (R a)) →
  (∀ d a b, P d a → R a d b → T d b) →
  reads (bind m k) T.
Proof.
  intros Hm Hk HT c w. destruct (Hm c w) as (f & r & E & HP).
  unfold bind. rewrite E. destruct r as [a| |].
  - destruct (Hk a c (with_store_failure f w)) as (f' & r' & E' & HR).
    exists f', r'. split; [exact E'|].
    intros b ->. rewrite view_with_store_failure in HR. eauto.
  - exists f, Thrown. split; [done|]. by intros ? [=].
  - exists f, OutOfFuel. split; [done|]. by intros ? [=].
Qed.

Lemma reads_weaken {A} (m : M session A) (P T : database → A → Prop) :
  reads m P → (∀ d a, P d a → T d a) → reads m T.
Proof.
  intros Hm HT c w. destruct (Hm c w) as (f & r & E & HP). exists f, r. eauto.
Qed.

Lemma wp_reads {A} (m : M session A) P Q c w :
  reads m P →
  (∀ f r, (∀ a, r = Ok a → P (Connection.view (c, w)) a) →
          Q r (c, with_store_failure f w)) →
  wp m Q (c, w).
Proof.
  intros Hm H. destruct (Hm c w) as (f & r & E & HP).
  unfold wp. rewrite E. by apply H.
Qed.

Lemma reads_fold_each {A B} (xs : list A) (body : B → A → M session B)
    (I : database → list A → B → Prop) :
  (∀ acc x, reads (body acc x)
              (λ d acc', ∀ seen, I d seen acc → I d (seen ++ [x])%list acc')) →
  ∀ seen acc, reads (fold_each xs acc body)
                (λ d acc', I d seen acc → I d (seen ++ xs)%list acc').
Proof.
  intros Hbody. induction xs as [|x xs IH]; intros seen acc; simpl.
  - apply reads_ret. intros d. by rewrite app_nil_r.
  - eapply reads_bind; [apply Hbody|intros acc'; apply (IH (seen ++ [x])%list acc')|].
    intros d acc' b H1 H2 HI. rewrite <- app_assoc in H2. apply H2, H1, HI.
Qed.

Lemma reads_find_first {A} (xs : list A) (test : A → M session bool)
    (P : database → A → Prop) :
  (∀ x, reads (test x) (λ d found, found = false → ¬ P d x)) →
  reads (find_first xs test) (λ d found, found = false → ∀ x, x ∈ xs → ¬ P d x).
Proof.
  intros Htest. induction xs as [|x xs IH]; simpl.
  - apply reads_ret. intros d _ x Hx. by apply elem_of_nil in Hx.
  - eapply reads_bind with (R := λ found d res,
      res = false → found = false ∧ ∀ y, y ∈ xs → ¬ P d y); [apply Htest| |].
    + intros [|].
      * apply reads_ret. done.
      * eapply reads_weaken; [apply IH|]. intros d res H ->. split; [done|]. by apply H.
    + intros d found res H1 H2 -> y [->|Hy]%elem_of_cons.
      * apply H1. by apply H2.
      * by apply H2.
Qed.

(** ** The two descents *)

Lemma children_listed (d : database) a r :
  r ∈ folders d → parent_folder_id r = Some a →
  folder_id r ∈ folder_id <$> Sql.select_folders (λ r, parent_folder_id r = Some a) d.
Proof.
  intros Hr Hp. apply list_elem_of_fmap_2, list_elem_of_filter. done.
Qed.

Lemma listed_child (d : database) a x :
  x ∈ folder_id <$> Sql.select_folders (λ r, parent_folder_id r = Some a) d →
  ∃ r, r ∈ folders d ∧ parent_folder_id r = Some a ∧ folder_id r = x.
Proof.
  intros (r & -> & [Hp Hr]%list_elem_of_filter)%list_elem_of_fmap. eauto.
Qed.

(** [getSubfolders] inside [deleteFolder] collects every descendant. *)
Lemma getSubfolders_complete fuel parentId :
  reads (folderController.deleteFolder_getSubfolders fuel parentId)
    (λ d ids, ∀ x, descendant (folders d) parentId x → x ∈ ids).
Proof.
  revert parentId. induction fuel as [|fuel IH]; intros parentId; simpl.
  { apply reads_diverge. }
  eapply reads_bind; [apply reads_select| |].
  - intros subfolders.
    apply (reads_fold_each subfolders _
             (λ d seen acc, ∀ ch, ch ∈ seen →
                ch ∈ acc ∧ ∀ x, descendant (folders d) ch x → x ∈ acc) ).
    intros acc x.
    eapply (reads_bind _ _ _ (λ childIds _ acc', acc' = ((acc ++ [x]) ++ childIds)%list));
      [apply IH|intros childIds; by apply reads_ret|].
    intros d childIds acc' Hchild -> seen Hseen ch [Hch|Hch]%elem_of_app.
    + destruct (Hseen ch Hch) as [H1 H2]. split.
      * apply elem_of_app. left. apply elem_of_app. by left.
      * intros y Hy. apply elem_of_app. left. apply elem_of_app. left. by apply H2.
    + apply list_elem_of_singleton in Hch as ->. split.
      * apply elem_of_app. left. apply elem_of_app. right.
        by apply list_elem_of_singleton.
      * intros y Hy. apply elem_of_app. right. by apply Hchild.
  - intros d subfolders ids -> Hids x Hx. simpl in Hids.
    apply descendant_first_step in Hx as (r & Hr & Hp & Hsub).
    destruct (Hids (λ ch Hch, False_ind _ (proj1 (elem_of_nil ch) Hch)) (folder_id r))
      as [H1 H2]; [by apply children_listed|].
    destruct Hsub as [->|Hd]; auto.
Qed.

(** [isDescendant] answers [false] only when the target is outside the
    subtree. *)
Lemma isDescendant_sound fuel checkId targetId :
  reads (folderController.isDescendant fuel checkId targetId)
    (λ d found, found = false → ¬ in_subtree (folders d) checkId targetId).
Proof.
  revert checkId. induction fuel as [|fuel IH]; intros checkId; simpl.
  { apply reads_diverge. }
  case_decide as Heq; [by apply reads_ret|].
  eapply reads_bind; [apply reads_select| |].
  - intros childFolders.
    apply (reads_find_first childFolders _ (λ d ch, in_subtree (folders d) ch targetId)).
    intros ch. apply IH.
  - intros d childFolders found -> Hfound -> [E|Hd]; [done|].
    apply descendant_first_step in Hd as (r & Hr & Hp & Hsub).
    apply (Hfound eq_refl (folder_id r)); [by apply children_listed|done].
Qed.

Lemma find_first_healthy {A} (xs : list A) (test : A → M session bool)
    (P : A → Prop) s :
  (∀ x, x ∈ xs → ∃ found, test x s = (Ok found, s) ∧ (found = true ↔ P x)) →
  ∃ found, find_first xs test s = (Ok found, s) ∧
           (found = true ↔ ∃ x, x ∈ xs ∧ P x).
Proof.
  induction xs as [|x xs IH]; intros Htest; simpl.
  - exists false. split; [done|]. split; [done|].
    intros (x & Hx & _). by apply elem_of_nil in Hx.
  - destruct (Htest x) as (found & E & HP); [apply list_elem_of_here|].
    unfold bind. rewrite E. destruct found.
    + exists true. split; [done|]. split; [|done]. intros _. exists x.
      split; [apply list_elem_of_here|by apply HP].
    + destruct IH as (found & E' & HP').
      { intros y Hy. apply Htest. by apply list_elem_of_further. }
      exists found. split; [done|]. rewrite HP'. split.
      * intros (y & Hy & Py). exists y. split; [by apply list_elem_of_further|done].
      * intros (y & [->|Hy]%elem_of_cons & Py); [|eauto].
        apply HP in Py. done.
Qed.

(** On a store that does not fail, and in a table without cycles,
    [isDescendant] returns, and returns the truth. *)
Lemma isDescendant_healthy fuel checkId targetId path c w :
  store_failure w = None →
  let rows := folders (Connection.view (c, w)) in
  acyclic rows →
  trail rows checkId path →
  (length rows < fuel + length path)%nat →
  ∃ found,
    folderController.isDescendant fuel checkId targetId (c, w) = (Ok found, (c, w)) ∧
    (found = true ↔ in_subtree rows checkId targetId).
Proof.
  intros Hf rows Hacyc. revert checkId path.
  induction fuel as [|fuel IH]; intros checkId path Htrail Hlen.
  { apply trail_length in Htrail. lia. }
  simpl. case_decide as Heq.
  { exists true. split; [done|]. split; [|done]. intros _. by left. }
  assert (Connection.select
            (λ d, folder_id <$> Sql.select_folders
                    (λ r, parent_folder_id r = Some checkId) d) (c, w) =
          (Ok (folder_id <$> Sql.select_folders
                 (λ r, parent_folder_id r = Some checkId) (Connection.view (c, w))),
           (c, w))) as Esel.
  { unfold Connection.select, Connection.accept, bind, gets. simpl. by rewrite Hf. }
  unfold bind at 1. rewrite Esel.
  edestruct (find_first_healthy
               (folder_id <$> Sql.select_folders
                  (λ r, parent_folder_id r = Some checkId) (Connection.view (c, w)))
               (λ child, folderController.isDescendant fuel child targetId)
               (λ child, in_subtree rows child targetId) (c, w))
    as (found & E & HP).
  { intros ch (r & Hr & Hp & <-)%listed_child.
    apply (IH (folder_id r) (folder_id r :: path)).
    - by apply (trail_extend rows Hacyc checkId).
    - simpl. lia. }
  exists found. split; [exact E|]. rewrite HP. split.
  - intros (ch & (r & Hr & Hp & <-)%listed_child & Hsub).
    eapply in_subtree_trans; [|exact Hsub]. by apply in_subtree_child.
  - intros [E'|Hd]; [done|].
    apply descendant_first_step in Hd as (r & Hr & Hp & Hsub).
    exists (folder_id r). split; [by apply children_listed|done].
Qed.

(** ** The blob store leaves metadata and cache alone *)

Lemma disk_changed_refl w : disk_changed w w.
Proof.
  split; try done. exists []. split; [by rewrite app_nil_r|done].
Qed.

Lemma disk_changed_trans w1 w2 w3 :
  disk_changed w1 w2 → disk_changed w2 w3 → disk_changed w1 w3.
Proof.
  intros [S1 C1 R1 F1 (e1 & L1 & A1)] [S2 C2 R2 F2 (e2 & L2 & A2)].
  split; try congruence. exists (e1 ++ e2)%list. split.
  - by rewrite L2, L1, app_assoc.
  - by apply Forall_app.
Qed.

Lemma touches_ret {A} (a : A) : touches_disk (ret a).
Proof. intros w. apply disk_changed_refl. Qed.

Lemma touches_gets {A} (f : world → A) : touches_disk (gets f).
Proof. intros w. apply disk_changed_refl. Qed.

Lemma touches_bind {A B} (m : M world A) (k : A → M world B) :
  touches_disk m → (∀ a, touches_disk (k a)) → touches_disk (bind m k).
Proof.
  intros Hm Hk w. specialize (Hm w). unfold bind.
  destruct (m w) as [[a| |] w1]; simpl in *; [|done..].
  eapply disk_changed_trans; [exact Hm|apply Hk].
Qed.

Lemma touches_try_catch {A} (body handler : M world A) :
  touches_disk body → touches_disk handler → touches_disk (try_catch body handler).
Proof.
  intros Hb Hh w. specialize (Hb w). unfold try_catch.
  destruct (body w) as [[a| |] w1]; simpl in *; [done| |done].
  eapply disk_changed_trans; [exact Hb|apply Hh].
Qed.

Lemma touches_on_disk {A} (f : filesystem → option (A * filesystem)) :
  touches_disk (Fs.on_disk f).
Proof.
  intros w. unfold Fs.on_disk. destruct (f (disk w)) as [[a fs]|]; simpl.
  - split; try done. exists []. split; [by rewrite app_nil_r|done].
  - apply disk_changed_refl.
Qed.

Lemma touches_record e :
  ¬ is_invalidation e → e ≠ Commit → touches_disk (modify (record e)).
Proof.
  intros H1 H2 w. split; try done. exists [e]. split; [done|].
  by apply Forall_singleton.
Qed.

Lemma prune_touches_disk chain : touches_disk (fileStorage.prune chain).
Proof.
  induction chain as [|dirPath above IH]; simpl; [apply touches_ret|].
  apply touches_bind; [apply touches_gets|]. intros root.
  destruct (String.eqb dirPath root); [apply touches_ret|].
  apply touches_bind; [apply touches_on_disk|]. intros dirContents.
  destruct (0 <? length dirContents)%nat; [apply touches_ret|].
  apply touches_bind; [apply touches_on_disk|]. intros _. exact IH.
Qed.

Lemma storage_deleteFile_touches_disk filePath :
  touches_disk (fileStorage.deleteFile filePath).
Proof.
  unfold fileStorage.deleteFile, Fs.unlink.
  repeat first
    [ apply touches_try_catch | apply touches_bind | intros ?
    | apply touches_ret | apply touches_gets | apply touches_on_disk
    | apply prune_touches_disk | apply touches_record; [simpl; tauto|done] ].
Qed.

Lemma getFileMetadata_touches_disk filePath :
  touches_disk (fileStorage.getFileMetadata filePath).
Proof.
  unfold fileStorage.getFileMetadata, Fs.stat.
  repeat first
    [ apply touches_try_catch | apply touches_bind | intros ?
    | apply touches_ret | apply touches_gets | apply touches_on_disk ].
Qed.

Lemma saveFile_touches_disk fileId userId fileData originalFilename :
  touches_disk (fileStorage.saveFile fileId userId fileData originalFilename).
Proof.
  unfold fileStorage.saveFile, Fs.mkdir_recursive, Fs.writeFile.
  repeat first
    [ apply touches_try_catch | apply touches_bind | intros ?
    | apply touches_ret | apply touches_gets | apply touches_on_disk
    | apply touches_record; [simpl; tauto|done] ].
Qed.

Lemma wp_touches_disk {A} (m : M world A) Q c w :
  touches_disk m →
  (∀ r w', disk_changed w w' → Q r (c, w')) →
  wp (lift m) Q (c, w).
Proof.
  intros Hm H. apply wp_lift. unfold wp. apply H, Hm.
Qed.

(** *** Stepping through a controller *)

Ltac wp_pure :=
  cbv beta iota;
  unfold with_store, with_cache, with_disk, with_store_failure, record in *;
  cbn [store cache disk UPLOAD_DIR store_failure log Connection.view fst snd] in *.

Ltac wp_step :=
  lazymatch goal with
  | |- wp (Connection.with_connection _) _ _ => apply wp_with_connection
  | |- wp (bind _ _) _ _ => apply wp_bind
  | |- wp (try_catch _ _) _ _ => apply wp_try_catch
  | |- wp (ret _) _ _ => apply wp_ret
  | |- wp (Connection.select _) _ _ => apply wp_select; intros ?; split
  | |- wp (Connection.execute _ _) _ _ =>
      apply wp_execute; intros ?; split; [|intros ? ? ?]
  | |- wp Connection.commit _ _ => apply wp_commit; intros ?; split
  | |- wp Connection.beginTransaction _ _ => eapply wp_compute; [reflexivity|]
  | |- wp Connection.rollback _ _ => eapply wp_compute; [reflexivity|]
  | |- wp (reject _) _ _ => unfold reject
  | |- wp (when _ _) _ _ => unfold when
  | |- wp (lift (cacheMiddleware.delete _)) _ _ => eapply wp_compute; [reflexivity|]
  | |- wp (lift (cacheMiddleware.deleteByPattern _)) _ _ =>
      eapply wp_compute; [reflexivity|]
  | |- wp (lift (cacheMiddleware.set _ _)) _ _ => eapply wp_compute; [reflexivity|]
  | |- wp (lift (cacheMiddleware.get _)) _ _ => eapply wp_compute; [reflexivity|]
  | |- wp (lift (fileStorage.deleteFile _)) _ _ =>
      apply wp_touches_disk; [apply storage_deleteFile_touches_disk|intros [?| |] ? ?]
  | |- wp (lift (fileStorage.getFileMetadata _)) _ _ =>
      apply wp_touches_disk; [apply getFileMetadata_touches_disk|intros [?| |] ? ?]
  | |- wp (folderController.clear_parent_caches _) _ _ =>
      unfold folderController.clear_parent_caches
  | |- wp (folderController.clear_user_caches _) _ _ =>
      unfold folderController.clear_user_caches
  | |- wp (if ?b then _ else _) _ _ => destruct b eqn:?
  | |- wp (match ?x with _ => _ end) _ _ => destruct x eqn:?
  end; wp_pure.

(** ** [fileController.deleteFile] from the outside *)

Lemma files_deleted_refl w : files_deleted w w.
Proof. split; try done. exists []. by rewrite app_nil_r. Qed.

Lemma files_deleted_trans w1 w2 w3 :
  files_deleted w1 w2 → files_deleted w2 w3 → files_deleted w1 w3.
Proof.
  intros [U1 F1 C1 S1 (e1 & L1)] [U2 F2 C2 S2 (e2 & L2)].
  split; try congruence.
  - etrans; eauto.
  - exists (e1 ++ e2)%list. by rewrite L2, L1, app_assoc.
Qed.

Ltac open_disk_changed :=
  repeat match goal with
  | H : disk_changed _ _ |- _ =>
      let evs := fresh "evs" in
      let El := fresh "El" in
      destruct H as [?Es ?Ec ?Er ?Ef (evs & El & ?Hevs)]; wp_pure
  end.

Lemma deleteFile_effect userId fileId w :
  files_deleted w (fileController.deleteFile userId fileId w).2.
Proof.
  change (wp (fileController.deleteFile userId fileId) (λ _ w', files_deleted w w') w).
  unfold fileController.deleteFile.
  repeat wp_step; open_disk_changed;
    try match goal with
        | H : Sql.delete_file _ _ = Some _ |- _ =>
            apply delete_file_folders in H as (?EU & ?EF & ?EC & ?ES)
        end.
  all: split; wp_pure; rewrite ?EU, ?EF, ?EC, ?Es; try done.
  all: try (eexists; rewrite ?El, <- ?app_assoc; reflexivity).
  all: try (by rewrite <- Es).
Qed.

Lemma wp_deleteFile userId fileId Q c w :
  (∀ r w', files_deleted w w' → Q r (c, w')) →
  wp (lift (fileController.deleteFile userId fileId)) Q (c, w).
Proof. intros H. apply wp_lift. unfold wp. apply H, deleteFile_effect. Qed.

(** ** The folder calls keep the forest *)

Lemma select_head {A} (P : A → Prop) `{∀ x, Decision (P x)} (l : list A) x rest :
  filter P l = x :: rest → x ∈ l ∧ P x.
Proof.
  intros E. assert (x ∈ filter P l) as Hx by (rewrite E; apply list_elem_of_here).
  apply list_elem_of_filter in Hx. tauto.
Qed.

Lemma not_empty_head {A} (l : list A) : is_empty l = false → ∃ x rest, l = x :: rest.
Proof. destruct l; [done|eauto]. Qed.

Lemma truthy_number x : truthy x = true → x = Some (number x) ∧ number x ≠ 0.
Proof.
  destruct x as [n|]; simpl; [|done]. intros H%negb_true_iff%Z.eqb_neq. done.
Qed.

Lemma forest_key_truthy d p : forest d → p ∈ Sql.folder_ids d → truthy (Some p) = true.
Proof.
  intros Hf (r & -> & Hr)%list_elem_of_fmap. apply (forest_ids _ Hf) in Hr.
  simpl. apply negb_true_iff, Z.eqb_neq. lia.
Qed.

Lemma parent_was_checked d uid (parent : option Z) :
  forest d →
  Sql.fk_ok (Sql.folder_ids d) parent →
  (truthy parent = true →
   is_empty (Sql.select_folders
               (λ r, Some (folder_id r) = parent ∧ folder_user_id r = uid) d) = false) →
  ∀ p, parent = Some p →
    ∃ row, row ∈ folders d ∧ folder_id row = p ∧ folder_user_id row = uid.
Proof.
  intros Hf Hfk Hsel p ->. simpl in Hfk.
  destruct (not_empty_head _ (Hsel (forest_key_truthy _ _ Hf Hfk))) as (row & rest & E).
  apply select_head in E as (Hrow & [= Hid] & Hu). eauto.
Qed.

Lemma insert_folder_fk uid parent name d id d' :
  Sql.insert_folder uid parent name d = Some (id, d') →
  Sql.fk_ok (Sql.folder_ids d) parent.
Proof. unfold Sql.insert_folder. case_decide; [tauto|done]. Qed.

Lemma createFolder_forest userId name parentFolderId w :
  forest (store w) →
  forest (store (folderController.createFolder userId name parentFolderId w).2).
Proof.
  intros Hf.
  change (wp (folderController.createFolder userId name parentFolderId)
            (λ _ w', forest (store w')) w).
  unfold folderController.createFolder.
  repeat wp_step; try done.
  all: eapply insert_folder_forest; [done..|].
  all: eapply parent_was_checked; [done|by eapply insert_folder_fk|].
  all: intros Ht; simpl in *; congruence.
Qed.

Lemma renameFolder_forest userId folderId newName w :
  forest (store w) →
  forest (store (folderController.renameFolder userId folderId newName w).2).
Proof.
  intros Hf.
  change (wp (folderController.renameFolder userId folderId newName)
            (λ _ w', forest (store w')) w).
  unfold folderController.renameFolder.
  repeat wp_step; try done.
  all: by eapply update_folder_name_forest.
Qed.

Lemma update_folder_parent_fk parent id d (u : unit) d' :
  Sql.update_folder_parent parent id d = Some (u, d') →
  id ∈ Sql.folder_ids d → Sql.fk_ok (Sql.folder_ids d) parent.
Proof. unfold Sql.update_folder_parent. case_decide; [tauto|done]. Qed.

Lemma wp_isDescendant fuel checkId targetId Q c w :
  (∀ f r, (r = Ok false →
           ¬ in_subtree (folders (Connection.view (c, w))) checkId targetId) →
          Q r (c, with_store_failure f w)) →
  wp (folderController.isDescendant fuel checkId targetId) Q (c, w).
Proof.
  intros H. eapply wp_reads; [apply isDescendant_sound|].
  intros f r Hr. apply H. intros ->. by apply (Hr false).
Qed.

Lemma checked_move_forest d uid fid (np : option Z) (u : unit) d' folder rest :
  forest d →
  Sql.update_folder_parent np fid d = Some (u, d') →
  Sql.select_folders (λ r, folder_id r = fid ∧ folder_user_id r = uid) d = folder :: rest →
  (truthy np = true →
   is_empty (Sql.select_folders
               (λ r, Some (folder_id r) = np ∧ folder_user_id r = uid) d) = false ∧
   ¬ in_subtree (folders d) fid (number np)) →
  forest d'.
Proof.
  intros Hf Hupd Hsel Hchecked.
  apply select_head in Hsel as (Hfolder & Hid & Hu).
  assert (Sql.fk_ok (Sql.folder_ids d) np) as Hfk.
  { eapply update_folder_parent_fk; [done|]. rewrite <- Hid. by apply list_elem_of_fmap_2. }
  apply (update_folder_parent_forest np fid uid d u d' Hf Hupd); [eauto|].
  intros p ->.
  destruct Hchecked as [Hsel Hout]; [by eapply forest_key_truthy|].
  split; [|done]. eapply parent_was_checked; eauto.
Qed.

Lemma moveFolder_forest fuel userId folderId newParentId w :
  forest (store w) →
  forest (store (folderController.moveFolder fuel userId folderId newParentId w).2).
Proof.
  intros Hf.
  change (wp (folderController.moveFolder fuel userId folderId newParentId)
            (λ _ w', forest (store w')) w).
  unfold folderController.moveFolder.
  repeat first
    [ wp_step
    | apply wp_isDescendant; intros ? [[|]| |] ? ]; try done.
  all: eapply checked_move_forest; [done..|].
  all: intros Ht; try congruence.
  all: split; [done|auto].
Qed.

Lemma wp_getSubfolders fuel parentId Q c w :
  (∀ f r, (∀ ids, r = Ok ids →
             ∀ x, descendant (folders (Connection.view (c, w))) parentId x → x ∈ ids) →
          Q r (c, with_store_failure f w)) →
  wp (folderController.deleteFolder_getSubfolders fuel parentId) Q (c, w).
Proof. intros H. eapply wp_reads; [apply getSubfolders_complete|]. exact H. Qed.

Lemma files_deleted_forest w w' :
  files_deleted w w' → forest (store w) → forest (store w').
Proof.
  intros [U F C _ _] [Hk Hn Hi Hc Ho Ha]. split; rewrite ?F, ?C; done.
Qed.

Lemma deleteFolder_forest fuel userId folderId w :
  forest (store w) →
  forest (store (folderController.deleteFolder fuel userId folderId w).2).
Proof.
  intros Hf.
  change (wp (folderController.deleteFolder fuel userId folderId)
            (λ _ w', forest (store w')) w).
  unfold folderController.deleteFolder.
  repeat wp_step; try done.
  eapply (wp_for_each (λ s, ∃ w1, s = (InTransaction None, w1) ∧ files_deleted w w1)).
  { eexists. split; [done|]. split; wp_pure; try done. by exists [BeginTransaction]. }
  { intros file s _ (w1 & -> & Hw1). wp_pure. wp_step. apply wp_deleteFile.
    intros r w2 Hw2.
    assert (files_deleted w w2) by by eapply files_deleted_trans.
    destruct r; wp_pure; repeat wp_step; eauto using files_deleted_forest. }
  intros s' (w1 & -> & Hw1).
  pose proof (files_deleted_forest _ _ Hw1 Hf) as Hf1.
  wp_pure.
  repeat first
    [ wp_step
    | apply wp_getSubfolders; intros ? [?| |] ? ]; try done.
  all: repeat match goal with
       | H : Sql.delete_folders _ _ = Some _ |- _ =>
           eapply delete_folders_forest in H; [|done]
       end; done.
Qed.

(** ** Moves into the own subtree *)

Lemma after_calls_forest calls w :
  forest (store w) → forest (store (after_calls calls w)).
Proof.
  revert w. induction calls as [|call calls IH]; intros w Hf; [done|].
  simpl. apply IH. destruct call; simpl.
  - by apply createFolder_forest.
  - by apply renameFolder_forest.
  - by apply moveFolder_forest.
  - by apply deleteFolder_forest.
Qed.

Lemma forest_no_cycle d : forest d → acyclic (folders d).
Proof. apply forest_acyclic. Qed.

(** Everything below a folder belongs to the folder's owner. *)
Lemma below_same_owner d p x :
  forest d → below (folders d) p x →
  ∀ folder, folder ∈ folders d → p = Some (folder_id folder) →
    ∃ r, r ∈ folders d ∧ folder_id r = x ∧ folder_user_id r = folder_user_id folder.
Proof.
  intros Hf. induction 1 as [p r Hr Hp | p r x Hr Hp _ IH]; intros folder Hfolder ->.
  - exists r. split_and!; [done..|]. by apply (forest_owner _ Hf).
  - destruct (IH r Hr eq_refl) as (r' & Hr' & Hid & Hu). exists r'.
    split_and!; [done..|]. rewrite Hu. by apply (forest_owner _ Hf).
Qed.

Ltac wp_step_healthy :=
  lazymatch goal with
  | |- wp (Connection.select _) _ _ => apply wp_select_healthy; [assumption|]
  | |- wp (if _ then _ else _) _ _ => fail
  | |- wp (match _ with _ => _ end) _ _ => fail
  | _ => wp_step
  end; wp_pure.

Lemma moveFolder_rejects_own_subtree fuel userId folderId newParentId folder w :
  forest (store w) →
  store_failure w = None →
  folder ∈ folders (store w) →
  folder_id folder = folderId →
  folder_user_id folder = userId →
  in_subtree (folders (store w)) folderId newParentId →
  (length (folders (store w)) ≤ fuel)%nat →
  ∃ error w',
    folderController.moveFolder fuel userId folderId (Some newParentId) w =
      (Ok (Failure error), w') ∧
    InvalidOperation error ∧ store w' = store w.
Proof.
  intros Hf Hh Hfolder Hid Hu Hsub Hfuel.
  cut (wp (folderController.moveFolder fuel userId folderId (Some newParentId))
         (λ r w', ∃ error, r = Ok (Failure error) ∧ InvalidOperation error ∧
                           store w' = store w) w).
  { intros (r & w' & E & error & -> & ? & ?)%wp_result. eauto. }
  unfold folderController.moveFolder.
  repeat wp_step_healthy.
  lazymatch goal with
  | |- wp (match ?rows with _ => _ end) _ _ => destruct rows as [|folder0 rest] eqn:Hsel
  end.
  { exfalso. assert (folder ∈ Sql.select_folders
      (λ r, folder_id r = folderId ∧ folder_user_id r = userId) (store w)) as Hin
      by by apply list_elem_of_filter.
    rewrite Hsel in Hin. by apply elem_of_nil in Hin. }
  case_decide as Hself.
  { repeat wp_step_healthy. eexists. split; [done|]. split; [by left|done]. }
  destruct Hsub as [->|Hd]; [done|].
  destruct (below_same_owner _ _ _ Hf Hd folder Hfolder) as (np & Hnp & Hnpid & Hnpu);
    [by rewrite Hid|].
  assert (0 < newParentId) as Hpos.
  { rewrite <- Hnpid. by apply (forest_ids _ Hf). }
  replace (truthy (Some newParentId)) with true
    by (symmetry; apply negb_true_iff, Z.eqb_neq; lia).
  repeat wp_step_healthy.
  lazymatch goal with
  | |- wp (if is_empty ?rows then _ else _) _ _ =>
      destruct rows as [|np0 rest0] eqn:Hsel2
  end.
  { exfalso. assert (np ∈ Sql.select_folders
      (λ r, Some (folder_id r) = Some newParentId ∧ folder_user_id r = userId) (store w))
      as Hin by (apply list_elem_of_filter; split; [split; congruence|done]).
    rewrite Hsel2 in Hin. by apply elem_of_nil in Hin. }
  cbn [is_empty]. wp_step_healthy.
  destruct (isDescendant_healthy fuel folderId (number (Some newParentId)) [folderId]
              (InTransaction None)
              (mkWorld (store w) (cache w) (disk w) (UPLOAD_DIR w) (store_failure w)
                 (log w ++ [BeginTransaction])%list))
    as (found & E & Hfound).
  - done.
  - by apply forest_no_cycle.
  - apply trail_start. simpl. rewrite <- Hid. by apply list_elem_of_fmap_2.
  - simpl. lia.
  - eapply wp_compute; [exact E|]. wp_pure.
    assert (found = true) as -> by (apply Hfound; by right).
    repeat wp_step_healthy. eexists. split; [done|]. split; [by right|done].
Qed.

(** C3: from a forest, every sequence of [createFolder], [renameFolder],
    [moveFolder] and [deleteFolder] calls leads to a forest again (no folder
    is its own ancestor); and in every state so reached, moving a folder of
    the caller onto itself or under one of its descendants is answered with
    [InvalidOperation] and leaves the table as it is. The descent of
    [isDescendant] needs no more fuel than the table has rows; the store is
    taken to answer the statements of the call. *)
Theorem folder_moves_keep_forest (w0 : world) (calls : list folder_call) :
  forest (store w0) →
  let w := after_calls calls w0 in
  forest (store w) ∧
  acyclic (folders (store w)) ∧
  ∀ userId folderId newParentId folder fuel,
    folder ∈ folders (store w) →
    folder_id folder = folderId →
    folder_user_id folder = userId →
    in_subtree (folders (store w)) folderId newParentId →
    store_failure w = None →
    (length (folders (store w)) ≤ fuel)%nat →
    ∃ error w',
      folderController.moveFolder fuel userId folderId (Some newParentId) w =
        (Ok (Failure error), w') ∧
      InvalidOperation error ∧ store w' = store w.
Proof.
  intros Hf w. pose proof (after_calls_forest calls w0 Hf) as Hw. fold w in Hw.
  split; [done|]. split; [by apply forest_no_cycle|].
  intros. by eapply moveFolder_rejects_own_subtree.
Qed.

Lemma initDatabase_forest : forest initDatabase.
Proof.
  split; simpl.
  - apply NoDup_singleton.
  - lia.
  - intros r ->%list_elem_of_singleton. simpl. lia.
  - intros r p ->%list_elem_of_singleton. done.
  - intros r rp ->%list_elem_of_singleton. done.
  - intros x (r & ->%list_elem_of_singleton & Hp)%below_has_child. done.
Qed.

Lemma folder_moves_keep_forest_witness :
  let w0 := boot "/srv/cmed/uploads" initDatabase in
  let w := after_calls [CreateFolder 1 "A" None; CreateFolder 1 "B" (Some 2)] w0 in
  forest (store w0) ∧
  ∃ error w',
    folderController.moveFolder 3 1 2 (Some 3) w = (Ok (Failure error), w') ∧
    InvalidOperation error ∧ store w' = store w.
Proof.
  intros w0 w. split; [apply initDatabase_forest|].
  destruct (folder_moves_keep_forest w0
              [CreateFolder 1 "A" None; CreateFolder 1 "B" (Some 2)] initDatabase_forest)
    as (_ & _ & Hmove).
  apply (Hmove 1 2 3 (mkFolder 2 1 None "A") 3%nat).
  - vm_compute. apply list_elem_of_further, list_elem_of_here.
  - reflexivity.
  - reflexivity.
  - right. apply (below_child _ _ (mkFolder 3 1 (Some 2) "B")); [|reflexivity].
    vm_compute. do 2 apply list_elem_of_further. apply list_elem_of_here.
  - reflexivity.
  - vm_compute. lia.
Defined.

(** ** Deleting a subtree *)

Lemma delete_folders_unreferenced ids d (u : unit) d' :
  Sql.delete_folders ids d = Some (u, d') →
  folders d' ⊆ folders d ∧ files d' ⊆ files d ∧
  (∀ r, r ∈ folders d' →
     (folder_id r ∉ ids) ∧ ¬ Sql.references ids (parent_folder_id r)) ∧
  (∀ f, f ∈ files d' → ¬ Sql.references ids (file_folder_id f)).
Proof.
  intros ->%delete_folders_eq. split_and!.
  - apply sublist_subseteq, cascade_sublist.
  - apply cascade_files.
  - apply cascade_unreferenced.
  - apply cascade_unreferenced.
Qed.

(** What remains after the two [DELETE]s of [deleteFolder]. *)
Lemma subtree_unreferenced d ids fid d1 (u : unit) d2 :
  (∀ x, descendant (folders d) fid x → x ∈ ids) →
  (ids = [] ∧ d1 = d ∨ ∃ u1 : unit, Sql.delete_folders ids d = Some (u1, d1)) →
  Sql.delete_folders [fid] d1 = Some (u, d2) →
  (∀ r, r ∈ folders d2 →
     r ∈ folders d ∧ ¬ in_subtree (folders d) fid (folder_id r) ∧
     ∀ p, parent_folder_id r = Some p → ¬ in_subtree (folders d) fid p) ∧
  (∀ f, f ∈ files d2 →
     f ∈ files d ∧
     ∀ x, file_folder_id f = Some x → ¬ in_subtree (folders d) fid x).
Proof.
  intros Hids Hfirst (Hr2 & Hf2 & Hrow2 & Hfile2)%delete_folders_unreferenced.
  assert (folders d1 ⊆ folders d ∧ files d1 ⊆ files d ∧
          (∀ r, r ∈ folders d1 →
             (folder_id r ∉ ids) ∧ ¬ Sql.references ids (parent_folder_id r)) ∧
          (∀ f, f ∈ files d1 → ¬ Sql.references ids (file_folder_id f)))
    as (Hr1 & Hf1 & Hrow1 & Hfile1).
  { destruct Hfirst as [[-> ->]|[u1 H1]]; [|by eapply delete_folders_unreferenced].
    split_and!; [done..| |].
    - intros r _. split; [apply not_elem_of_nil|].
      destruct (parent_folder_id r); simpl; [apply not_elem_of_nil|tauto].
    - intros f _. destruct (file_folder_id f); simpl; [apply not_elem_of_nil|tauto]. }
  assert (∀ x, in_subtree (folders d) fid x → x ∈ [fid] ∨ x ∈ ids) as Hsub.
  { intros x [->|Hx]; [left; apply list_elem_of_here|right; by apply Hids]. }
  split.
  - intros r Hr. destruct (Hrow2 r Hr) as [Ha Hb].
    destruct (Hrow1 r (Hr2 r Hr)) as [Hc Hd]. split_and!.
    + by apply Hr1, Hr2.
    + intros [?|?]%Hsub; done.
    + intros p Hp. rewrite Hp in Hb, Hd. simpl in *. intros [?|?]%Hsub; done.
  - intros f Hf. pose proof (Hfile2 f Hf) as Ha. pose proof (Hfile1 f (Hf2 f Hf)) as Hb.
    split; [by apply Hf1, Hf2|].
    intros x Hx. rewrite Hx in Ha, Hb. simpl in *. intros [?|?]%Hsub; done.
Qed.

(** C1: when [deleteFolder] answers with success, what is left in the
    store neither lies in nor refers to the subtree of the folder: every
    row of a descendant folder (and of the folder itself) is gone, every
    file row whose folder lies in the subtree is gone, files of descendant
    folders included, and no remaining folder or file row references one of
    the deleted folder ids. *)
Theorem deleteFolder_removes_subtree fuel userId folderId w payload w' :
  folderController.deleteFolder fuel userId folderId w = (Ok (Success payload), w') →
  let rows := folders (store w) in
  (∀ r, r ∈ rows → in_subtree rows folderId (folder_id r) → r ∉ folders (store w')) ∧
  (∀ f x, f ∈ files (store w) → file_folder_id f = Some x →
     in_subtree rows folderId x → f ∉ files (store w')) ∧
  (∀ r, r ∈ folders (store w') →
     r ∈ rows ∧ ¬ in_subtree rows folderId (folder_id r) ∧
     ∀ p, parent_folder_id r = Some p → ¬ in_subtree rows folderId p) ∧
  (∀ f, f ∈ files (store w') →
     f ∈ files (store w) ∧
     ∀ x, file_folder_id f = Some x → ¬ in_subtree rows folderId x).
Proof.
  intros Hrun rows.
  cut ((∀ r, r ∈ folders (store w') →
          r ∈ rows ∧ ¬ in_subtree rows folderId (folder_id r) ∧
          ∀ p, parent_folder_id r = Some p → ¬ in_subtree rows folderId p) ∧
       (∀ f, f ∈ files (store w') →
          f ∈ files (store w) ∧
          ∀ x, file_folder_id f = Some x → ¬ in_subtree rows folderId x)).
  { intros [Hrows Hfiles]. split_and!; [| |done..].
    - intros r _ Hsub Hr. by apply (Hrows r Hr).
    - intros f x _ Hx Hsub Hf. destruct (Hfiles f Hf) as [_ Hno]. by apply (Hno x). }
  pose (Q := λ (r : outcome response) (w' : world),
    r = Ok (Success payload) →
    (∀ r, r ∈ folders (store w') →
       r ∈ rows ∧ ¬ in_subtree rows folderId (folder_id r) ∧
       ∀ p, parent_folder_id r = Some p → ¬ in_subtree rows folderId p) ∧
    (∀ f, f ∈ files (store w') →
       f ∈ files (store w) ∧
       ∀ x, file_folder_id f = Some x → ¬ in_subtree rows folderId x)).
  cut (wp (folderController.deleteFolder fuel userId folderId) Q w).
  { intros Hwp. exact (wp_elim _ _ _ _ _ Hwp Hrun eq_refl). }
  subst Q. unfold folderController.deleteFolder.
  repeat wp_step; try done.
  eapply (wp_for_each (λ s, ∃ w1, s = (InTransaction None, w1) ∧ files_deleted w w1)).
  { eexists. split; [done|]. split; wp_pure; try done. by exists [BeginTransaction]. }
  { intros file s _ (w1 & -> & Hw1). wp_pure. wp_step. apply wp_deleteFile.
    intros r w2 Hw2.
    assert (files_deleted w w2) by by eapply files_deleted_trans.
    destruct r; wp_pure; repeat wp_step; eauto; done. }
  intros s' (w1 & -> & [_ Hfolders _ Hfiles _]).
  wp_pure.
  repeat first
    [ wp_step
    | apply wp_getSubfolders; intros ? [?| |] ? ]; try done.
  all: intros _;
    match goal with
    | Hids : ∀ ids, Ok ?a = Ok ids → _, Hlast : Sql.delete_folders [_] ?d1 = Some _ |- _ =>
        assert (a = [] ∧ d1 = store w1 ∨
                ∃ u1 : unit, Sql.delete_folders a (store w1) = Some (u1, d1)) as Hfirst;
        [|destruct (subtree_unreferenced (store w1) a folderId d1 _ _
                      (Hids a eq_refl) Hfirst Hlast) as [Hrows Hleft]]
    end.
  all: try (right; eauto; fail).
  all: try (left; split; [|done];
            match goal with
            | H : (0 <? length ?a)%nat = false |- _ => by destruct a
            end).
  all: rewrite Hfolders in Hrows, Hleft; split; [done|].
  all: intros file Hfile; destruct (Hleft file Hfile); split; auto.
Qed.

Lemma deleteFolder_removes_subtree_witness :
  let w := docs_sub_file in
  let out := folderController.deleteFolder 4 1 2 w in
  folders (store w) =
    [mkFolder 1 1 None "Root"; mkFolder 2 1 None "Docs"; mkFolder 3 1 (Some 2) "Sub"] ∧
  file_id <$> files (store w) = [1] ∧
  out = (Ok (Success NoPayload), out.2) ∧
  folders (store out.2) = [mkFolder 1 1 None "Root"] ∧
  files (store out.2) = [] ∧
  (∀ r, r ∈ folders (store w) → in_subtree (folders (store w)) 2 (folder_id r) →
     r ∉ folders (store out.2)).
Proof.
  cbv zeta.
  assert (folderController.deleteFolder 4 1 2 docs_sub_file =
          (Ok (Success NoPayload), (folderController.deleteFolder 4 1 2 docs_sub_file).2))
    as Hrun by (vm_compute; reflexivity).
  split; [vm_compute; reflexivity|].
  split; [vm_compute; reflexivity|].
  split; [exact Hrun|].
  split; [vm_compute; reflexivity|].
  split; [vm_compute; reflexivity|].
  exact (proj1 (deleteFolder_removes_subtree 4 1 2 docs_sub_file NoPayload _ Hrun)).
Defined.

(** ** Invalidation and commit *)

Lemma extends_refl (l : list event) : ∃ evs, l = (l ++ evs)%list.
Proof. exists []. by rewrite app_nil_r. Qed.

Lemma extends_app (l X ys : list event) :
  (∃ evs, X = (l ++ evs)%list) → ∃ evs, (X ++ ys)%list = (l ++ evs)%list.
Proof. intros (evs & ->). exists (evs ++ ys)%list. by rewrite app_assoc. Qed.

Lemma invalidated_here l X e :
  is_invalidation e → (∃ evs, X = (l ++ evs)%list) → invalidated_since l (X ++ [e]).
Proof.
  intros He (evs & ->). exists (evs ++ [e])%list. split; [by rewrite app_assoc|].
  apply Exists_app. right. by apply Exists_cons_hd.
Qed.

Lemma invalidated_earlier l X ys :
  invalidated_since l X → invalidated_since l (X ++ ys).
Proof.
  intros (evs & -> & He). exists (evs ++ ys)%list. split; [by rewrite app_assoc|].
  apply Exists_app. by left.
Qed.

Lemma committed_after_invalidation l X :
  invalidated_since l X →
  ∃ evs, (X ++ [Commit])%list = (l ++ evs)%list ∧ invalidates_before_commit evs.
Proof.
  intros (before & -> & He). exists (before ++ [Commit])%list.
  split; [by rewrite app_assoc|]. by exists before.
Qed.

Ltac extends := repeat apply extends_app; first [apply extends_refl | eassumption].

Ltac invalidated :=
  first [ apply invalidated_here; [exact I | extends]
        | apply invalidated_earlier; invalidated ].

Ltac commit_last :=
  intros ? ?; apply committed_after_invalidation; invalidated.

Lemma createFolder_commits_last userId name parentFolderId w payload w' :
  folderController.createFolder userId name parentFolderId w = (Ok (Success payload), w') →
  ∃ evs, log w' = (log w ++ evs)%list ∧ invalidates_before_commit evs.
Proof.
  intros Hrun.
  cut (wp (folderController.createFolder userId name parentFolderId)
         (λ r w', ∀ v, r = Ok (Success v) →
            ∃ evs, log w' = (log w ++ evs)%list ∧ invalidates_before_commit evs) w).
  { intros Hwp. exact (wp_elim _ _ _ _ _ Hwp Hrun _ eq_refl). }
  unfold folderController.createFolder.
  repeat wp_step; try done.
  all: commit_last.
Qed.

Lemma renameFolder_commits_last userId folderId newName w payload w' :
  folderController.renameFolder userId folderId newName w = (Ok (Success payload), w') →
  ∃ evs, log w' = (log w ++ evs)%list ∧ invalidates_before_commit evs.
Proof.
  intros Hrun.
  cut (wp (folderController.renameFolder userId folderId newName)
         (λ r w', ∀ v, r = Ok (Success v) →
            ∃ evs, log w' = (log w ++ evs)%list ∧ invalidates_before_commit evs) w).
  { intros Hwp. exact (wp_elim _ _ _ _ _ Hwp Hrun _ eq_refl). }
  unfold folderController.renameFolder.
  repeat wp_step; try done.
  all: commit_last.
Qed.

Lemma moveFolder_commits_last fuel userId folderId newParentId w payload w' :
  folderController.moveFolder fuel userId folderId newParentId w =
    (Ok (Success payload), w') →
  ∃ evs, log w' = (log w ++ evs)%list ∧ invalidates_before_commit evs.
Proof.
  intros Hrun.
  cut (wp (folderController.moveFolder fuel userId folderId newParentId)
         (λ r w', ∀ v, r = Ok (Success v) →
            ∃ evs, log w' = (log w ++ evs)%list ∧ invalidates_before_commit evs) w).
  { intros Hwp. exact (wp_elim _ _ _ _ _ Hwp Hrun _ eq_refl). }
  unfold folderController.moveFolder.
  repeat first
    [ wp_step
    | apply wp_isDescendant; intros ? [[|]| |] ? ]; try done.
  all: commit_last.
Qed.

Lemma deleteFile_commits_last userId fileId w payload w' :
  fileController.deleteFile userId fileId w = (Ok (Success payload), w') →
  ∃ evs, log w' = (log w ++ evs)%list ∧ invalidates_before_commit evs.
Proof.
  intros Hrun.
  cut (wp (fileController.deleteFile userId fileId)
         (λ r w', ∀ v, r = Ok (Success v) →
            ∃ evs, log w' = (log w ++ evs)%list ∧ invalidates_before_commit evs) w).
  { intros Hwp. exact (wp_elim _ _ _ _ _ Hwp Hrun _ eq_refl). }
  unfold fileController.deleteFile.
  repeat wp_step; open_disk_changed; try done.
  all: rewrite ?El; commit_last.
Qed.

Lemma uploadFile_commits_last uuid userId file folderId w payload w' :
  fileController.uploadFile uuid userId file folderId w = (Ok (Success payload), w') →
  ∃ evs, log w' = (log w ++ evs)%list ∧ invalidates_before_commit evs.
Proof.
  intros Hrun.
  cut (wp (fileController.uploadFile uuid userId file folderId)
         (λ r w', ∀ v, r = Ok (Success v) →
            ∃ evs, log w' = (log w ++ evs)%list ∧ invalidates_before_commit evs) w).
  { intros Hwp. exact (wp_elim _ _ _ _ _ Hwp Hrun _ eq_refl). }
  unfold fileController.uploadFile.
  repeat first
    [ wp_step
    | apply wp_touches_disk; [apply saveFile_touches_disk|intros [?| |] ? ?]; wp_pure ];
    open_disk_changed; try done.
  all: rewrite ?El; commit_last.
Qed.

Lemma deleteFolder_commits_last fuel userId folderId w payload w' :
  folderController.deleteFolder fuel userId folderId w = (Ok (Success payload), w') →
  ∃ evs, log w' = (log w ++ evs)%list ∧ invalidates_before_commit evs.
Proof.
  intros Hrun.
  cut (wp (folderController.deleteFolder fuel userId folderId)
         (λ r w', ∀ v, r = Ok (Success v) →
            ∃ evs, log w' = (log w ++ evs)%list ∧ invalidates_before_commit evs) w).
  { intros Hwp. exact (wp_elim _ _ _ _ _ Hwp Hrun _ eq_refl). }
  unfold folderController.deleteFolder.
  repeat wp_step; try done.
  eapply (wp_for_each (λ s, ∃ w1, s = (InTransaction None, w1) ∧ files_deleted w w1)).
  { eexists. split; [done|]. split; wp_pure; try done. by exists [BeginTransaction]. }
  { intros file s _ (w1 & -> & Hw1). wp_pure. wp_step. apply wp_deleteFile.
    intros r w2 Hw2.
    assert (files_deleted w w2) by by eapply files_deleted_trans.
    destruct r; wp_pure; repeat wp_step; eauto; done. }
  intros s' (w1 & -> & [_ _ _ _ Hlog]).
  wp_pure.
  repeat first
    [ wp_step
    | apply wp_getSubfolders; intros ? [?| |] ? ]; try done.
  all: commit_last.
Qed.

(** C5, as stated, fails: [createFolder] on the database [initDatabase]
    creates succeeds, and its two invalidations come before its commit,
    the last event of the call. *)
Lemma createFolder_invalidates_before_commit :
  let w := boot "/srv/uploads" initDatabase in
  let call := mutate (OnFolder (CreateFolder 1 "Docs" None)) in
  (call w).1 = Ok (Success (FolderInfo 2 (Some ("Docs", None)))) ∧
  effects call w =
    [BeginTransaction; Executed InsertFolder;
     CacheDelete "user:1:folders"; CacheDeleteByPattern "user:1:folder_tree*";
     Commit] ∧
  ¬ invalidates_after_commit (effects call w).
Proof.
  assert (effects (mutate (OnFolder (CreateFolder 1 "Docs" None)))
            (boot "/srv/uploads" initDatabase) =
          [BeginTransaction; Executed InsertFolder;
           CacheDelete "user:1:folders"; CacheDeleteByPattern "user:1:folder_tree*";
           Commit]) as Heffects by (vm_compute; reflexivity).
  cbv zeta. split; [vm_compute; reflexivity|]. split; [exact Heffects|].
  rewrite Heffects. intros Hafter.
  pose proof (Hafter [BeginTransaction; Executed InsertFolder]
                (CacheDelete "user:1:folders") _ eq_refl I) as Hcommit.
  apply list_elem_of_In in Hcommit. simpl in Hcommit.
  destruct Hcommit as [|[|[]]]; discriminate.
Qed.

(** C5, amended: a mutating operation that succeeds invalidates inside its
    transaction.  The events it adds to the history end with its commit, and
    at least one invalidation comes before that commit; none comes after. *)
Theorem mutations_invalidate_before_commit (m : mutation) w payload w' :
  mutate m w = (Ok (Success payload), w') →
  ∃ evs, log w' = (log w ++ evs)%list ∧ invalidates_before_commit evs.
Proof.
  destruct m as [[| | |]| |]; simpl.
  - apply createFolder_commits_last.
  - apply renameFolder_commits_last.
  - apply moveFolder_commits_last.
  - apply deleteFolder_commits_last.
  - apply uploadFile_commits_last.
  - apply deleteFile_commits_last.
Qed.

Lemma mutations_invalidate_before_commit_witness :
  let w := boot "/srv/uploads" initDatabase in
  let out := mutate (Upload uuid1 1 a_txt (Some 1)) w in
  out = (Ok (Success (FileInfo 1 (Some ("a.txt", 10, "text/plain")))), out.2) ∧
  ∃ evs, log out.2 = (log w ++ evs)%list ∧ invalidates_before_commit evs.
Proof.
  cbv zeta. split; [vm_compute; reflexivity|].
  apply (mutations_invalidate_before_commit
           (Upload uuid1 1 a_txt (Some 1)) (boot "/srv/uploads" initDatabase)
           (FileInfo 1 (Some ("a.txt", 10, "text/plain")))).
  vm_compute; reflexivity.
Defined.

(** ** Blob first, row second *)

(** [saveFile] changes the disk only: it removes no blob, and when it
    returns, the blob is at [blob_path] and the path it returns is that path
    with the first occurrence of the root cut out. *)
Lemma saveFile_run fileId userId fileData originalFilename w r w1 :
  fileStorage.saveFile fileId userId fileData originalFilename w = (r, w1) →
  store w1 = store w ∧ cache w1 = cache w ∧ UPLOAD_DIR w1 = UPLOAD_DIR w ∧
  (∀ p, is_Some (blobs (disk w) !! p) → is_Some (blobs (disk w1) !! p)) ∧
  match r with
  | Ok saved =>
      saved = (Js.replace (blob_path (UPLOAD_DIR w) userId fileId originalFilename)
                 (UPLOAD_DIR w) "", fileId) ∧
      blobs (disk w1) !! blob_path (UPLOAD_DIR w) userId fileId originalFilename =
        Some fileData ∧
      log w1 =
        (log w ++ [WriteFile (blob_path (UPLOAD_DIR w) userId fileId originalFilename)])%list
  | Thrown => blobs (disk w1) = blobs (disk w) ∧ log w1 = log w
  | OutOfFuel => False
  end.
Proof.
  unfold blob_path, fileStorage.saveFile, fileStorage.getUserStorageDir.
  unfold bind at 1, gets at 1. cbv beta iota zeta.
  generalize (Path.join [Path.join [UPLOAD_DIR w; "user_" +:+ show userId];
                         Js.substring 0 3 fileId; Js.substring 3 6 fileId]).
  intros fileDir.
  generalize (Path.join [fileDir; fileId +:+ Path.extname originalFilename]).
  intros P.
  unfold bind, gets, ret, modify, Fs.mkdir_recursive, Fs.writeFile, Fs.on_disk.
  destruct (io_error (disk w)) eqn:Hio; cbv beta iota; [by intros [= <- <-]|].
  case_decide; cbv beta iota; [by intros [= <- <-]|].
  unfold with_disk, bind; cbn [disk io_error dirs blobs].
  case_decide; cbv beta iota; [by intros [= <- <-]|]. unfold record; cbn.
  intros [= <- <-]. cbn. repeat split; try done.
  - intros p [x Hx]. destruct (decide (P = p)) as [->|Hne].
    + rewrite lookup_insert_eq. eauto.
    + rewrite lookup_insert_ne; eauto.
  - apply lookup_insert_eq.
Qed.

Lemma wp_saveFile fileId userId fileData originalFilename Q c w :
  (∀ r w1,
     store w1 = store w → cache w1 = cache w → UPLOAD_DIR w1 = UPLOAD_DIR w →
     store_failure w1 = store_failure w →
     (∀ p, is_Some (blobs (disk w) !! p) → is_Some (blobs (disk w1) !! p)) →
     match r with
     | Ok saved =>
         saved = (Js.replace (blob_path (UPLOAD_DIR w) userId fileId originalFilename)
                    (UPLOAD_DIR w) "", fileId) ∧
         blobs (disk w1) !! blob_path (UPLOAD_DIR w) userId fileId originalFilename =
           Some fileData ∧
         log w1 =
           (log w ++ [WriteFile (blob_path (UPLOAD_DIR w) userId fileId originalFilename)])%list
     | Thrown => blobs (disk w1) = blobs (disk w) ∧ log w1 = log w
     | OutOfFuel => False
     end →
     Q r (c, w1)) →
  wp (lift (fileStorage.saveFile fileId userId fileData originalFilename)) Q (c, w).
Proof.
  intros H. apply wp_lift. unfold wp.
  destruct (fileStorage.saveFile fileId userId fileData originalFilename w)
    as [r w1] eqn:Hrun.
  destruct (saveFile_run _ _ _ _ _ _ _ Hrun) as (Hs & Hc & Hr & Hb & Ho).
  pose proof (saveFile_touches_disk fileId userId fileData originalFilename w) as Hd.
  rewrite Hrun in Hd. destruct Hd as [_ _ _ Hf _].
  by apply H.
Qed.

Lemma insert_file_rows uid folder name path mime sz d id d' :
  Sql.insert_file uid folder name path mime sz d = Some (id, d') →
  ∀ f, f ∈ files d' → f ∈ files d ∨ file_path f = path.
Proof.
  unfold Sql.insert_file. case_decide; [|done]. intros [= <- <-] f. cbn.
  rewrite elem_of_app, list_elem_of_singleton. intros [?| ->]; auto.
Qed.

Lemma insert_comes_after (P : string) (rest before later : list event) :
  BeginTransaction :: WriteFile P :: rest = (before ++ Executed InsertFile :: later)%list →
  WriteFile P ∈ before.
Proof.
  destruct before as [|e0 [|e1 before]]; [done..|].
  intros [= <- <- _]. apply elem_of_cons. right. apply elem_of_cons. by left.
Qed.

Lemma no_insert_to_follow (P : string) (evs before later : list event) :
  Executed InsertFile ∉ evs →
  evs = (before ++ Executed InsertFile :: later)%list → WriteFile P ∈ before.
Proof.
  intros Hnot ->. destruct Hnot. apply elem_of_app. right. apply elem_of_cons. by left.
Qed.

Ltac history_member H :=
  repeat (apply elem_of_cons in H as [H|H]; [discriminate H|]);
  by apply elem_of_nil in H.

Ltac in_history :=
  solve [repeat first [apply list_elem_of_here | apply list_elem_of_further]].

Ltac upload_leaf Hs Hb Hblob :=
  rewrite <- ?app_assoc; cbn [app]; eexists; split; [reflexivity|];
  split; [by eexists|];
  split;
    [first [ apply insert_comes_after
           | intros ? ?; apply no_insert_to_follow;
             let H := fresh in intros H; history_member H ]|];
  split; [first [exact Hb | done]|];
  split;
    [first [ intros _; exact Hblob
           | let H := fresh in intros H; history_member H ]|];
  split;
    [first [ let H := fresh in intros H; history_member H
           | let H := fresh in intros _ H; destruct H; in_history
           | intros _ _; split; [done|]; split; [in_history|done] ]|];
  let f := fresh "f" in
  let Hin := fresh "Hin" in
  intros f Hin;
  first [ by left
        | lazymatch goal with
          | H : Sql.insert_file _ _ _ _ _ _ _ = Some _ |- _ =>
              destruct (insert_file_rows _ _ _ _ _ _ _ _ _ H _ Hin) as [?| ->];
              [left; by rewrite <- ?Hs|right; split; [done|in_history]]
          end ].

(** What one call of [uploadFile] adds to the history, and what it leaves
    on the disk and in the table. *)
Lemma uploadFile_history uuid userId file folderId w :
  let P := blob_path (UPLOAD_DIR w) userId uuid (upload_name file) in
  let out := fileController.uploadFile uuid userId file folderId w in
  ∃ evs, log out.2 = (log w ++ evs)%list ∧
    (∃ answer, out.1 = Ok answer) ∧
    (∀ before later, evs = (before ++ Executed InsertFile :: later)%list →
       WriteFile P ∈ before) ∧
    (∀ p, is_Some (blobs (disk w) !! p) → is_Some (blobs (disk out.2) !! p)) ∧
    (WriteFile P ∈ evs → blobs (disk out.2) !! P = Some (arrayBuffer file)) ∧
    (WriteFile P ∈ evs → Executed InsertFile ∉ evs →
       out.1 = Ok (Failure "Failed to upload file") ∧ Rollback ∈ evs ∧
       store out.2 = store w) ∧
    (∀ f, f ∈ files (store out.2) →
       f ∈ files (store w) ∨
       (file_path f = Js.replace P (UPLOAD_DIR w) "" ∧ WriteFile P ∈ evs)).
Proof.
  cbv zeta.
  change (wp (fileController.uploadFile uuid userId file folderId)
    (λ r w',
      ∃ evs, log w' = (log w ++ evs)%list ∧
      (∃ answer, r = Ok answer) ∧
      (∀ before later, evs = (before ++ Executed InsertFile :: later)%list →
         WriteFile (blob_path (UPLOAD_DIR w) userId uuid (upload_name file)) ∈ before) ∧
      (∀ p, is_Some (blobs (disk w) !! p) → is_Some (blobs (disk w') !! p)) ∧
      (WriteFile (blob_path (UPLOAD_DIR w) userId uuid (upload_name file)) ∈ evs →
         blobs (disk w') !! blob_path (UPLOAD_DIR w) userId uuid (upload_name file) =
           Some (arrayBuffer file)) ∧
      (WriteFile (blob_path (UPLOAD_DIR w) userId uuid (upload_name file)) ∈ evs →
         Executed InsertFile ∉ evs →
         r = Ok (Failure "Failed to upload file") ∧ Rollback ∈ evs ∧ store w' = store w) ∧
      (∀ f, f ∈ files (store w') →
         f ∈ files (store w) ∨
         (file_path f =
            Js.replace (blob_path (UPLOAD_DIR w) userId uuid (upload_name file))
              (UPLOAD_DIR w) "" ∧
          WriteFile (blob_path (UPLOAD_DIR w) userId uuid (upload_name file)) ∈ evs))) w).
  unfold fileController.uploadFile.
  repeat first
    [ wp_step
    | apply wp_saveFile; intros [[? ?]| |] w1 Hs Hc Hr Hf Hb Ho; wp_pure;
      [destruct Ho as ([= -> ->] & Hblob & Hlog)|destruct Ho as [Hblobs Hlog]|done] ].
  all: rewrite ?Hlog, ?Hs.
  all: try (upload_leaf Hs Hb Hblob).
  all: upload_leaf Hs Hb Hblobs.
Qed.

(** C7: with the storage root [./uploads], the value the README puts in
    [.env], [uploadFile] succeeds and commits a row whose [file_path] is the
    string [saveFile] returned, [uploads/user_1/0f8/fad/<id>.txt]. The blob
    was written at that path, relative to the working directory; the
    readers resolve [file_path] below the storage root, to
    [uploads/uploads/user_1/...], where nothing was ever written, so that
    the download of the file just uploaded fails. *)
Theorem uploadFile_row_misses_its_blob :
  let w := boot "./uploads" initDatabase in
  let stored := "uploads/user_1/0f8/fad/0f8fad5b-d9cb-469f-a165-70867728950e.txt" in
  let out := fileController.uploadFile uuid1 1 a_txt None w in
  out.1 = Ok (Success (FileInfo 1 (Some ("a.txt", 10, "text/plain")))) ∧
  files (store out.2) = [mkFile 1 1 None "a.txt" stored "text/plain" 10] ∧
  map_to_list (blobs (disk out.2)) = [(stored, arrayBuffer a_txt)] ∧
  Path.join [UPLOAD_DIR out.2; stored] = "uploads/" +:+ stored ∧
  blobs (disk out.2) !! Path.join [UPLOAD_DIR out.2; stored] = None ∧
  (fileStorage.getFile stored out.2).1 = Thrown ∧
  (fileController.downloadFile 1 1 out.2).1 =
    Ok (NotDownloaded "Failed to download file").
Proof. repeat split; vm_compute; reflexivity. Qed.

(** ** The sidebar tree *)

Section Tree.

Variable rows : list folder_row.
Variable shown : list folder_row.
Hypothesis keys : NoDup (folder_id <$> rows).
Hypothesis no_cycle : acyclic rows.
Hypothesis rows_shown : ∀ r, r ∈ rows → r ∈ shown.









End Tree.






(** ** Root listings and the folder id 0 *)

(** C10: [getFilesInFolder] and [getSubfolders] called with folder id [0]
    behave exactly like the calls with [null]: same response and same
    effects, in every world; on a cache miss that is the listing of the
    owner's rows whose folder (parent) is NULL, stored under the owner's
    root key. *)
Theorem zero_folder_id_is_root (userId : Z) (w : world) :
  fileController.getFilesInFolder userId (Some 0) w =
    fileController.getFilesInFolder userId None w ∧
  folderController.getSubfolders userId (Some 0) w =
    folderController.getSubfolders userId None w ∧
  (store_failure w = None →
   cache w !! ("user:" +:+ show userId +:+ ":root:files") = None →
   ∃ w', fileController.getFilesInFolder userId (Some 0) w =
           (Ok (Success (FileList (file_item_of <$> Sql.order_files_by_name
              (filter (λ f, file_user_id f = userId ∧ file_folder_id f = None)
                 (files (store w)))))), w') ∧
         store w' = store w ∧
         log w' = (log w ++ [CacheSet ("user:" +:+ show userId +:+ ":root:files")])%list) ∧
  (store_failure w = None →
   cache w !! ("user:" +:+ show userId +:+ ":root:subfolders") = None →
   ∃ w', folderController.getSubfolders userId (Some 0) w =
           (Ok (Success (FolderList (folder_item_of <$> Sql.order_folders_by_name
              (filter (λ r, folder_user_id r = userId ∧ parent_folder_id r = None)
                 (folders (store w)))))), w') ∧
         store w' = store w ∧
         log w' = (log w ++ [CacheSet ("user:" +:+ show userId +:+ ":root:subfolders")])%list).
Proof.
  split; [reflexivity|]. split; [reflexivity|]. split.
  - intros Hf Hc.
    unfold fileController.getFilesInFolder, Connection.with_connection, try_catch,
      Connection.select, Connection.accept, cacheMiddleware.get, cacheMiddleware.set,
      lift, bind, gets, modify, ret. simpl. rewrite Hc, Hf. simpl.
    eexists. split; [reflexivity|]. split; reflexivity.
  - intros Hf Hc.
    unfold folderController.getSubfolders, Connection.with_connection, try_catch,
      Connection.select, Connection.accept, cacheMiddleware.get, cacheMiddleware.set,
      lift, bind, gets, modify, ret. simpl. rewrite Hc, Hf. simpl.
    eexists. split; [reflexivity|]. split; reflexivity.
Qed.

(** ** Owner isolation of [getFileDetails] *)

(** A cached entry is served before any row is looked up, to any user. *)
Lemma getFileDetails_cache_hit (userId fileId : Z) (cached : value) (w : world) :
  cache w !! ("file:" +:+ show fileId) = Some cached →
  fileController.getFileDetails userId fileId w = (Ok (Success cached), w).
Proof.
  intros Hc.
  unfold fileController.getFileDetails, Connection.with_connection, try_catch,
    cacheMiddleware.get, lift, bind, gets. simpl. rewrite Hc. reflexivity.
Qed.

(** C4: owner 1 uploads [a.txt] (file id 1). Owner 2 asking for file 1 is
    told [File not found] while the cache is cold, but receives owner 1's
    file details once owner 1 has read them: the cache key [file:1] does
    not carry the owner, and the cache is consulted before the
    owner-filtered query. *)
Theorem getFileDetails_leaks_cached_file :
  let w1 := (fileController.uploadFile uuid1 1 a_txt None
               (boot "/srv/cmed/uploads" two_owners)).2 in
  let w2 := (fileController.getFileDetails 1 1 w1).2 in
  file_user_id <$> files (store w1) = [1] ∧
  (fileController.getFileDetails 2 1 w1).1 = Ok (Failure "File not found") ∧
  (fileController.getFileDetails 2 1 w2).1 =
    Ok (Success (FileDetails (mkFileItem 1 "a.txt" 10 "text/plain" None))).
Proof. repeat split; vm_compute; reflexivity. Qed.

(** ** Folder names *)

(** C6: [validateFolderName] rejects [a/b] and [x|y], yet [createFolder]
    stores a folder named [a/b] and [renameFolder] renames [Root] to [x|y]:
    neither controller calls the validator. *)
Theorem folder_names_are_not_validated :
  isValid (validateFolderName "a/b") = false ∧
  isValid (validateFolderName "x|y") = false ∧
  let r1 := folderController.createFolder 1 "a/b" None
              (boot "/srv/cmed/uploads" initDatabase) in
  let r2 := folderController.renameFolder 1 1 "x|y" r1.2 in
  r1.1 = Ok (Success (FolderInfo 2 (Some ("a/b", None)))) ∧
  r2.1 = Ok (Success (FolderInfo 1 (Some ("x|y", None)))) ∧
  folders (store r2.2) = [mkFolder 1 1 None "x|y"; mkFolder 2 1 None "a/b"].
Proof. repeat split; vm_compute; reflexivity. Qed.

(** ** Atomicity of [deleteFolder] *)

(** C2: the store fails at the [DELETE] of the folder row. [deleteFolder]
    answers with a failure and rolls its transaction back, so the folder
    [Docs] is still there; but the row of [a.txt] is gone for good (and so
    is its blob): [fileController.deleteFile] had deleted it on a
    connection and in a transaction of its own, committed before the
    failure. *)
Theorem deleteFolder_failure_keeps_file_deletions :
  let before := docs_with_file_then_failure in
  let after := folderController.deleteFolder 5 1 2 before in
  file_id <$> files (store before) = [1] ∧
  after.1 = Ok (Failure "Failed to delete folder") ∧
  folders (store after.2) = folders (store before) ∧
  files (store after.2) = [] ∧
  blobs (disk after.2) = ∅ ∧
  effects (folderController.deleteFolder 5 1 2) before =
    [BeginTransaction;
       BeginTransaction;
       Unlink "/srv/cmed/uploads/user_1/0f8/fad/0f8fad5b-d9cb-469f-a165-70867728950e.txt";
       Executed DeleteFile;
       CacheDelete "file:1"; CacheDelete "folder:2:contents"; CacheDelete "user:1:folders";
       Commit;
     Rollback].
Proof. repeat split; vm_compute; reflexivity. Qed.

(** ** The path [saveFile] returns *)

(** C9: with the storage root [./uploads] (the value the README puts in
    [.env]), [join] drops the leading [./], so [replace(UPLOAD_DIR, '')]
    finds nothing to strip: [saveFile] writes the blob under
    [uploads/user_1/0f8/fad/] and returns that same path, which is relative
    to the working directory, not to the storage root; [getFile] on the
    returned path looks below [uploads/uploads/] and fails. With the root
    [/data//uploads] the returned path is absolute. *)
Theorem saveFile_path_not_relative_to_root :
  let w := boot "./uploads" initDatabase in
  let saved := fileStorage.saveFile uuid1 1 (arrayBuffer a_txt) "a.txt" w in
  saved.1 = Ok ("uploads/user_1/0f8/fad/0f8fad5b-d9cb-469f-a165-70867728950e.txt", uuid1) ∧
  blobs (disk saved.2) !!
    "uploads/user_1/0f8/fad/0f8fad5b-d9cb-469f-a165-70867728950e.txt" =
    Some (arrayBuffer a_txt) ∧
  (fileStorage.getFile "uploads/user_1/0f8/fad/0f8fad5b-d9cb-469f-a165-70867728950e.txt"
     saved.2).1 = Thrown ∧
  Path.join ["./uploads";
             "uploads/user_1/0f8/fad/0f8fad5b-d9cb-469f-a165-70867728950e.txt"] =
    "uploads/uploads/user_1/0f8/fad/0f8fad5b-d9cb-469f-a165-70867728950e.txt" ∧
  (fileStorage.saveFile uuid1 1 (arrayBuffer a_txt) "a.txt"
     (boot "/data//uploads" initDatabase)).1 =
    Ok ("/data/uploads/user_1/0f8/fad/0f8fad5b-d9cb-469f-a165-70867728950e.txt", uuid1).
Proof. repeat split; vm_compute; reflexivity. Qed.

(** * Further properties *)

(** ** Strings *)

Lemma chars_app (s t : string) :
  list_ascii_of_string (s +:+ t) = (list_ascii_of_string s ++ list_ascii_of_string t)%list.
Proof. induction s as [|c s IH]; simpl; [done|]. by rewrite IH. Qed.

Lemma chars_inj (s t : string) : list_ascii_of_string s = list_ascii_of_string t → s = t.
Proof.
  intros H. rewrite <- (string_of_list_ascii_of_string s), H.
  apply string_of_list_ascii_of_string.
Qed.

Lemma chars_rev_app (s acc : string) :
  list_ascii_of_string (String.rev_app s acc) =
  (rev (list_ascii_of_string s) ++ list_ascii_of_string acc)%list.
Proof.
  revert acc. induction s as [|c s IH]; intros acc; simpl; [done|].
  rewrite IH. simpl. by rewrite <- app_assoc.
Qed.

Lemma chars_rev (s : string) :
  list_ascii_of_string (String.rev s) = rev (list_ascii_of_string s).
Proof. unfold String.rev. rewrite chars_rev_app. simpl. apply app_nil_r. Qed.

Lemma chars_nil (s : string) : list_ascii_of_string s = [] ↔ s = "".
Proof. destruct s; simpl; split; congruence. Qed.

(** ** The upload validators *)

Lemma split_go_piece (sep : ascii) (e cur : string) :
  sep ∉ list_ascii_of_string e →
  Js.split_go sep e cur = [String.rev cur +:+ e].
Proof.
  revert cur. induction e as [|c e IH]; intros cur Hfree; simpl.
  - f_equal. apply chars_inj. rewrite chars_app. simpl. by rewrite app_nil_r.
  - simpl in Hfree. apply not_elem_of_cons in Hfree as [Hc He].
    destruct (Ascii.eqb_spec c sep) as [->|_]; [done|].
    rewrite IH by done. f_equal. apply chars_inj.
    rewrite !chars_app, !chars_rev. simpl. by rewrite <- app_assoc.
Qed.

Lemma split_go_last_piece (sep : ascii) (stem e cur : string) :
  sep ∉ list_ascii_of_string e →
  last (Js.split_go sep (stem +:+ String sep e) cur) = Some e.
Proof.
  intros Hfree. revert cur. induction stem as [|c stem IH]; intros cur; simpl.
  - rewrite Ascii.eqb_refl. rewrite split_go_piece by done. done.
  - destruct (Ascii.eqb c sep).
    + specialize (IH ""). destruct (Js.split_go sep (stem +:+ String sep e) "");
        [done|]. done.
    + apply IH.
Qed.

Lemma split_go_last (sep : ascii) (s cur : string) :
  ((sep ∉ list_ascii_of_string s) ∧
   last (Js.split_go sep s cur) = Some (String.rev cur +:+ s)) ∨
  (∃ stem e, s = stem +:+ String sep e ∧ (sep ∉ list_ascii_of_string e) ∧
             last (Js.split_go sep s cur) = Some e).
Proof.
  destruct (decide (sep ∈ list_ascii_of_string s)) as [Hin|Hfree].
  - right. revert cur. induction s as [|c s IH]; intros cur; simpl in *.
    { by apply elem_of_nil in Hin. }
    destruct (decide (sep ∈ list_ascii_of_string s)) as [Hin'|Hfree'].
    + destruct (IH Hin' (if Ascii.eqb c sep then "" else String c cur))
        as (stem & e & -> & He & Hlast).
      exists (String c stem), e. repeat split; [done|].
      destruct (Ascii.eqb c sep); [|done].
      destruct (Js.split_go sep (stem +:+ String sep e) ""); done.
    + apply elem_of_cons in Hin as [->|]; [|done].
      exists "", s. repeat split; [done|].
      rewrite Ascii.eqb_refl, split_go_piece by done. done.
  - left. split; [done|]. by rewrite split_go_piece.
Qed.

Lemma allowed_extension (extension : string) :
  (String.eqb extension "" ||
   negb (bool_decide (extension ∈ ALLOWED_FILE_EXTENSIONS)))%bool = false ↔
  extension ∈ ALLOWED_FILE_EXTENSIONS.
Proof.
  rewrite orb_false_iff, negb_false_iff, bool_decide_eq_true. split; [tauto|].
  intros Hin. split; [|done]. apply String.eqb_neq. intros ->.
  revert Hin. by apply (bool_decide_unpack _).
Qed.

(** [validateFileUpload] accepts a file exactly when its size is at most
    100 MB, the text after the last dot of its name, or the whole name when
    it has no dot, is an allowed extension up to case, and its content type
    starts with neither [video/] nor [audio/]. [validateFile] of
    src/types/fileTypes.ts gives the same answer. *)
Theorem validateFileUpload_accepts (file : UploadedFile) :
  validateFile file = validateFileUpload (Some file) ∧
  (isValid (validateFileUpload (Some file)) = true ↔
   upload_size file ≤ 104857600 ∧
   (∃ ext, ends_with_extension (upload_name file) ext ∧ ¬ occurs "." ext ∧
           Js.toLowerCase ext ∈ ALLOWED_FILE_EXTENSIONS) ∧
   ∀ prefix, prefix ∈ DISALLOWED_MIME_TYPES →
     String.prefix prefix (upload_type file) = false).
Proof.
  split; [reflexivity|].
  unfold validateFileUpload, extension_of, Js.split, occurs.
  change MAX_FILE_SIZE with 104857600.
  assert (last (Js.split_go "." (upload_name file) "") = Some (upload_name file) ∧
          ("."%char ∉ list_ascii_of_string (upload_name file)) ∨
          ∃ stem e, upload_name file = stem +:+ "." +:+ e ∧
                    ("."%char ∉ list_ascii_of_string e) ∧
                    last (Js.split_go "." (upload_name file) "") = Some e) as Hlast.
  { destruct (split_go_last "." (upload_name file) "") as [[Hfree Hl]|(stem & e & He & Hfree & Hl)].
    - left. split; [|done]. rewrite Hl. done.
    - right. exists stem, e. done. }
  assert ((∃ ext, ends_with_extension (upload_name file) ext ∧
                  ("."%char ∉ list_ascii_of_string ext) ∧
                  Js.toLowerCase ext ∈ ALLOWED_FILE_EXTENSIONS) ↔
          Js.toLowerCase (default "" (last (Js.split_go "." (upload_name file) "")))
            ∈ ALLOWED_FILE_EXTENSIONS) as ->.
  { split.
    - intros (ext & [Hname|(stem & Hname)] & Hfree & Hallowed); rewrite Hname.
      + rewrite split_go_piece by done. done.
      + change (stem +:+ "." +:+ ext) with (stem +:+ String "." ext).
        rewrite split_go_last_piece by done. done.
    - intros Hallowed. destruct Hlast as [[Hl Hfree]|(stem & e & Hname & Hfree & Hl)];
        rewrite Hl in Hallowed; simpl in Hallowed.
      + exists (upload_name file). split; [by left|done].
      + exists e. split; [right; eauto|done]. }
  destruct (104857600 <? upload_size file) eqn:Hsize.
  { apply Z.ltb_lt in Hsize. simpl. split; [done|]. lia. }
  apply Z.ltb_ge in Hsize. cbv zeta.
  destruct (_ || _)%bool eqn:Hext.
  { simpl. split; [done|]. intros (_ & Hallowed & _).
    apply allowed_extension in Hallowed. congruence. }
  apply allowed_extension in Hext.
  destruct (existsb _ _) eqn:Hmime; simpl.
  - split; [done|]. intros (_ & _ & Hnone).
    apply existsb_exists in Hmime as (prefix & Hin & Hstarts).
    apply list_elem_of_In in Hin. unfold Js.startsWith in Hstarts.
    rewrite (Hnone prefix Hin) in Hstarts. done.
  - split; [|done]. intros _. repeat split; [done..|].
    intros prefix Hin. apply list_elem_of_In in Hin.
    destruct (String.prefix prefix (upload_type file)) eqn:Hp; [|done].
    assert (existsb (Js.startsWith (upload_type file)) DISALLOWED_MIME_TYPES = true);
      [|congruence].
    apply existsb_exists. eauto.
Qed.

Lemma invalid_has_message (file : UploadedFile) :
  isValid (validateFileUpload (Some file)) = false →
  ∃ e, error (validateFileUpload (Some file)) = Some e ∧
       error_or "Invalid file" (error (validateFileUpload (Some file))) = e.
Proof.
  unfold validateFileUpload. cbv zeta.
  destruct (_ <? _); [by eexists|].
  destruct (_ || _)%bool; [by eexists|].
  destruct (existsb _ _); [by eexists|done].
Qed.

Lemma validateFiles_from_spec files validFiles invalidFiles :
  validateFiles_from files validFiles invalidFiles =
  ((validFiles ++
      filter (λ f, isValid (validateFileUpload (Some f)) = true) files)%list,
   (invalidFiles ++
      ((λ f, (f, error_or "Invalid file" (error (validateFileUpload (Some f))))) <$>
       filter (λ f, isValid (validateFileUpload (Some f)) = false) files))%list).
Proof.
  revert validFiles invalidFiles.
  induction files as [|file files IH]; intros validFiles invalidFiles.
  { simpl. by rewrite !app_nil_r. }
  cbn [validateFiles_from]. cbv zeta.
  destruct (isValid (validateFileUpload (Some file))) eqn:Hvalid; rewrite IH.
  - rewrite filter_cons_True, filter_cons_False by congruence.
    by rewrite <- app_assoc.
  - rewrite filter_cons_False, filter_cons_True by congruence.
    rewrite fmap_cons, <- app_assoc. done.
Qed.

(** [validateFiles] sorts every file into exactly one of its two lists
    without changing the order: [validFiles] are the files
    [validateFileUpload] accepts, [invalidFiles] the others, each with the
    message [validateFileUpload] gave for it (the fallback ['Invalid file']
    never shows). *)
Theorem validateFiles_partitions (files : list UploadedFile) :
  let validFiles := (validateFiles files).1 in
  let invalidFiles := (validateFiles files).2 in
  validFiles = filter (λ f, isValid (validateFileUpload (Some f)) = true) files ∧
  invalidFiles.*1 = filter (λ f, isValid (validateFileUpload (Some f)) = false) files ∧
  (∀ f e, (f, e) ∈ invalidFiles → error (validateFileUpload (Some f)) = Some e) ∧
  (length validFiles + length invalidFiles = length files)%nat.
Proof.
  unfold validateFiles. rewrite validateFiles_from_spec. cbn [fst snd app].
  split; [done|]. split; [|split].
  - rewrite <- list_fmap_compose. apply list_fmap_id.
  - intros f e (f' & Heq & [Hinvalid _]%list_elem_of_filter)%list_elem_of_fmap.
    destruct (invalid_has_message f' Hinvalid) as (e' & He & Hfall).
    assert (f = f') as -> by congruence.
    assert (e = e') as -> by congruence. done.
  - rewrite length_fmap.
    induction files as [|file files IH]; [done|].
    destruct (isValid (validateFileUpload (Some file))) eqn:Hvalid.
    + rewrite filter_cons_True, filter_cons_False by congruence. cbn [length]. lia.
    + rewrite filter_cons_False, filter_cons_True by congruence. cbn [length]. lia.
Qed.

(** ** The folder-name validator *)

Lemma includes_char (s : string) (c : ascii) :
  Js.includes s (String c "") = true ↔ occurs c s.
Proof.
  unfold Js.includes, occurs. induction s as [|b s IH]; simpl.
  { split; [done|]. intros H. by apply elem_of_nil in H. }
  destruct (ascii_dec c b) as [->|Hne].
  { destruct s; simpl; split; auto using list_elem_of_here. }
  rewrite elem_of_cons. destruct (index 0 (String c "") s); split; tauto.
Qed.

Lemma trim_start_blank (s : string) :
  Js.trim_start s = "" ↔ Forall (λ c, Js.is_space c = true) (list_ascii_of_string s).
Proof.
  induction s as [|c s IH]; simpl; [by split|].
  destruct (Js.is_space c) eqn:Hc.
  - rewrite IH. split; [by constructor|]. by inversion 1.
  - split; [done|]. inversion 1. congruence.
Qed.

Lemma trim_blank (s : string) :
  Js.trim s = "" ↔ Forall (λ c, Js.is_space c = true) (list_ascii_of_string s).
Proof.
  unfold Js.trim. rewrite <- trim_start_blank.
  rewrite <- (chars_nil (String.rev _)), chars_rev.
  assert (∀ l : list ascii, rev l = [] ↔ l = []) as Hrev.
  { intros l. split; [|by intros ->]. intros H. apply (f_equal (@rev _)) in H.
    by rewrite rev_involutive in H. }
  rewrite Hrev, chars_nil, trim_start_blank, chars_rev.
  split.
  - intros Hall. destruct (Js.trim_start s) as [|c t] eqn:Ht; [done|].
    exfalso. assert (Js.is_space c = false) as Hc.
    { clear Hall. induction s as [|b s IH]; simpl in Ht; [done|].
      destruct (Js.is_space b) eqn:Hb; [auto|]. congruence. }
    apply Forall_forall with (x := c) in Hall; [congruence|].
    apply list_elem_of_In, in_rev. rewrite rev_involutive. by left.
  - intros ->. simpl. constructor.
Qed.

Lemma first_invalid_char_none (name : string) (chars : list ascii) :
  first_invalid_char name ((λ c, String c "") <$> chars) = None ↔
  ∀ c, c ∈ chars → ¬ occurs c name.
Proof.
  induction chars as [|c chars IH]; simpl.
  { split; [|done]. intros _ c H. by apply elem_of_nil in H. }
  destruct (Js.includes name (String c "")) eqn:Hc.
  - apply includes_char in Hc. split; [done|]. intros H.
    destruct (H c); [apply list_elem_of_here|done].
  - rewrite IH. split.
    + intros H c' [->|Hin]%elem_of_cons; [|by apply H].
      rewrite <- includes_char. congruence.
    + intros H c' Hin. apply H. by apply list_elem_of_further.
Qed.

(** [validateFolderName] accepts a name exactly when it has a character
    that is not white space, has at most 255 characters, and holds none of
    the nine characters of [invalidChars] (slash, backslash, colon, star,
    question mark, double quote, the two angle brackets, the bar). *)
Theorem validateFolderName_accepts (name : string) :
  isValid (validateFolderName name) = true ↔
  (∃ c, occurs c name ∧ Js.is_space c = false) ∧
  (String.length name ≤ 255)%nat ∧
  ∀ c, c ∈ forbidden_chars → ¬ occurs c name.
Proof.
  unfold validateFolderName.
  assert ((name =? "")%string || (Js.trim name =? "")%string = true ↔
          ¬ ∃ c, occurs c name ∧ Js.is_space c = false) as Hblank.
  { rewrite orb_true_iff, !String.eqb_eq. split.
    - intros Hb (c & Hc & Hs).
      assert (Js.trim name = "") as Ht by (destruct Hb as [->|]; done).
      apply trim_blank in Ht. apply Forall_forall with (x := c) in Ht; [congruence|done].
    - intros Hnone. right. apply trim_blank, Forall_forall. intros c Hc.
      destruct (Js.is_space c) eqn:Hs; [done|]. destruct Hnone. eauto. }
  destruct (_ || _)%bool.
  { simpl. split; [done|]. intros [Hc _]. by apply Hblank in Hc. }
  assert (∃ c, occurs c name ∧ Js.is_space c = false) as Hsome.
  { destruct (decide (Exists (λ c, Js.is_space c = false) (list_ascii_of_string name)))
      as [(c & Hc & Hs)%Exists_exists|Hno]; [by exists c|].
    assert (false = true); [|done]. apply Hblank. intros (c & Hc & Hs).
    apply Hno, Exists_exists. eauto. }
  destruct (255 <? String.length name)%nat eqn:Hlen.
  { apply Nat.ltb_lt in Hlen. simpl. split; [done|]. lia. }
  apply Nat.ltb_ge in Hlen.
  change invalidChars with ((λ c, String c "") <$> forbidden_chars).
  destruct (first_invalid_char _ _) eqn:Hchar; simpl.
  - split; [done|]. intros (_ & _ & Hnone).
    apply first_invalid_char_none in Hnone. congruence.
  - pose proof (proj1 (first_invalid_char_none _ _) Hchar). done.
Qed.

(** ** Cache keys *)

Lemma pretty_N_char_digit (n : N) : pretty_N_char n ≠ ":"%char.
Proof. unfold pretty_N_char. repeat case_match; done. Qed.

Lemma pretty_N_go_no_colon (x : N) (s : string) :
  ¬ occurs ":" s → ¬ occurs ":" (pretty_N_go x s).
Proof.
  revert s. induction x as [x IH] using (well_founded_induction N.lt_wf_0).
  intros s Hs. destruct (decide (0 < x)%N) as [Hpos|Hzero].
  - rewrite pretty_N_go_step by done. apply IH.
    + by apply N.div_lt.
    + unfold occurs. simpl. intros [Hc|Hin]%elem_of_cons; [|done].
      by apply (pretty_N_char_digit (x `mod` 10)).
  - assert (x = 0%N) as -> by lia. by rewrite pretty_N_go_0.
Qed.

Lemma show_no_colon (n : Z) : ¬ occurs ":" (show n).
Proof.
  assert (∀ p : positive, ¬ occurs ":" (pretty p)) as Hpos.
  { intros p. unfold pretty, pretty_positive, pretty, pretty_N.
    case_decide; [done|]. apply pretty_N_go_no_colon.
    intros H0. by apply elem_of_nil in H0. }
  unfold show, pretty, pretty_Z. destruct n as [|p|p].
  - unfold occurs. simpl. intros [?|H0]%elem_of_cons; [done|]. by apply elem_of_nil in H0.
  - apply Hpos.
  - unfold occurs. simpl. intros [?|H0]%elem_of_cons; [done|]. by apply (Hpos p).
Qed.

Lemma show_inj (a b : Z) : show a = show b → a = b.
Proof. apply pretty_Z_inj. Qed.

(** Two keys that agree up to their first colon agree before and after it. *)
Lemma key_split (x y s t : string) :
  ¬ occurs ":" x → ¬ occurs ":" y →
  x +:+ String ":" s = y +:+ String ":" t → x = y ∧ s = t.
Proof.
  unfold occurs. revert y. induction x as [|c x IH]; intros [|d y] Hx Hy; simpl in *.
  - by intros [= ->].
  - intros [= <- _]. destruct Hy. apply list_elem_of_here.
  - intros [= -> _]. destruct Hx. apply list_elem_of_here.
  - intros [= -> H]. apply not_elem_of_cons in Hx as [_ Hx], Hy as [_ Hy].
    destruct (IH y Hx Hy H) as [-> ->]. done.
Qed.

Lemma prefix_app (p k : string) :
  String.prefix p k = true → ∃ rest, k = p +:+ rest.
Proof.
  revert k. induction p as [|c p IH]; intros k.
  { intros _. by exists k. }
  destruct k as [|d k]; simpl; [done|]. destruct (ascii_dec c d) as [->|]; [|done].
  intros (rest & ->)%IH. by exists rest.
Qed.

Lemma append_assoc (a b c : string) : (a +:+ b) +:+ c = a +:+ (b +:+ c).
Proof. apply chars_inj. rewrite !chars_app. by rewrite app_assoc. Qed.

Lemma append_cons (c : ascii) (s t : string) : String c s +:+ t = String c (s +:+ t).
Proof. reflexivity. Qed.

Lemma append_nil (t : string) : "" +:+ t = t.
Proof. reflexivity. Qed.

Lemma colon_free_neq (x y s : string) :
  ¬ occurs ":" x → x ≠ y +:+ String ":" s.
Proof.
  intros Hx ->. apply Hx. unfold occurs. rewrite chars_app. simpl.
  apply elem_of_app. right. apply list_elem_of_here.
Qed.

(** Keys differ when they differ before the number, in the number, or after it. *)
Ltac key_neq :=
  let H := fresh "Hkey" in
  intros H; rewrite ?append_assoc, ?append_cons, ?append_nil in H;
  first
    [ discriminate H
    | simplify_eq;
      match goal with
      | H : _ +:+ String ":" _ = _ +:+ String ":" _ |- _ =>
          apply key_split in H as [?%show_inj ?]; [|apply show_no_colon..];
          first [discriminate | congruence]
      | H : show _ = _ +:+ String ":" _ |- _ =>
          by apply colon_free_neq in H; [|apply show_no_colon]
      | H : _ +:+ String ":" _ = show _ |- _ =>
          symmetry in H; by apply colon_free_neq in H; [|apply show_no_colon]
      end ].

Lemma lookup_pattern_ne (prefix key : string) (m : gmap string value) :
  String.prefix prefix key = false →
  filter (λ kv, String.prefix prefix kv.1 = false) m !! key = m !! key.
Proof.
  intros Hne. destruct (m !! key) as [v|] eqn:Hv.
  - by apply map_lookup_filter_Some_2.
  - apply map_lookup_filter_None_2. by left.
Qed.

Lemma tree_pattern_misses_listing (u : Z) (key : string) :
  listing_key key →
  String.prefix ("user:" +:+ show u +:+ ":folder_tree") key = false.
Proof.
  intros Hkey. destruct (String.prefix _ key) eqn:Hp; [|done].
  apply prefix_app in Hp as (rest & Hp). exfalso. revert Hp.
  destruct Hkey as [(n & ->)|[(v & ->)|(v & ->)]]; key_neq.
Qed.

(** What the six mutations delete from the cache is never a listing key. *)
Ltac listing_kept Hkey :=
  repeat first
    [ rewrite lookup_delete_ne
        by (destruct Hkey as [(? & ->)|[(? & ->)|(? & ->)]]; key_neq)
    | rewrite lookup_pattern_ne by (by apply tree_pattern_misses_listing) ].

(** ** Listings that no mutation invalidates *)

Lemma deleteFile_keeps_listing userId fileId key w :
  listing_key key →
  cache (fileController.deleteFile userId fileId w).2 !! key = cache w !! key.
Proof.
  intros Hkey.
  change (wp (fileController.deleteFile userId fileId)
            (λ _ w', cache w' !! key = cache w !! key) w).
  unfold fileController.deleteFile.
  repeat wp_step; open_disk_changed; rewrite ?Ec; listing_kept Hkey; done.
Qed.

Lemma uploadFile_keeps_listing uuid userId file folderId key w :
  listing_key key →
  cache (fileController.uploadFile uuid userId file folderId w).2 !! key = cache w !! key.
Proof.
  intros Hkey.
  change (wp (fileController.uploadFile uuid userId file folderId)
            (λ _ w', cache w' !! key = cache w !! key) w).
  unfold fileController.uploadFile.
  repeat first
    [ wp_step
    | apply wp_touches_disk; [apply saveFile_touches_disk|intros [?| |] ? ?]; wp_pure ];
    open_disk_changed; rewrite ?Ec; listing_kept Hkey; done.
Qed.

Lemma createFolder_keeps_listing userId name parentFolderId key w :
  listing_key key →
  cache (folderController.createFolder userId name parentFolderId w).2 !! key =
  cache w !! key.
Proof.
  intros Hkey.
  change (wp (folderController.createFolder userId name parentFolderId)
            (λ _ w', cache w' !! key = cache w !! key) w).
  unfold folderController.createFolder.
  repeat wp_step; listing_kept Hkey; done.
Qed.

Lemma renameFolder_keeps_listing userId folderId newName key w :
  listing_key key →
  cache (folderController.renameFolder userId folderId newName w).2 !! key =
  cache w !! key.
Proof.
  intros Hkey.
  change (wp (folderController.renameFolder userId folderId newName)
            (λ _ w', cache w' !! key = cache w !! key) w).
  unfold folderController.renameFolder.
  repeat wp_step; listing_kept Hkey; done.
Qed.

Lemma moveFolder_keeps_listing fuel userId folderId newParentId key w :
  listing_key key →
  cache (folderController.moveFolder fuel userId folderId newParentId w).2 !! key =
  cache w !! key.
Proof.
  intros Hkey.
  change (wp (folderController.moveFolder fuel userId folderId newParentId)
            (λ _ w', cache w' !! key = cache w !! key) w).
  unfold folderController.moveFolder.
  repeat first
    [ wp_step
    | apply wp_isDescendant; intros ? [[|]| |] ? ];
    listing_kept Hkey; done.
Qed.

Lemma wp_lift_fact {A} (m : M world A) (P : world → world → Prop) Q c w :
  P w (m w).2 → (∀ r w', P w w' → Q r (c, w')) → wp (lift m) Q (c, w).
Proof. intros Hm H. apply wp_lift. unfold wp. by apply H. Qed.

Lemma deleteFolder_keeps_listing fuel userId folderId key w :
  listing_key key →
  cache (folderController.deleteFolder fuel userId folderId w).2 !! key =
  cache w !! key.
Proof.
  intros Hkey.
  change (wp (folderController.deleteFolder fuel userId folderId)
            (λ _ w', cache w' !! key = cache w !! key) w).
  unfold folderController.deleteFolder.
  repeat wp_step; try done.
  eapply (wp_for_each
            (λ s, ∃ w1, s = (InTransaction None, w1) ∧ cache w1 !! key = cache w !! key)).
  { eexists. split; [done|]. by wp_pure. }
  { intros file s _ (w1 & -> & Hw1). wp_pure. wp_step.
    apply (wp_lift_fact _ (λ w w', cache w' !! key = cache w !! key));
      [by apply deleteFile_keeps_listing|].
    intros r w2 Hstep. rewrite Hw1 in Hstep.
    destruct r; wp_pure; repeat wp_step; first [by eauto | exact Hstep]. }
  intros s' (w1 & -> & Hw1).
  wp_pure.
  repeat first
    [ wp_step
    | apply wp_getSubfolders; intros ? [?| |] ? ];
    listing_kept Hkey; done.
Qed.

Lemma mutate_keeps_listing (m : mutation) key w :
  listing_key key → cache (mutate m w).2 !! key = cache w !! key.
Proof.
  destruct m as [[| | |]| |]; simpl.
  - apply createFolder_keeps_listing.
  - apply renameFolder_keeps_listing.
  - apply moveFolder_keeps_listing.
  - apply deleteFolder_keeps_listing.
  - apply uploadFile_keeps_listing.
  - apply deleteFile_keeps_listing.
Qed.

Lemma files_key_listing userId folderId : listing_key (files_key userId folderId).
Proof. unfold files_key, listing_key. destruct (truthy folderId); eauto. Qed.

Lemma getFilesInFolder_hit userId folderId cached w :
  cache w !! files_key userId folderId = Some cached →
  fileController.getFilesInFolder userId folderId w = (Ok (Success cached), w).
Proof.
  intros Hhit. unfold files_key in Hhit.
  unfold fileController.getFilesInFolder, Connection.with_connection, try_catch, bind,
    lift, cacheMiddleware.get, gets.
  cbv zeta. by rewrite Hhit.
Qed.

Lemma getSubfolders_hit userId folderId cached w :
  cache w !! subfolders_key userId folderId = Some cached →
  folderController.getSubfolders userId folderId w = (Ok (Success cached), w).
Proof.
  intros Hhit. unfold subfolders_key in Hhit.
  unfold folderController.getSubfolders, Connection.with_connection, try_catch, bind,
    lift, cacheMiddleware.get, gets.
  cbv zeta. by rewrite Hhit.
Qed.

(** None of [createFolder], [renameFolder], [moveFolder], [deleteFolder],
    [uploadFile] and [deleteFile] drops the key under which
    [getFilesInFolder] caches a listing: a listing that is in the cache is
    what [getFilesInFolder] answers after any of them, unchanged. *)
Theorem cached_file_listing_survives (m : mutation) userId folderId cached w :
  cache w !! files_key userId folderId = Some cached →
  fileController.getFilesInFolder userId folderId (mutate m w).2 =
    (Ok (Success cached), (mutate m w).2).
Proof.
  intros Hhit. apply getFilesInFolder_hit.
  rewrite mutate_keeps_listing; [done|apply files_key_listing].
Qed.

Lemma cached_file_listing_survives_witness :
  let m := Upload uuid1 1 a_txt (Some 2) in
  cache docs_listed !! files_key 1 (Some 2) = Some (FileList []) ∧
  (mutate m docs_listed).1 =
    Ok (Success (FileInfo 1 (Some ("a.txt", 10, "text/plain")))) ∧
  file_folder_id <$> files (store (mutate m docs_listed).2) = [Some 2] ∧
  fileController.getFilesInFolder 1 (Some 2) (mutate m docs_listed).2 =
    (Ok (Success (FileList [])), (mutate m docs_listed).2).
Proof.
  cbv zeta.
  assert (cache docs_listed !! files_key 1 (Some 2) = Some (FileList [])) as Hhit
    by (vm_compute; reflexivity).
  split; [exact Hhit|].
  split; [vm_compute; reflexivity|].
  split; [vm_compute; reflexivity|].
  exact (cached_file_listing_survives (Upload uuid1 1 a_txt (Some 2)) 1 (Some 2)
           (FileList []) docs_listed Hhit).
Defined.

(** Nor does any of the six drop the key of the root-level folder listing:
    a cached answer of [getSubfolders] for the root level (folder id [null]
    or [0]) is what it answers after any of them, unchanged. *)
Theorem cached_root_listing_survives (m : mutation) userId folderId cached w :
  truthy folderId = false →
  cache w !! subfolders_key userId folderId = Some cached →
  folderController.getSubfolders userId folderId (mutate m w).2 =
    (Ok (Success cached), (mutate m w).2).
Proof.
  intros Hroot Hhit. apply getSubfolders_hit.
  rewrite mutate_keeps_listing; [done|].
  unfold subfolders_key, listing_key. rewrite Hroot. eauto.
Qed.

Lemma cached_root_listing_survives_witness :
  let m := OnFolder (CreateFolder 1 "Docs" None) in
  truthy None = false ∧
  cache root_listed !! subfolders_key 1 None =
    Some (FolderList [mkFolderItem 1 "Root" None]) ∧
  (mutate m root_listed).1 = Ok (Success (FolderInfo 2 (Some ("Docs", None)))) ∧
  folder_name <$> folders (store (mutate m root_listed).2) = ["Root"; "Docs"] ∧
  folderController.getSubfolders 1 None (mutate m root_listed).2 =
    (Ok (Success (FolderList [mkFolderItem 1 "Root" None])), (mutate m root_listed).2).
Proof.
  cbv zeta.
  assert (cache root_listed !! subfolders_key 1 None =
          Some (FolderList [mkFolderItem 1 "Root" None])) as Hhit
    by (vm_compute; reflexivity).
  split; [reflexivity|].
  split; [exact Hhit|].
  split; [vm_compute; reflexivity|].
  split; [vm_compute; reflexivity|].
  exact (cached_root_listing_survives (OnFolder (CreateFolder 1 "Docs" None)) 1 None
           (FolderList [mkFolderItem 1 "Root" None]) root_listed eq_refl Hhit).
Defined.

(** ** Listings read from the store *)

Lemma wp_execute_healthy {A} kind (stmt : database → option (A * database)) Q c w :
  store_failure w = None →
  match stmt (Connection.view (c, w)) with
  | Some (a, d') =>
      Q (Ok a) match c with
               | Idle => (Idle, record (Executed kind) (with_store d' w))
               | InTransaction _ => (InTransaction (Some d'), record (Executed kind) w)
               end
  | None => Q Thrown (c, w)
  end →
  wp (Connection.execute kind stmt) Q (c, w).
Proof.
  intros Hf H. unfold wp, Connection.execute, Connection.accept, bind.
  cbn [fst snd]. rewrite Hf.
  destruct (stmt (Connection.view (c, w))) as [[a d']|]; [|done].
  by destruct c.
Qed.

Lemma wp_commit_healthy Q c w :
  store_failure w = None →
  Q (Ok tt) (Idle, record Commit (with_store (Connection.view (c, w)) w)) →
  wp Connection.commit Q (c, w).
Proof.
  intros Hf H. unfold wp, Connection.commit, Connection.accept, bind.
  cbn [fst snd]. by rewrite Hf.
Qed.

(** Stepping while the store answers. *)
Ltac wp_healthy :=
  lazymatch goal with
  | |- wp (Connection.select _) _ _ => apply wp_select_healthy; [first [assumption|wp_pure; congruence]|]
  | |- wp (Connection.execute _ _) _ _ => apply wp_execute_healthy; [first [assumption|wp_pure; congruence]|]
  | |- wp Connection.commit _ _ => apply wp_commit_healthy; [first [assumption|wp_pure; congruence]|]
  | |- wp (if _ then _ else _) _ _ => fail
  | |- wp (match _ with _ => _ end) _ _ => fail
  | _ => wp_step
  end; wp_pure.

Lemma run_of_wp {A} (m : M world A) (Q : A → world → Prop) w :
  wp m (λ r w', ∃ a, r = Ok a ∧ Q a w') w →
  ∃ a w', m w = (Ok a, w') ∧ Q a w'.
Proof.
  unfold wp. intros (a & Hr & HQ). exists a, (m w).2. split; [|done].
  rewrite <- Hr. apply surjective_pairing.
Qed.







(** ** Reads after writes *)




Lemma insert_folder_row uid parent name d id d' :
  Sql.insert_folder uid parent name d = Some (id, d') →
  folders d' = (folders d ++ [mkFolder id uid parent name])%list.
Proof. unfold Sql.insert_folder. case_decide; [|done]. by intros [= <- <-]. Qed.










(** ** Downloads *)

Lemma wp_eq {S A} (m : M S A) (s : S) (x : outcome A * S) :
  wp m (λ r s', (r, s') = x) s → m s = x.
Proof. unfold wp. by destruct (m s). Qed.

Lemma downloadFile_run userId fileId w :
  store_failure w = None →
  fileController.downloadFile userId fileId w =
    match Sql.select_files (λ f, file_id f = fileId ∧ file_user_id f = userId) (store w) with
    | [] => (Ok (NotDownloaded "File not found"), w)
    | file :: _ =>
        match blobs (disk w) !! Path.join [UPLOAD_DIR w; file_path file] with
        | Some data =>
            (Ok (Downloaded data (file_name file) (mime_type file) (size file)), w)
        | None => (Ok (NotDownloaded "Failed to download file"), w)
        end
    end.
Proof.
  intros Hhealthy. apply wp_eq.
  unfold fileController.downloadFile.
  apply wp_with_connection, wp_try_catch, wp_bind.
  apply wp_select_healthy; [done|]. wp_pure.
  destruct (Sql.select_files _ (store w)) as [|file rest]; [by apply wp_ret|].
  apply wp_bind, wp_lift.
  unfold wp, fileStorage.getFile, Fs.readFile, Fs.on_disk, bind, gets, ret.
  cbn [fst snd].
  destruct (blobs (disk w) !! _) as [data|]; cbn [fst snd]; [|done].
  unfold with_disk. by destruct w as [? ? []].
Qed.

(** [downloadFile] reads the row with the owner in the query and never
    looks at the cache: while the store answers, a file id that is not a
    file of the user gets ['File not found'], in every state of the cache,
    and nothing changes. *)
Theorem downloadFile_serves_the_owner_only userId fileId w :
  store_failure w = None →
  (∀ f, f ∈ files (store w) → file_id f = fileId → file_user_id f ≠ userId) →
  fileController.downloadFile userId fileId w = (Ok (NotDownloaded "File not found"), w).
Proof.
  intros Hhealthy Hother. rewrite downloadFile_run by done.
  destruct (Sql.select_files _ (store w)) as [|file rest] eqn:Hrows; [done|].
  unfold Sql.select_files in Hrows. apply select_head in Hrows as [Hf [Hid Huser]].
  by destruct (Hother file Hf Hid).
Qed.

Lemma downloadFile_serves_the_owner_only_witness :
  let w := (fileController.getFileDetails 1 1
              (fileController.uploadFile uuid1 1 a_txt None
                 (boot "/srv/uploads" two_owners)).2).2 in
  file_user_id <$> files (store w) = [1] ∧
  (fileController.getFileDetails 2 1 w).1 =
    Ok (Success (FileDetails (mkFileItem 1 "a.txt" 10 "text/plain" None))) ∧
  (fileController.downloadFile 1 1 w).1 =
    Ok (Downloaded (arrayBuffer a_txt) "a.txt" "text/plain" 10) ∧
  fileController.downloadFile 2 1 w = (Ok (NotDownloaded "File not found"), w).
Proof.
  cbv zeta.
  split; [vm_compute; reflexivity|]. split; [vm_compute; reflexivity|].
  split; [vm_compute; reflexivity|].
  apply downloadFile_serves_the_owner_only; [vm_compute; reflexivity|].
  intros f Hf _. vm_compute in Hf.
  apply list_elem_of_singleton in Hf as ->. done.
Defined.

Lemma insert_file_row uid folder name path mime sz d id d' :
  Sql.insert_file uid folder name path mime sz d = Some (id, d') →
  files d' = (files d ++ [mkFile id uid folder name path mime sz])%list.
Proof. unfold Sql.insert_file. case_decide; [|done]. by intros [= <- <-]. Qed.

Lemma uploadFile_effect_healthy uuid userId file folderId w :
  store_failure w = None →
  wp (fileController.uploadFile uuid userId file folderId)
    (λ r w', ∀ id info, r = Ok (Success (FileInfo id info)) →
       store_failure w' = None ∧ UPLOAD_DIR w' = UPLOAD_DIR w ∧
       blobs (disk w') !! blob_path (UPLOAD_DIR w) userId uuid (upload_name file) =
         Some (arrayBuffer file) ∧
       mkFile id userId folderId (upload_name file)
         (Js.replace (blob_path (UPLOAD_DIR w) userId uuid (upload_name file))
            (UPLOAD_DIR w) "")
         (upload_type file) (upload_size file) ∈ files (store w')) w.
Proof.
  intros Hhealthy. unfold fileController.uploadFile.
  repeat first
    [ wp_healthy
    | apply wp_saveFile; intros [[? ?]| |] w1 Hs Hc Hr Hf Hb Ho; wp_pure;
      [destruct Ho as ([= -> ->] & Hblob & Hlog)|destruct Ho as [Hblobs Hlog]|done]
    | lazymatch goal with
      | |- wp (if ?b then _ else _) _ _ => destruct b eqn:?; wp_pure
      | |- wp (match ?x with _ => _ end) _ _ => destruct x eqn:?; wp_pure
      | |- match ?x with _ => _ end => destruct x as [[??]|] eqn:?; wp_pure
      end ];
    try done.
  all: intros id info [= <- <-].
  all: match goal with
       | H : Sql.insert_file _ _ _ _ _ _ _ = Some _ |- _ =>
           pose proof (insert_file_row _ _ _ _ _ _ _ _ _ H) as Hrow
       end.
  all: repeat split; [congruence|done|done|].
  all: rewrite Hrow.
  all: try match goal with
           | H : Sql.select_files _ _ = _ :: _ |- _ =>
               unfold Sql.select_files in H; apply select_head in H as [_ ->]
           end.
  all: apply elem_of_app; right; apply list_elem_of_here.
Qed.

Lemma row_of_file_id (rows : list file_row) (f1 f2 : file_row) :
  NoDup (file_id <$> rows) → f1 ∈ rows → f2 ∈ rows → file_id f1 = file_id f2 → f1 = f2.
Proof.
  induction rows as [|r rows IH]; intros Hnd H1 H2 Hid.
  { by apply elem_of_nil in H1. }
  rewrite fmap_cons in Hnd. apply NoDup_cons in Hnd as [Hr Hnd].
  apply elem_of_cons in H1 as [->|H1], H2 as [->|H2]; [done| | |by apply IH].
  - destruct Hr. rewrite Hid. apply list_elem_of_fmap. eauto.
  - destruct Hr. rewrite <- Hid. apply list_elem_of_fmap. eauto.
Qed.

(** What [uploadFile] stored is what [downloadFile] gives back: after a
    successful upload, the owner's download of the new file id returns the
    uploaded bytes with the declared name, content type and size. This
    needs a storage root that [join] leaves as it is, so that the stored
    path leads back to the blob, and file ids that are unique. *)
Theorem upload_then_download uuid userId file folderId w id info w' :
  fileController.uploadFile uuid userId file folderId w =
    (Ok (Success (FileInfo id info)), w') →
  store_failure w = None →
  NoDup (file_id <$> files (store w')) →
  (let stored := blob_path (UPLOAD_DIR w) userId uuid (upload_name file) in
   Path.join [UPLOAD_DIR w; Js.replace stored (UPLOAD_DIR w) ""] = stored) →
  fileController.downloadFile userId id w' =
    (Ok (Downloaded (arrayBuffer file) (upload_name file) (upload_type file)
           (upload_size file)), w').
Proof.
  intros Hrun Hhealthy Hkeys Hroot. cbv zeta in Hroot.
  destruct (wp_elim _ _ _ _ _ (uploadFile_effect_healthy uuid userId file folderId w
              Hhealthy) Hrun id info eq_refl) as (Hhealthy' & Hdir & Hblob & Hrow).
  rewrite downloadFile_run by done.
  destruct (Sql.select_files _ (store w')) as [|found rest] eqn:Hrows.
  { exfalso. assert (mkFile id userId folderId (upload_name file)
                       (Js.replace (blob_path (UPLOAD_DIR w) userId uuid (upload_name file))
                          (UPLOAD_DIR w) "")
                       (upload_type file) (upload_size file)
                     ∈ Sql.select_files
                         (λ f, file_id f = id ∧ file_user_id f = userId) (store w')) as Hin.
    { by apply list_elem_of_filter. }
    rewrite Hrows in Hin. by apply elem_of_nil in Hin. }
  unfold Sql.select_files in Hrows. apply select_head in Hrows as [Hfound [Hid _]].
  rewrite (row_of_file_id _ _ _ Hkeys Hfound Hrow Hid). cbn [file_path file_name mime_type size].
  by rewrite Hdir, Hroot, Hblob.
Qed.

Lemma upload_then_download_witness :
  let w := boot "/srv/uploads" initDatabase in
  let out := fileController.uploadFile uuid1 1 a_txt (Some 1) w in
  out = (Ok (Success (FileInfo 1 (Some ("a.txt", 10, "text/plain")))), out.2) ∧
  file_path <$> files (store out.2) =
    ["/user_1/0f8/fad/0f8fad5b-d9cb-469f-a165-70867728950e.txt"] ∧
  fileController.downloadFile 1 1 out.2 =
    (Ok (Downloaded (arrayBuffer a_txt) "a.txt" "text/plain" 10), out.2).
Proof.
  cbv zeta.
  assert (fileController.uploadFile uuid1 1 a_txt (Some 1) (boot "/srv/uploads" initDatabase) =
          (Ok (Success (FileInfo 1 (Some ("a.txt", 10, "text/plain")))),
           (fileController.uploadFile uuid1 1 a_txt (Some 1)
              (boot "/srv/uploads" initDatabase)).2)) as Hrun
    by (vm_compute; reflexivity).
  split; [exact Hrun|]. split; [vm_compute; reflexivity|].
  apply (upload_then_download uuid1 1 a_txt (Some 1) (boot "/srv/uploads" initDatabase)
           1 (Some ("a.txt", 10, "text/plain")) _ Hrun).
  - reflexivity.
  - vm_compute. apply NoDup_singleton.
  - vm_compute; reflexivity.
Defined.

(** ** Batches of uploads *)





(** ** Searches *)

(** Whatever the [LIKE] of the store is, while the store answers
    [searchFolders] and [searchFiles] return rows of the asking user only:
    the user's rows whose name matches [%term%], all of them and once
    each; they do not look at the cache and change nothing. The order of
    the lists is the one the store gives to [ORDER BY name]; nothing is said
    about it here. *)
Theorem searches_are_owner_scoped (like : string → string → bool) userId term w :
  store_failure w = None →
  (∃ rows,
     folderController.searchFolders like userId term w =
       (Ok (Success (FolderList (folder_item_of <$> rows))), w) ∧
     rows ≡ₚ filter (λ r, folder_user_id r = userId ∧
                          like (folder_name r) ("%" +:+ term +:+ "%") = true)
               (folders (store w))) ∧
  (∃ rows,
     fileController.searchFiles like userId term w =
       (Ok (Success (FileList (file_item_of <$> rows))), w) ∧
     rows ≡ₚ filter (λ f, file_user_id f = userId ∧
                          like (file_name f) ("%" +:+ term +:+ "%") = true)
               (files (store w))).
Proof.
  intros Hhealthy. split.
  - eexists. split.
    + apply wp_eq. unfold folderController.searchFolders.
      apply wp_with_connection, wp_try_catch, wp_bind.
      apply wp_select_healthy; [done|]. wp_pure. by apply wp_ret.
    + apply merge_sort_Permutation.
  - eexists. split.
    + apply wp_eq. unfold fileController.searchFiles.
      apply wp_with_connection, wp_try_catch, wp_bind.
      apply wp_select_healthy; [done|]. wp_pure. by apply wp_ret.
    + apply merge_sort_Permutation.
Qed.

Lemma searches_are_owner_scoped_witness :
  let like := λ name pattern : string, Js.includes ("%" +:+ name +:+ "%") pattern in
  let w := b_with_a_and_c in
  fst <$> [folderController.searchFolders like 1 "A" w;
           folderController.searchFolders like 2 "A" w] =
    [Ok (Success (FolderList [mkFolderItem 3 "A" (Some 2)]));
     Ok (Success (FolderList []))] ∧
  ∃ rows,
    folderController.searchFolders like 1 "A" w =
      (Ok (Success (FolderList (folder_item_of <$> rows))), w) ∧
    rows ≡ₚ filter (λ r, folder_user_id r = 1 ∧
                         like (folder_name r) ("%" +:+ "A" +:+ "%") = true)
              (folders (store w)).
Proof.
  cbv zeta. split; [vm_compute; reflexivity|].
  apply (searches_are_owner_scoped
           (λ name pattern : string, Js.includes ("%" +:+ name +:+ "%") pattern)
           1 "A" b_with_a_and_c).
  vm_compute; reflexivity.
Defined.

(** ** Sibling names *)

Lemma names_unique_shrink d d' :
  folders d' ⊆ folders d → names_unique d → names_unique d'.
Proof. intros Hsub Hu r1 r2 H1 H2. apply Hu; auto. Qed.

Lemma eq_or_is_null_same d (x : option Z) :
  forest d → Sql.fk_ok (Sql.folder_ids d) x → eq_or_is_null x x.
Proof.
  intros Hf Hfk. unfold eq_or_is_null. destruct x as [p|]; [|done].
  by rewrite (forest_key_truthy d p Hf Hfk).
Qed.

Lemma empty_select {A} (P : A → Prop) `{∀ x, Decision (P x)} (l : list A) x :
  is_empty (filter P l) = true → x ∈ l → ¬ P x.
Proof.
  intros Hempty Hx HP. assert (x ∈ filter P l) as Hin by by apply list_elem_of_filter.
  destruct (filter P l); [by apply elem_of_nil in Hin|done].
Qed.

Lemma insert_folder_names uid parent name d id d' :
  forest d → names_unique d →
  Sql.insert_folder uid parent name d = Some (id, d') →
  is_empty (Sql.select_folders
              (λ r, folder_user_id r = uid ∧ folder_name r = name ∧
                    eq_or_is_null parent (parent_folder_id r)) d) = true →
  names_unique d'.
Proof.
  intros Hf Hu Hins Hempty.
  pose proof (insert_folder_fk _ _ _ _ _ _ Hins) as Hfk.
  pose proof (eq_or_is_null_same d parent Hf Hfk) as Hsame.
  unfold names_unique. rewrite (insert_folder_row _ _ _ _ _ _ Hins).
  assert (∀ r, r ∈ folders d → folder_user_id r = uid → parent_folder_id r = parent →
               folder_name r = name → False) as Hnew.
  { intros r Hr Hru Hrp Hrn.
    apply (empty_select _ _ r Hempty Hr). repeat split; [done..|]. by rewrite Hrp. }
  intros r1 r2 [H1| ->%list_elem_of_singleton]%elem_of_app
               [H2| ->%list_elem_of_singleton]%elem_of_app; cbn; intros Huser Hp Hn.
  - by apply Hu.
  - by destruct (Hnew r1).
  - by destruct (Hnew r2).
  - done.
Qed.

Lemma forest_parent_ok d r :
  forest d → r ∈ folders d → Sql.fk_ok (Sql.folder_ids d) (parent_folder_id r).
Proof.
  intros Hf Hr. destruct (parent_folder_id r) as [p|] eqn:Hp; [|done].
  simpl. by eapply (forest_closed _ Hf).
Qed.

Lemma update_folder_name_names name id uid d (u : unit) d' folder rest :
  forest d → names_unique d →
  Sql.update_folder_name name id d = Some (u, d') →
  Sql.select_folders (λ r, folder_id r = id ∧ folder_user_id r = uid) d = folder :: rest →
  is_empty (Sql.select_folders
              (λ r, folder_user_id r = uid ∧ folder_name r = name ∧
                    folder_id r ≠ id ∧
                    eq_or_is_null (parent_folder_id folder) (parent_folder_id r)) d) = true →
  names_unique d'.
Proof.
  intros Hf Hu Hupd Hsel Hempty.
  unfold Sql.select_folders in Hsel. apply select_head in Hsel as (Hfolder & Hid & Huid).
  unfold Sql.update_folder_name in Hupd. case_decide; [done|]. injection Hupd as _ <-.
  pose proof (eq_or_is_null_same d _ Hf (forest_parent_ok d folder Hf Hfolder)) as Hsame.
  assert (∀ r, r ∈ folders d → folder_id r ≠ id → folder_user_id r = uid →
               parent_folder_id r = parent_folder_id folder →
               folder_name r = name → False) as Hnew.
  { intros r Hr Hrid Hru Hrp Hrn.
    apply (empty_select _ _ r Hempty Hr). repeat split; [done..|]. by rewrite Hrp. }
  assert (∀ r, r ∈ folders d → folder_id r = id → r = folder) as Hthe.
  { intros r Hr Hrid. apply (row_of_key (folders d)); [apply Hf|done..|congruence]. }
  unfold names_unique. cbn [folders].
  intros r1' r2' (r1 & -> & H1)%list_elem_of_fmap (r2 & -> & H2)%list_elem_of_fmap.
  unfold Sql.rename_row.
  destruct (decide (folder_id r1 = id)) as [E1|E1],
           (decide (folder_id r2 = id)) as [E2|E2]; cbn; intros Huser Hp Hn.
  - by rewrite (Hthe r1 H1 E1), (Hthe r2 H2 E2).
  - exfalso. rewrite (Hthe r1 H1 E1) in *. apply (Hnew r2); try done; congruence.
  - exfalso. rewrite (Hthe r2 H2 E2) in *. apply (Hnew r1); try done; congruence.
  - by apply Hu.
Qed.

Lemma update_folder_parent_names np id uid d (u : unit) d' folder rest target :
  forest d → names_unique d →
  Sql.update_folder_parent np id d = Some (u, d') →
  Sql.select_folders (λ r, folder_id r = id ∧ folder_user_id r = uid) d = folder :: rest →
  (∀ r, r ∈ folders d →
        ¬ (folder_user_id r = uid ∧ folder_name r = folder_name folder ∧
           parent_folder_id r = target)) →
  target = (if truthy np then np else None) →
  names_unique d'.
Proof.
  intros Hf Hu Hupd Hsel Hempty ->.
  unfold Sql.select_folders in Hsel. apply select_head in Hsel as (Hfolder & Hid & Huid).
  assert (Sql.fk_ok (Sql.folder_ids d) np) as Hfk.
  { eapply update_folder_parent_fk; [done|]. rewrite <- Hid. by apply list_elem_of_fmap_2. }
  assert ((if truthy np then np else None) = np) as Hnp.
  { destruct np as [p|]; [|done]. by rewrite (forest_key_truthy d p Hf Hfk). }
  rewrite Hnp in Hempty.
  unfold Sql.update_folder_parent in Hupd. case_decide; [|done]. injection Hupd as _ <-.
  assert (∀ r, r ∈ folders d → folder_user_id r = uid →
               parent_folder_id r = np → folder_name r = folder_name folder → False)
    as Hnew.
  { intros r Hr Hru Hrp Hrn. by apply (Hempty r Hr). }
  assert (∀ r, r ∈ folders d → folder_id r = id → r = folder) as Hthe.
  { intros r Hr Hrid. apply (row_of_key (folders d)); [apply Hf|done..|congruence]. }
  unfold names_unique. cbn [folders].
  intros r1' r2' (r1 & -> & H1)%list_elem_of_fmap (r2 & -> & H2)%list_elem_of_fmap.
  unfold Sql.reparent_row.
  destruct (decide (folder_id r1 = id)) as [E1|E1],
           (decide (folder_id r2 = id)) as [E2|E2]; cbn; intros Huser Hp Hn.
  - by rewrite (Hthe r1 H1 E1), (Hthe r2 H2 E2).
  - exfalso. rewrite (Hthe r1 H1 E1) in *. apply (Hnew r2); try done; congruence.
  - exfalso. rewrite (Hthe r2 H2 E2) in *. apply (Hnew r1); try done; congruence.
  - by apply Hu.
Qed.

Lemma createFolder_names userId name parentFolderId w :
  forest (store w) → names_unique (store w) →
  names_unique (store (folderController.createFolder userId name parentFolderId w).2).
Proof.
  intros Hf Hu.
  change (wp (folderController.createFolder userId name parentFolderId)
            (λ _ w', names_unique (store w')) w).
  unfold folderController.createFolder.
  repeat wp_step; try done.
  all: eapply insert_folder_names; [done..|].
  all: by apply negb_false_iff.
Qed.

Lemma renameFolder_names userId folderId newName w :
  forest (store w) → names_unique (store w) →
  names_unique (store (folderController.renameFolder userId folderId newName w).2).
Proof.
  intros Hf Hu.
  change (wp (folderController.renameFolder userId folderId newName)
            (λ _ w', names_unique (store w')) w).
  unfold folderController.renameFolder.
  repeat wp_step; try done.
  all: eapply update_folder_name_names; [done..|].
  all: by apply negb_false_iff.
Qed.

Lemma moveFolder_names fuel userId folderId newParentId w :
  forest (store w) → names_unique (store w) →
  names_unique (store (folderController.moveFolder fuel userId folderId newParentId w).2).
Proof.
  intros Hf Hu.
  change (wp (folderController.moveFolder fuel userId folderId newParentId)
            (λ _ w', names_unique (store w')) w).
  unfold folderController.moveFolder.
  repeat first
    [ wp_step
    | apply wp_isDescendant; intros ? [[|]| |] ? ]; try done.
  all: eapply update_folder_parent_names; [done|done|done|done| |].
  all: try match goal with
       | Hneg : negb (is_empty (Sql.select_folders ?P _)) = false |- ∀ r, _ =>
           intros r Hr;
           exact (empty_select P _ r (proj1 (negb_false_iff _) Hneg) Hr)
       end.
  all: match goal with H : truthy _ = _ |- _ => by rewrite H end.
Qed.

Lemma delete_folders_names ids d (u : unit) d' :
  names_unique d → Sql.delete_folders ids d = Some (u, d') → names_unique d'.
Proof.
  intros Hu Hd. eapply names_unique_shrink; [|done].
  apply delete_folders_eq in Hd as ->. apply sublist_subseteq, cascade_sublist.
Qed.

Lemma files_deleted_names w w' :
  files_deleted w w' → names_unique (store w) → names_unique (store w').
Proof. intros [_ F _ _ _] Hu. unfold names_unique. by rewrite F. Qed.

Lemma deleteFolder_names fuel userId folderId w :
  names_unique (store w) →
  names_unique (store (folderController.deleteFolder fuel userId folderId w).2).
Proof.
  intros Hu.
  change (wp (folderController.deleteFolder fuel userId folderId)
            (λ _ w', names_unique (store w')) w).
  unfold folderController.deleteFolder.
  repeat wp_step; try done.
  eapply (wp_for_each (λ s, ∃ w1, s = (InTransaction None, w1) ∧ files_deleted w w1)).
  { eexists. split; [done|]. split; wp_pure; try done. by exists [BeginTransaction]. }
  { intros file s _ (w1 & -> & Hw1). wp_pure. wp_step. apply wp_deleteFile.
    intros r w2 Hw2.
    assert (files_deleted w w2) by by eapply files_deleted_trans.
    destruct r; wp_pure; repeat wp_step; eauto using files_deleted_names. }
  intros s' (w1 & -> & Hw1).
  pose proof (files_deleted_names _ _ Hw1 Hu) as Hu1.
  wp_pure.
  repeat first
    [ wp_step
    | apply wp_getSubfolders; intros ? [?| |] ? ]; try done.
  all: repeat match goal with
       | H : Sql.delete_folders _ _ = Some _ |- _ =>
           eapply delete_folders_names in H; [|done]
       end; done.
Qed.

(** Whatever sequence of folder creations, renames, moves and deletions is
    run, with whatever outcome each, no owner ever gets two folders of the
    same name under the same parent, nor two of the same name at the top
    level, where the unique key of the table does not apply. *)
Theorem sibling_names_stay_unique calls w0 :
  forest (store w0) → names_unique (store w0) →
  names_unique (store (after_calls calls w0)).
Proof.
  revert w0. induction calls as [|call calls IH]; intros w Hf Hu; [done|].
  simpl. apply IH.
  - destruct call; simpl.
    + by apply createFolder_forest.
    + by apply renameFolder_forest.
    + by apply moveFolder_forest.
    + by apply deleteFolder_forest.
  - destruct call; simpl.
    + by apply createFolder_names.
    + by apply renameFolder_names.
    + by apply moveFolder_names.
    + by apply deleteFolder_names.
Qed.

Lemma initDatabase_names : names_unique initDatabase.
Proof.
  intros r1 r2 H1 H2 _ _ _. vm_compute in H1, H2.
  apply list_elem_of_singleton in H1, H2. congruence.
Qed.

Lemma sibling_names_stay_unique_witness :
  let w0 := boot "/srv/uploads" initDatabase in
  let calls := [CreateFolder 1 "Docs" None; CreateFolder 1 "Docs" None;
                CreateFolder 1 "Pics" None; RenameFolder 1 3 "Docs";
                CreateFolder 1 "Docs" (Some 3); MoveFolder 4 1 4 None] in
  forest (store w0) ∧ names_unique (store w0) ∧
  names_unique (store (after_calls calls w0)).
Proof.
  intros w0 calls. split; [apply initDatabase_forest|].
  split; [apply initDatabase_names|].
  apply (sibling_names_stay_unique calls w0);
    [apply initDatabase_forest|apply initDatabase_names].
Defined.

(** ** Other owners' folders *)

Lemma getSubfolders_sound fuel parentId :
  reads (folderController.deleteFolder_getSubfolders fuel parentId)
    (λ d ids, ∀ x, x ∈ ids → descendant (folders d) parentId x).
Proof.
  revert parentId. induction fuel as [|fuel IH]; intros parentId; simpl.
  { apply reads_diverge. }
  eapply reads_bind; [apply reads_select| |].
  - intros subfolders.
    apply (λ Hbody, reads_fold_each subfolders _
             (λ d seen acc,
                (∀ ch, ch ∈ seen →
                   ∃ r, r ∈ folders d ∧ parent_folder_id r = Some parentId ∧
                        folder_id r = ch) →
                ∀ x, x ∈ acc → descendant (folders d) parentId x) Hbody [] []).
    intros acc x.
    eapply (reads_bind _ _ _ (λ childIds _ acc', acc' = ((acc ++ [x]) ++ childIds)%list));
      [apply IH|intros childIds; by apply reads_ret|].
    intros d childIds acc' Hchild -> seen Hseen Hchildren y Hy.
    destruct (Hchildren x) as (r & Hr & Hp & <-);
      [apply elem_of_app; right; by apply list_elem_of_singleton|].
    assert (descendant (folders d) parentId (folder_id r)) as Hx
      by by apply below_child.
    apply elem_of_app in Hy as [[Hy| ->%list_elem_of_singleton]%elem_of_app|Hy].
    + apply Hseen; [|done]. intros ch Hch. apply Hchildren, elem_of_app. by left.
    + done.
    + eapply below_trans; [exact Hx|]. by apply Hchild.
  - intros d subfolders ids -> Hids x Hx. simpl in Hids.
    apply Hids; [by intros _ ? ?%elem_of_nil| |done].
    intros ch Hch. exact (listed_child d parentId ch Hch).
Qed.

Lemma wp_getSubfolders_sound fuel parentId Q c w :
  (∀ f r, (∀ ids, r = Ok ids →
             ∀ x, x ∈ ids → descendant (folders (Connection.view (c, w))) parentId x) →
          Q r (c, with_store_failure f w)) →
  wp (folderController.deleteFolder_getSubfolders fuel parentId) Q (c, w).
Proof. intros H. eapply wp_reads; [apply getSubfolders_sound|]. exact H. Qed.

Lemma others_kept_refl uid d : others_kept uid d d.
Proof. by intros r _. Qed.

Lemma insert_folder_others uid parent name d id d' :
  Sql.insert_folder uid parent name d = Some (id, d') → others_kept uid d d'.
Proof.
  intros Hins r Hr. rewrite (insert_folder_row _ _ _ _ _ _ Hins).
  rewrite elem_of_app, list_elem_of_singleton. split; [|by left].
  intros [?| ->]; [done|]. by destruct Hr.
Qed.

Lemma updated_others (g : folder_row → folder_row) id uid d folder rest :
  forest d →
  Sql.select_folders (λ r, folder_id r = id ∧ folder_user_id r = uid) d = folder :: rest →
  (∀ r, folder_id r ≠ id → g r = r) →
  (∀ r, folder_user_id (g r) = folder_user_id r) →
  ∀ r, folder_user_id r ≠ uid → r ∈ g <$> folders d ↔ r ∈ folders d.
Proof.
  intros Hf Hsel Hg Hgu r Hr.
  unfold Sql.select_folders in Hsel. apply select_head in Hsel as (Hfolder & Hid & Huid).
  assert (∀ r0, r0 ∈ folders d → folder_user_id r0 ≠ uid → folder_id r0 ≠ id) as Hother.
  { intros r0 Hr0 Hu0 E. apply Hu0. rewrite <- Huid. f_equal.
    apply (row_of_key (folders d)); [apply Hf|done..|congruence]. }
  split.
  - intros (r0 & -> & Hr0)%list_elem_of_fmap. rewrite Hgu in Hr.
    by rewrite (Hg r0 (Hother r0 Hr0 Hr)).
  - intros Hin. apply list_elem_of_fmap. exists r. split; [|done].
    symmetry. by apply Hg, Hother.
Qed.

Lemma update_folder_name_others name id uid d (u : unit) d' folder rest :
  forest d →
  Sql.update_folder_name name id d = Some (u, d') →
  Sql.select_folders (λ r, folder_id r = id ∧ folder_user_id r = uid) d = folder :: rest →
  others_kept uid d d'.
Proof.
  intros Hf Hupd Hsel.
  unfold Sql.update_folder_name in Hupd. case_decide; [done|]. injection Hupd as _ <-.
  intros r Hr. cbn [folders]. eapply updated_others; [done..| | |done].
  - intros r0 Hr0. unfold Sql.rename_row. by case_decide.
  - intros r0. unfold Sql.rename_row. by case_decide.
Qed.

Lemma update_folder_parent_others np id uid d (u : unit) d' folder rest :
  forest d →
  Sql.update_folder_parent np id d = Some (u, d') →
  Sql.select_folders (λ r, folder_id r = id ∧ folder_user_id r = uid) d = folder :: rest →
  others_kept uid d d'.
Proof.
  intros Hf Hupd Hsel.
  unfold Sql.update_folder_parent in Hupd. case_decide; [|done]. injection Hupd as _ <-.
  intros r Hr. cbn [folders]. eapply updated_others; [done..| | |done].
  - intros r0 Hr0. unfold Sql.reparent_row. by case_decide.
  - intros r0. unfold Sql.reparent_row. by case_decide.
Qed.

Lemma cascade_keeps n ids d r :
  r ∈ folders d →
  (∀ i, i ∈ ids → ¬ in_subtree (folders d) i (folder_id r)) →
  r ∈ folders (Sql.cascade n ids d).
Proof.
  revert ids d. induction n as [|n IH]; intros ids d Hr Hout; simpl; [done|].
  destruct ids as [|i0 ids0] eqn:Hids; [done|]. rewrite <- Hids in *. clear Hids.
  assert (folders (Sql.delete_level ids d) ⊆ folders d) as Hsub
    by apply sublist_subseteq, delete_level_sublist.
  apply IH.
  - apply list_elem_of_filter. split; [|done].
    intros Hin. apply (Hout _ Hin). by left.
  - intros c (rc & -> & [Href Hrc]%list_elem_of_filter)%list_elem_of_fmap Hsubtree.
    destruct (parent_folder_id rc) as [p|] eqn:Hp; [|done]. simpl in Href.
    apply (Hout p Href). right.
    assert (descendant (folders d) p (folder_id rc)) as Hc
      by (apply below_child; [by apply Hsub|done]).
    destruct Hsubtree as [->|Hd]; [done|].
    eapply below_trans; [exact Hc|]. by eapply below_mono.
Qed.

Lemma outside_subtree d folder r :
  forest d → folder ∈ folders d → r ∈ folders d →
  folder_user_id r ≠ folder_user_id folder →
  ¬ in_subtree (folders d) (folder_id folder) (folder_id r).
Proof.
  intros Hf Hfolder Hr Hu [E|Hd].
  - apply Hu. f_equal. by apply (row_of_key (folders d)); [apply Hf|..].
  - destruct (below_same_owner d _ _ Hf Hd folder Hfolder eq_refl)
      as (r' & Hr' & Hid & Hu').
    apply Hu. rewrite <- Hu'. f_equal.
    by apply (row_of_key (folders d)); [apply Hf|..].
Qed.

Lemma delete_folders_others ids d (u : unit) d' d0 folder :
  forest d0 → folder ∈ folders d0 →
  folders d ⊆ folders d0 →
  (∀ i, i ∈ ids → in_subtree (folders d0) (folder_id folder) i) →
  Sql.delete_folders ids d = Some (u, d') →
  (∀ r, folder_user_id r ≠ folder_user_id folder → r ∈ folders d' ↔ r ∈ folders d) ∧
  folders d' ⊆ folders d0.
Proof.
  intros Hf Hfolder Hsub Hids Hd. apply delete_folders_eq in Hd as ->.
  pose proof (sublist_subseteq _ _ (cascade_sublist (S (S (length (folders d)))) ids d))
    as Hless.
  split; [|set_solver].
  intros r Hr. split; [apply Hless|].
  intros Hin. apply cascade_keeps; [done|].
  intros i Hi Hsubtree.
  apply (outside_subtree d0 folder r Hf Hfolder (Hsub _ Hin) Hr).
  eapply in_subtree_trans; [by apply Hids|].
  destruct Hsubtree as [->|Hbelow]; [by left|right].
  by eapply below_mono.
Qed.

Lemma createFolder_others userId name parentFolderId w :
  others_kept userId (store w)
    (store (folderController.createFolder userId name parentFolderId w).2).
Proof.
  change (wp (folderController.createFolder userId name parentFolderId)
            (λ _ w', others_kept userId (store w) (store w')) w).
  unfold folderController.createFolder.
  repeat wp_step; try apply others_kept_refl.
  all: by eapply insert_folder_others.
Qed.

Lemma renameFolder_others userId folderId newName w :
  forest (store w) →
  others_kept userId (store w)
    (store (folderController.renameFolder userId folderId newName w).2).
Proof.
  intros Hf.
  change (wp (folderController.renameFolder userId folderId newName)
            (λ _ w', others_kept userId (store w) (store w')) w).
  unfold folderController.renameFolder.
  repeat wp_step; try apply others_kept_refl.
  all: by eapply update_folder_name_others.
Qed.

Lemma moveFolder_others fuel userId folderId newParentId w :
  forest (store w) →
  others_kept userId (store w)
    (store (folderController.moveFolder fuel userId folderId newParentId w).2).
Proof.
  intros Hf.
  change (wp (folderController.moveFolder fuel userId folderId newParentId)
            (λ _ w', others_kept userId (store w) (store w')) w).
  unfold folderController.moveFolder.
  repeat first
    [ wp_step
    | apply wp_isDescendant; intros ? [[|]| |] ? ]; try apply others_kept_refl.
  all: by eapply update_folder_parent_others.
Qed.

Lemma files_deleted_others uid w w' :
  files_deleted w w' → others_kept uid (store w) (store w').
Proof. intros [_ F _ _ _] r _. by rewrite F. Qed.

Lemma deleteFolder_others fuel userId folderId w :
  forest (store w) →
  others_kept userId (store w)
    (store (folderController.deleteFolder fuel userId folderId w).2).
Proof.
  intros Hf.
  change (wp (folderController.deleteFolder fuel userId folderId)
            (λ _ w', others_kept userId (store w) (store w')) w).
  unfold folderController.deleteFolder.
  repeat wp_step; try apply others_kept_refl.
  eapply (wp_for_each (λ s, ∃ w1, s = (InTransaction None, w1) ∧ files_deleted w w1)).
  { eexists. split; [done|]. split; wp_pure; try done. by exists [BeginTransaction]. }
  { intros file s _ (w1 & -> & Hw1). wp_pure. wp_step. apply wp_deleteFile.
    intros r w2 Hw2.
    assert (files_deleted w w2) by by eapply files_deleted_trans.
    destruct r; wp_pure; repeat wp_step; eauto using files_deleted_others. }
  intros s' (w1 & -> & Hw1).
  pose proof (files_deleted_others userId _ _ Hw1) as Hu1.
  pose proof (fd_folders _ _ Hw1) as Hsame.
  wp_pure.
  repeat first
    [ wp_step
    | apply wp_getSubfolders_sound; intros ? [?| |] ? ]; try done.
  all: unfold Sql.select_folders in *.
  all: match goal with
       | Hsel : filter _ _ = _ :: _ |- _ =>
           apply select_head in Hsel as (Hfolder & Hid & Huid)
       end.
  all: repeat match goal with
       | Hdel : Sql.delete_folders _ _ = Some _ |- _ =>
           apply (delete_folders_others _ _ _ _ (store w) _ Hf Hfolder) in Hdel
             as [? ?];
           [ | by rewrite ?Hsame
             | intros i Hi; first
                 [ apply list_elem_of_singleton in Hi as ->; by left
                 | right; rewrite <- Hsame; rewrite Hid; eauto ] ]
       end.
  all: intros r Hr; rewrite <- Huid in Hr.
  all: repeat match goal with
       | Hkept : ∀ r, _ → r ∈ folders _ ↔ _ |- _ => rewrite (Hkept r Hr); clear Hkept
       end.
  all: by rewrite ?Hsame.
Qed.

Lemma perform_others call w :
  forest (store w) →
  others_kept (caller call) (store w) (store (perform call w).2).
Proof.
  intros Hf. destruct call; simpl.
  - apply createFolder_others.
  - by apply renameFolder_others.
  - by apply moveFolder_others.
  - by apply deleteFolder_others.
Qed.

(** Whatever folder calls other users make, and whatever each of them
    answers, the folder rows of an owner stay exactly as they were: none
    is removed, renamed or moved, and none is added in the owner's name. *)
Theorem other_users_calls_keep_my_folders uid calls w0 r :
  forest (store w0) →
  Forall (λ call, caller call ≠ uid) calls →
  folder_user_id r = uid →
  r ∈ folders (store (after_calls calls w0)) ↔ r ∈ folders (store w0).
Proof.
  intros Hf Hcalls Hr. revert w0 Hf.
  induction Hcalls as [|call calls Hcall _ IH]; intros w0 Hf; [done|].
  simpl. rewrite IH.
  - apply (perform_others call w0 Hf). congruence.
  - destruct call; simpl.
    + by apply createFolder_forest.
    + by apply renameFolder_forest.
    + by apply moveFolder_forest.
    + by apply deleteFolder_forest.
Qed.

Lemma two_owners_forest : forest two_owners.
Proof. destruct initDatabase_forest. by split. Qed.

Lemma other_users_calls_keep_my_folders_witness :
  let w0 := boot "/srv/uploads" two_owners in
  let calls := [CreateFolder 2 "Mine" None; RenameFolder 2 1 "Taken";
                MoveFolder 5 2 1 (Some 2); DeleteFolder 5 2 1;
                DeleteFolder 5 2 2] in
  let r := mkFolder 1 1 None "Root" in
  forest (store w0) ∧ Forall (λ call, caller call ≠ 1) calls ∧
  folder_user_id r = 1 ∧
  (r ∈ folders (store (after_calls calls w0)) ↔ r ∈ folders (store w0)).
Proof.
  intros w0 calls r.
  assert (Forall (λ call, caller call ≠ 1) calls) as Hcalls
    by (repeat constructor; simpl; lia).
  split; [apply two_owners_forest|]. split; [exact Hcalls|]. split; [reflexivity|].
  exact (other_users_calls_keep_my_folders 1 calls w0 r two_owners_forest Hcalls eq_refl).
Defined.

(** ** The blob store *)

Lemma prune_blobs chain w :
  (fileStorage.prune chain w).1 ≠ OutOfFuel ∧
  blobs (disk (fileStorage.prune chain w).2) = blobs (disk w).
Proof.
  revert w. induction chain as [|dirPath above IH]; intros w; simpl; [done|].
  unfold bind, gets; simpl.
  destruct (String.eqb dirPath (UPLOAD_DIR w)); [done|].
  unfold Fs.readdir, Fs.on_disk. case_decide; [|done]. cbn [fst snd].
  match goal with |- context [(0 <? ?n)%nat] => destruct (0 <? n)%nat end; [done|].
  unfold Fs.rm, Fs.on_disk. cbn [disk with_disk].
  destruct w as [d ca [bl di io] u sf l]; cbn.
  destruct io; [done|]. case_decide; [|done].
  cbn. destruct (IH (mkWorld d ca (mkFs bl (di ∖ {[dirPath]}) false) u sf l)) as [H1 H2].
  split; [exact H1|exact H2].
Qed.

(** [fileStorage.deleteFile] answers [true] exactly when the disk accepts
    changes and holds a blob at the path joined from the upload root and
    the given path. It then removes that blob and no other, whatever the
    directory cleanup runs into; when it answers [false] every blob is
    left as it was. *)
Theorem storage_deleteFile_removes_one_blob filePath w :
  let fullPath := Path.join [UPLOAD_DIR w; filePath] in
  let present := bool_decide (io_error (disk w) = false ∧
                              is_Some (blobs (disk w) !! fullPath)) in
  (fileStorage.deleteFile filePath w).1 = Ok present ∧
  blobs (disk (fileStorage.deleteFile filePath w).2) =
    (if present then delete fullPath (blobs (disk w)) else blobs (disk w)).
Proof.
  intros fullPath present. subst present.
  unfold fileStorage.deleteFile, Fs.unlink, Fs.on_disk, try_catch, bind, gets,
    modify, record.
  fold fullPath.
  destruct w as [d ca [bl di io] u sf l]; cbn [disk blobs io_error dirs UPLOAD_DIR] in *.
  destruct io.
  { rewrite bool_decide_eq_false_2 by (intros [? _]; done). done. }
  destruct (bl !! fullPath) as [data|] eqn:Hblob.
  2:{ rewrite bool_decide_eq_false_2 by (by intros [_ [? ?]]). done. }
  rewrite bool_decide_eq_true_2 by eauto.
  cbn [with_disk store cache disk UPLOAD_DIR store_failure log].
  match goal with |- context [fileStorage.prune ?c ?w0] =>
    destruct (prune_blobs c w0) as [Hr Hb];
    destruct (fileStorage.prune c w0) as [[[]| |] w1] eqn:Hprune
  end; cbn in *; done.
Qed.

(** ** The table by the answer *)

Lemma insert_folder_eq uid parent name d id d' :
  Sql.insert_folder uid parent name d = Some (id, d') →
  folders d' = (folders d ++ [mkFolder (folders_auto_increment d) uid parent name])%list.
Proof.
  intros Hins. rewrite (insert_folder_row _ _ _ _ _ _ Hins). do 2 f_equal.
  unfold Sql.insert_folder in Hins. case_decide; [|done]. by injection Hins as <- _.
Qed.

Lemma update_folder_name_eq name id d (u : unit) d' :
  Sql.update_folder_name name id d = Some (u, d') →
  folders d' = Sql.rename_row id name <$> folders d.
Proof.
  unfold Sql.update_folder_name. case_decide; [done|]. intros Hupd.
  by injection Hupd as _ <-.
Qed.

Lemma update_folder_parent_eq parent id d (u : unit) d' :
  Sql.update_folder_parent parent id d = Some (u, d') →
  folders d' = Sql.reparent_row id parent <$> folders d.
Proof.
  unfold Sql.update_folder_parent. case_decide; [|done]. intros Hupd.
  by injection Hupd as _ <-.
Qed.

Lemma createFolder_table_by_answer userId name parentFolderId w :
  wp (folderController.createFolder userId name parentFolderId)
    (table_by_answer (CreateFolder userId name parentFolderId) w) w.
Proof.
  unfold folderController.createFolder, table_by_answer.
  repeat wp_step; try by left.
  all: try right.
  all: by eapply insert_folder_eq.
Qed.

Lemma renameFolder_table_by_answer userId folderId newName w :
  wp (folderController.renameFolder userId folderId newName)
    (table_by_answer (RenameFolder userId folderId newName) w) w.
Proof.
  unfold folderController.renameFolder, table_by_answer.
  repeat wp_step; try done.
  all: by eapply update_folder_name_eq.
Qed.

Lemma moveFolder_table_by_answer fuel userId folderId newParentId w :
  wp (folderController.moveFolder fuel userId folderId newParentId)
    (table_by_answer (MoveFolder fuel userId folderId newParentId) w) w.
Proof.
  unfold folderController.moveFolder, table_by_answer.
  repeat first
    [ wp_step
    | apply wp_isDescendant; intros ? [[|]| |] ? ]; try done.
  all: by eapply update_folder_parent_eq.
Qed.

Lemma deleteFolder_table_by_answer fuel userId folderId w :
  wp (folderController.deleteFolder fuel userId folderId)
    (table_by_answer (DeleteFolder fuel userId folderId) w) w.
Proof.
  unfold folderController.deleteFolder, table_by_answer.
  repeat wp_step; try done.
  eapply (wp_for_each (λ s, ∃ w1, s = (InTransaction None, w1) ∧ files_deleted w w1)).
  { eexists. split; [done|]. split; wp_pure; try done. by exists [BeginTransaction]. }
  { intros file s _ (w1 & -> & Hw1). wp_pure. wp_step. apply wp_deleteFile.
    intros r w2 Hw2.
    assert (files_deleted w w2) by by eapply files_deleted_trans.
    destruct r; wp_pure; repeat wp_step; eauto using fd_folders. }
  intros s' (w1 & -> & Hw1).
  pose proof (fd_folders _ _ Hw1) as Hsame.
  wp_pure.
  repeat first
    [ wp_step
    | apply wp_getSubfolders; intros ? [?| |] ? ]; try done.
  all: repeat match goal with
       | H : Sql.delete_folders _ _ = Some _ |- _ =>
           apply delete_folders_eq in H as ->
       end.
  all: unfold edited; rewrite <- Hsame.
  all: first [ apply cascade_sublist
             | etrans; [apply cascade_sublist|apply cascade_sublist] ].
Qed.

(** A folder call that answers with success has changed the folder table
    in one way only: a creation appended the one new row under the next
    key, a rename or a move rewrote the name or the parent of the row with
    the given key, a deletion took rows away. A rename, a move or a
    deletion that answers anything else, or does not answer, leaves every
    folder row as it was. A creation that does not answer with success has
    left the table as it was or has appended its row all the same. *)
Theorem folder_table_follows_the_answer call w :
  table_by_answer call w (perform call w).1 (perform call w).2.
Proof.
  destruct call; simpl.
  - apply createFolder_table_by_answer.
  - apply renameFolder_table_by_answer.
  - apply moveFolder_table_by_answer.
  - apply deleteFolder_table_by_answer.
Qed.

(** ** A creation that reports failure *)

(** [createFolder] reads the new row back after the commit. When the store
    serves the statements up to the commit and fails on that last query,
    the call answers that it failed to create the folder, and the folder
    is in the table all the same. *)
Theorem createFolder_may_fail_after_commit userId name parentFolderId w id d' :
  store_failure w = Some (if truthy parentFolderId then 4 else 3)%nat →
  (truthy parentFolderId = true →
   is_empty (Sql.select_folders
               (λ r, Some (folder_id r) = parentFolderId ∧ folder_user_id r = userId)
               (store w)) = false) →
  is_empty (Sql.select_folders
              (λ r, folder_user_id r = userId ∧ folder_name r = name ∧
                    eq_or_is_null parentFolderId (parent_folder_id r))
              (store w)) = true →
  Sql.insert_folder userId parentFolderId name (store w) = Some (id, d') →
  (folderController.createFolder userId name parentFolderId w).1 =
    Ok (Failure "Failed to create folder") ∧
  store (folderController.createFolder userId name parentFolderId w).2 = d'.
Proof.
  intros Hfail Hparent Hnone Hins.
  destruct w as [d ca di u sf l]. cbn [store store_failure] in *. subst sf.
  unfold folderController.createFolder, Connection.with_connection, try_catch,
    Connection.beginTransaction, Connection.select, Connection.execute,
    Connection.commit, Connection.rollback, Connection.accept,
    folderController.clear_parent_caches, folderController.clear_user_caches,
    cacheMiddleware.delete, cacheMiddleware.deleteByPattern, lift, modify, gets,
    bind, ret.
  destruct (truthy parentFolderId) eqn:Htruthy.
  - cbn -[show append]. rewrite (Hparent eq_refl). cbn -[show append].
    rewrite Hnone. cbn -[show append]. rewrite Hins. done.
  - cbn -[show append]. rewrite Hnone. cbn -[show append]. rewrite Hins. done.
Qed.

Lemma createFolder_may_fail_after_commit_witness :
  let w := with_store_failure (Some 3%nat) (boot "/srv/uploads" initDatabase) in
  let answered := folderController.createFolder 1 "Docs" None w in
  answered.1 = Ok (Failure "Failed to create folder") ∧
  folders (store answered.2) = [mkFolder 1 1 None "Root"; mkFolder 2 1 None "Docs"].
Proof.
  intros w answered.
  destruct (createFolder_may_fail_after_commit 1 "Docs" None w 2
              (mkDatabase [1] [mkFolder 1 1 None "Root"; mkFolder 2 1 None "Docs"] [] 3 1))
    as [Hanswer Hstore].
  - reflexivity.
  - intros Htruthy. vm_compute in Htruthy. discriminate Htruthy.
  - vm_compute. reflexivity.
  - vm_compute. reflexivity.
  - split; [exact Hanswer|]. subst answered. rewrite Hstore. reflexivity.
Defined.

(** ** The order of an upload *)

(** In the events one call of [uploadFile] adds to the history, the insert
    of the row comes after the write of the blob. The call removes no blob,
    and the blob it wrote stays where [saveFile] put it. When the blob was
    written and no row was inserted, the call does not answer with success
    and the store is as it was before the call: what is left over is a blob
    without a row. Every file row after the call is a row from before it,
    or holds the string [saveFile] returned for the blob this call wrote. *)
Theorem uploadFile_orders_blob_before_row uuid userId file folderId w :
  let P := blob_path (UPLOAD_DIR w) userId uuid (upload_name file) in
  let out := fileController.uploadFile uuid userId file folderId w in
  ∃ evs, log out.2 = (log w ++ evs)%list ∧
    (∀ before later, evs = (before ++ Executed InsertFile :: later)%list →
       WriteFile P ∈ before) ∧
    (∀ p, is_Some (blobs (disk w) !! p) → is_Some (blobs (disk out.2) !! p)) ∧
    (WriteFile P ∈ evs → blobs (disk out.2) !! P = Some (arrayBuffer file)) ∧
    (WriteFile P ∈ evs → Executed InsertFile ∉ evs →
       (∀ payload, out.1 ≠ Ok (Success payload)) ∧ store out.2 = store w) ∧
    (∀ f, f ∈ files (store out.2) →
       f ∈ files (store w) ∨
       (file_path f = Js.replace P (UPLOAD_DIR w) "" ∧ WriteFile P ∈ evs)).
Proof.
  intros P out.
  destruct (uploadFile_history uuid userId file folderId w)
    as (evs & Hlog & _ & Horder & Hkept & Hblob & Hfailed & Hrows).
  exists evs. split; [exact Hlog|]. split; [exact Horder|]. split; [exact Hkept|].
  split; [exact Hblob|]. split; [|exact Hrows].
  intros Hwritten Hnone. destruct (Hfailed Hwritten Hnone) as (Hanswer & _ & Hstore).
  split; [|exact Hstore]. intros payload. fold out in Hanswer. rewrite Hanswer. discriminate.
Qed.

Lemma uploadFile_orders_blob_before_row_witness :
  let w := boot "/srv/uploads" initDatabase in
  let P := "/srv/uploads/user_1/0f8/fad/0f8fad5b-d9cb-469f-a165-70867728950e.txt" in
  let out := fileController.uploadFile uuid1 1 a_txt (Some 7) w in
  blob_path (UPLOAD_DIR w) 1 uuid1 (upload_name a_txt) = P ∧
  effects (fileController.uploadFile uuid1 1 a_txt (Some 7)) w =
    [BeginTransaction; WriteFile P; Rollback] ∧
  files (store out.2) = [] ∧
  blobs (disk out.2) !! P = Some (arrayBuffer a_txt) ∧
  ∃ evs, log out.2 = (log w ++ evs)%list ∧
    (WriteFile P ∈ evs → Executed InsertFile ∉ evs →
       (∀ payload, out.1 ≠ Ok (Success payload)) ∧ store out.2 = store w).
Proof.
  cbv zeta.
  assert (blob_path (UPLOAD_DIR (boot "/srv/uploads" initDatabase)) 1 uuid1
            (upload_name a_txt) =
          "/srv/uploads/user_1/0f8/fad/0f8fad5b-d9cb-469f-a165-70867728950e.txt")
    as HP by (vm_compute; reflexivity).
  split; [exact HP|].
  split; [vm_compute; reflexivity|].
  split; [vm_compute; reflexivity|].
  split; [vm_compute; reflexivity|].
  destruct (uploadFile_orders_blob_before_row uuid1 1 a_txt (Some 7)
              (boot "/srv/uploads" initDatabase))
    as (evs & Hlog & _ & _ & _ & Hfail & _).
  exists evs. split; [exact Hlog|]. rewrite <- HP. exact Hfail.
Defined.
